(** * LucaGame: hex-grid geometry, path finding, line of sight and enemy AI

  A shallow embedding of [src/utils/HexGrid.js] and [src/entities/Enemy.js]
  (with the two scene operations the enemy calls, [damagePlayer] and
  [endBattle], and the scene's own obstacle assembly for the player's path),
  and of the turn management and the player's actions of the battle scene.

  Conventions of the embedding.
  - Grid coordinates, hit points and action points are JavaScript numbers
    holding integers; they are modelled as [Z].
  - The fractional coordinates handed to [roundHex] and [roundCube] are
    modelled as exact rationals [Q]; [Math.round x] is [floor (x + 1/2)]
    (nearest integer, ties towards plus infinity).
  - The g and f scores of [findPath] can be [Infinity], and the comparator
    of [openSet.sort] can return [NaN]: they are modelled by [JS.num].
  - [while] loops take a fuel argument; [None] means that the fuel ran out.
  - Animations (tweens, delayed calls) complete in program order; a promise
    resolves after its [onComplete] body has run. *)

From Stdlib Require Import ZArith QArith Qround Qabs Lia Lqa.
From stdpp Require Import base decidable option list numbers gmap.

Local Open Scope Z_scope.

(** ** JavaScript numbers that may be infinite *)

Module JS.

Inductive num := Fin (z : Z) | PInf | NInf | NaN.

Definition add (a b : num) : num :=
  match a, b with
  | NaN, _ | _, NaN => NaN
  | Fin x, Fin y => Fin (x + y)
  | PInf, NInf | NInf, PInf => NaN
  | PInf, _ | _, PInf => PInf
  | NInf, _ | _, NInf => NInf
  end.

Definition neg (a : num) : num :=
  match a with
  | Fin x => Fin (- x)
  | PInf => NInf
  | NInf => PInf
  | NaN => NaN
  end.

Definition sub (a b : num) : num := add a (neg b).

(** [a < b]; every comparison with [NaN] is false. *)
Definition ltb (a b : num) : bool :=
  match a, b with
  | NaN, _ | _, NaN => false
  | Fin x, Fin y => x <? y
  | _, NInf => false
  | NInf, _ => true
  | PInf, _ => false
  | Fin _, PInf => true
  end.

(** [v || Infinity] for [v] the result of [Map.get]: [undefined], [0] and
    [NaN] are falsy. *)
Definition or_Infinity (v : option num) : num :=
  match v with
  | None | Some (Fin 0) | Some NaN => PInf
  | Some n => n
  end.

(** [Array.prototype.sort] with a comparator: the sort is stable, and a
    comparator result that is [NaN] counts as [+0].  [positive v] tells
    whether the comparator result [v] is positive, that is whether the
    second argument has to go first. *)
Definition positive (v : num) : bool := ltb (Fin 0) v.

Section Sort.
Context {A : Type} (cmp : A → A → num).

Fixpoint insert (x : A) (l : list A) : list A :=
  match l with
  | [] => [x]
  | y :: l' => if positive (cmp x y) then y :: insert x l' else x :: l
  end.

Definition sort (l : list A) : list A := foldr insert [] l.
End Sort.

(** [Math.round] and [Math.abs] on exact rationals. *)
Definition Math_round (x : Q) : Z := Qfloor (x + (1 # 2))%Q.
Definition Math_abs (x : Q) : Q := Qabs x.

(** [a > b] on rationals. *)
Definition gtb (a b : Q) : bool := negb (Qle_bool a b).

End JS.

(** ** HexGrid.js *)

Module HexGrid.

Record Hex := mkHex { hex_q : Z; hex_r : Z }.
Record Cube := mkCube { cube_q : Z; cube_r : Z; cube_s : Z }.

#[global] Instance Hex_eq_dec : EqDecision Hex.
Proof. solve_decision. Defined.

(** The grid object: only the fields the coordinate logic reads. *)
Record t := mk { gridRadius : Z; hexes : list Cube }.

(** [for (let q = -radius; q <= radius; q++)] with
    [for (let r = r1; r <= r2; r++)] inside. *)
Definition generateHexGrid (radius : Z) : list Cube :=
  q ← seqZ (- radius) (radius - (- radius) + 1);
  let r1 := Z.max (- radius) (- q - radius) in
  let r2 := Z.min radius (- q + radius) in
  r ← seqZ r1 (r2 - r1 + 1);
  [mkCube q r (- q - r)].

(** The constructor. *)
Definition new (gridRadius : Z) : t :=
  mk gridRadius (generateHexGrid gridRadius).

Definition isValidHex (g : t) (q r : Z) : bool :=
  existsb (λ hex, (cube_q hex =? q) && (cube_r hex =? r)) (hexes g).

Definition directions : list Hex :=
  [mkHex 1 0; mkHex 1 (-1); mkHex 0 (-1); mkHex (-1) 0; mkHex (-1) 1; mkHex 0 1].

Definition getNeighbors (g : t) (q r : Z) : list Hex :=
  List.filter (λ hex, isValidHex g (hex_q hex) (hex_r hex))
    (map (λ dir, mkHex (q + hex_q dir) (r + hex_r dir)) directions).

(** The sum of the three absolute values is even on integers, so the
    division by two is exact. *)
Definition getDistance (q1 r1 q2 r2 : Z) : Z :=
  (Z.abs (q1 - q2) + Z.abs (q1 + r1 - q2 - r2) + Z.abs (r1 - r2)) / 2.

(** [getHexesInRange]: the two nested [for] loops over [dq] and [dr]. *)
Definition getHexesInRange (g : t) (q r range : Z) : list Hex :=
  dq ← seqZ (- range) (range - (- range) + 1);
  let dr1 := Z.max (- range) (- dq - range) in
  let dr2 := Z.min range (- dq + range) in
  dr ← seqZ dr1 (dr2 - dr1 + 1);
  let hexQ := q + dq in
  let hexR := r + dr in
  if isValidHex g hexQ hexR then [mkHex hexQ hexR] else [].

(** *** Rounding *)

(** [roundHex]: [s] is the exact rational [- q - r]; the code computes it in
    double precision, so that its [s] can differ from this one in the last
    place.  The rounding rule is proved of [roundCube], for every triple:
    it does not depend on how [s] was obtained. *)
Definition roundHex (q r : Q) : Hex :=
  let s := (- q - r)%Q in
  let rq := JS.Math_round q in
  let rr := JS.Math_round r in
  let rs := JS.Math_round s in
  let qDiff := JS.Math_abs (inject_Z rq - q) in
  let rDiff := JS.Math_abs (inject_Z rr - r) in
  let sDiff := JS.Math_abs (inject_Z rs - s) in
  if JS.gtb qDiff rDiff && JS.gtb qDiff sDiff then
    mkHex (- rr - rs) rr
  else if JS.gtb rDiff sDiff then
    mkHex rq (- rq - rs)
  else
    mkHex rq rr.

Definition roundCube (q r s : Q) : Hex :=
  let rq := JS.Math_round q in
  let rr := JS.Math_round r in
  let rs := JS.Math_round s in
  let qDiff := JS.Math_abs (inject_Z rq - q) in
  let rDiff := JS.Math_abs (inject_Z rr - r) in
  let sDiff := JS.Math_abs (inject_Z rs - s) in
  if JS.gtb qDiff rDiff && JS.gtb qDiff sDiff then
    mkHex (- rr - rs) rr
  else if JS.gtb rDiff sDiff then
    mkHex rq (- rq - rs)
  else
    mkHex rq rr.

(** [pixelToHex]; [sqrt3] stands for the number [Math.sqrt(3)]. *)
Definition pixelToHex (sqrt3 hexSize centerX centerY : Q) (px py : Q) : Hex :=
  let x := (px - centerX)%Q in
  let y := (py - centerY)%Q in
  let q := ((sqrt3 / 3 * x - 1 / 3 * y) / hexSize)%Q in
  let r := ((2 / 3 * y) / hexSize)%Q in
  roundHex q r.

(** *** Line of sight *)

Definition getHexLine (q1 r1 q2 r2 : Z) : list Hex :=
  let N := getDistance q1 r1 q2 r2 in
  if N =? 0 then [mkHex q1 r1]
  else
    let s1 := - q1 - r1 in
    let s2 := - q2 - r2 in
    (λ i : Z,
       let t := (inject_Z i / inject_Z N)%Q in
       let q := (inject_Z q1 + inject_Z (q2 - q1) * t)%Q in
       let r := (inject_Z r1 + inject_Z (r2 - r1) * t)%Q in
       let s := (inject_Z s1 + inject_Z (s2 - s1) * t)%Q in
       roundCube q r s) <$> seqZ 0 (N + 1).

Definition same_hex (a b : Hex) : bool :=
  (hex_q a =? hex_q b) && (hex_r a =? hex_r b).

(** The loop [for (let i = 1; i < lineHexes.length - 1; i++)] returns
    [false] at the first blocked sample and [true] when there is none. *)
Definition hasLineOfSight (q1 r1 q2 r2 : Z) (blockers : list Hex) : bool :=
  if (q1 =? q2) && (r1 =? r2) then true
  else
    let lineHexes := getHexLine q1 r1 q2 r2 in
    forallb
      (λ i, match lineHexes !! i with
            | Some hex => negb (existsb (λ b, same_hex b hex) blockers)
            | None => true
            end)
      (seq 1 (length lineHexes - 2)).

(** *** A-star *)

Record Node := mkNode { node_q : Z; node_r : Z; node_f : JS.num }.

(** [hexKey] builds the string [q,r], which determines both integers; the
    pair stands for it. *)
Definition hexKey (q r : Z) : Z * Z := (q, r).

Record Search := mkSearch {
  openSet : list Node;
  closedSet : gset (Z * Z);
  cameFrom : gmap (Z * Z) Hex;
  gScore : gmap (Z * Z) JS.num;
  fScore : gmap (Z * Z) JS.num
}.

(** Only the coordinates of an obstacle are read, so the obstacles are given
    by their coordinates. *)
Definition isBlocked (obstacles : list Hex) (q r : Z) : bool :=
  existsb (λ obs, (hex_q obs =? q) && (hex_r obs =? r)) obstacles.

(** The body of [for (const neighbor of neighbors)]. *)
Definition visit (endQ endR : Z) (obstacles : list Hex) (current : Node)
    (st : Search) (neighbor : Hex) : Search :=
  let currentKey := hexKey (node_q current) (node_r current) in
  let neighborKey := hexKey (hex_q neighbor) (hex_r neighbor) in
  if decide (neighborKey ∈ closedSet st) then st
  else if isBlocked obstacles (hex_q neighbor) (hex_r neighbor) then st
  else
    let tentativeG := JS.add (JS.or_Infinity (gScore st !! currentKey)) (JS.Fin 1) in
    let existingG := gScore st !! neighborKey in
    if match existingG with
       | None => true
       | Some g => JS.ltb tentativeG g
       end
    then
      let h := getDistance (hex_q neighbor) (hex_r neighbor) endQ endR in
      let f := JS.add tentativeG (JS.Fin h) in
      let inOpen :=
        existsb (λ n, (node_q n =? hex_q neighbor) && (node_r n =? hex_r neighbor))
          (openSet st) in
      mkSearch
        (if inOpen then openSet st
         else openSet st ++ [mkNode (hex_q neighbor) (hex_r neighbor) f])
        (closedSet st)
        (<[neighborKey := mkHex (node_q current) (node_r current)]> (cameFrom st))
        (<[neighborKey := tentativeG]> (gScore st))
        (<[neighborKey := f]> (fScore st))
    else st.

(** Path reconstruction: [while (curr) { path.unshift(curr); curr = ... }]. *)
Fixpoint reconstruct (fuel : nat) (cameFrom : gmap (Z * Z) Hex)
    (curr : option Hex) (path : list Hex) : option (list Hex) :=
  match curr with
  | None => Some path
  | Some c =>
      match fuel with
      | O => None
      | S fuel' =>
          reconstruct fuel' cameFrom
            (cameFrom !! hexKey (hex_q c) (hex_r c)) (c :: path)
      end
  end.

Definition sortOpen (l : list Node) : list Node :=
  JS.sort (λ a b, JS.sub (node_f a) (node_f b)) l.

(** The state after [closedSet.add(currentKey)] and the neighbor loop. *)
Definition expand (g : t) (endQ endR : Z) (obstacles : list Hex)
    (current : Node) (rest : list Node) (st : Search) : Search :=
  let currentKey := hexKey (node_q current) (node_r current) in
  fold_left (visit endQ endR obstacles current)
    (getNeighbors g (node_q current) (node_r current))
    (mkSearch rest ({[currentKey]} ∪ closedSet st) (cameFrom st) (gScore st) (fScore st)).

(** [while (openSet.length > 0)].  The result is [None] when the fuel is
    gone, [Some None] for [null], and [Some (Some path)] for a path;
    [fuel0] bounds the reconstruction loop. *)
Fixpoint search (fuel0 fuel : nat) (g : t) (endQ endR : Z) (obstacles : list Hex)
    (st : Search) : option (option (list Hex)) :=
  match fuel with
  | O => None
  | S fuel' =>
      match sortOpen (openSet st) with
      | [] => Some None
      | current :: rest =>
          if (node_q current =? endQ) && (node_r current =? endR) then
            path ← reconstruct fuel0 (cameFrom st) (Some (mkHex endQ endR)) [];
            Some (Some (tail path))
          else
            search fuel0 fuel' g endQ endR obstacles
              (expand g endQ endR obstacles current rest st)
      end
  end.

Definition findPath (fuel : nat) (g : t) (startQ startR endQ endR : Z)
    (obstacles : list Hex) : option (option (list Hex)) :=
  let startH := getDistance startQ startR endQ endR in
  search fuel fuel g endQ endR obstacles
    (mkSearch [mkNode startQ startR (JS.Fin startH)] ∅ ∅
       {[hexKey startQ startR := JS.Fin 0]}
       {[hexKey startQ startR := JS.Fin startH]}).

End HexGrid.

(** ** Enemy.js *)

Module Enemy.
Import HexGrid.

Inductive AiType := melee | ranged.
Inductive ObstacleType := wall | trap | enemy | player.

#[global] Instance ObstacleType_eq_dec : EqDecision ObstacleType.
Proof. solve_decision. Defined.

Record Obstacle := mkObstacle { obs_q : Z; obs_r : Z; obs_type : ObstacleType }.

(** The fields of an enemy that its logic reads or writes. *)
Record t := mk {
  pos : Hex;
  hp : Z;
  maxHP : Z;
  damage : Z;
  range : Z;
  ap : Z;
  maxAP : Z;
  maxAttacksPerTurn : Z;
  attacksThisTurn : Z;
  aiType : AiType;
  preferredDistance : Z;
  isAlive : bool;
  isMoving : bool
}.

(** EnemyTypes: the configuration table and [getEnemyData]. *)
Inductive TypeKey := scrapper | brawler | turret | sniper.

Record Data := mkData {
  data_hp : Z;
  data_damage : Z;
  data_range : Z;
  data_ap : Z;
  data_maxAttacksPerTurn : Z;
  data_aiType : AiType;
  data_preferredDistance : Z
}.

Definition getEnemyData (typeKey : TypeKey) : Data :=
  match typeKey with
  | scrapper => mkData 7 2 1 3 2 melee 1
  | brawler => mkData 6 2 1 3 2 melee 1
  | turret => mkData 5 1 3 3 2 ranged 3
  | sniper => mkData 5 1 3 3 2 ranged 3
  end.

(** The constructor. *)
Definition new (typeKey : TypeKey) (q r : Z) : t :=
  let data := getEnemyData typeKey in
  mk (mkHex q r) (data_hp data) (data_hp data) (data_damage data) (data_range data)
     (data_ap data) (data_ap data) (data_maxAttacksPerTurn data) 0
     (data_aiType data) (data_preferredDistance data) true false.

(** The scene as the acting enemy sees it.  [scene.enemies] holds the
    acting enemy and the others; every use of it in Enemy.js skips the
    entry that is [=== this], so [enemies] lists the other ones, in
    order. *)
Record Scene := mkScene {
  hexGrid : HexGrid.t;
  playerPos : Hex;
  playerHP : Z;
  battleOver : bool;
  obstacles : list Obstacle;
  enemies : list t
}.

(** The scene after [init] and the creation of the grid in [create]:
    radius 5, the player at the origin with 20 hit points, no obstacle and
    no enemy yet. *)
Definition initScene : Scene := mkScene (HexGrid.new 5) (mkHex 0 0) 20 false [] [].

(** What the turn did, in order: a ghost record of the calls of [moveTo]
    and of the attacks that went through. *)
Inductive Action := MoveTo (q r : Z) | Attack (amount : Z).

Record World := mkWorld { this : t; scene : Scene; trace : list Action }.

(** *** Scene operations called by the enemy *)

Definition endBattle (sc : Scene) : Scene :=
  if battleOver sc then sc
  else mkScene (hexGrid sc) (playerPos sc) (playerHP sc) true (obstacles sc) (enemies sc).

Definition damagePlayer (amount : Z) (sc : Scene) : Scene :=
  let sc' := mkScene (hexGrid sc) (playerPos sc) (Z.max 0 (playerHP sc - amount))
               (battleOver sc) (obstacles sc) (enemies sc) in
  if playerHP sc' <=? 0 then endBattle sc' else sc'.

(** The obstacle list the scene assembles for the player's own path to
    [hex]. *)
Definition playerPathObstacles (obstacles : list Obstacle) (enemies : list t)
    (hex : Hex) : list Obstacle :=
  List.filter
    (λ o, match obs_type o with
          | wall => true
          | trap => negb ((obs_q o =? hex_q hex) && (obs_r o =? hex_r hex))
          | _ => false
          end) obstacles
  ++ map (λ e, mkObstacle (hex_q (pos e)) (hex_r (pos e)) enemy)
       (List.filter isAlive enemies).

(** *** Health *)

Definition die (e : t) : t :=
  mk (pos e) (hp e) (maxHP e) (damage e) (range e) (ap e) (maxAP e)
     (maxAttacksPerTurn e) (attacksThisTurn e) (aiType e) (preferredDistance e)
     false (isMoving e).

Definition takeDamage (amount : Z) (e : t) : t :=
  let e' :=
    mk (pos e) (Z.max 0 (hp e - amount)) (maxHP e) (damage e) (range e) (ap e)
       (maxAP e) (maxAttacksPerTurn e) (attacksThisTurn e) (aiType e)
       (preferredDistance e) (isAlive e) (isMoving e) in
  if hp e' <=? 0 then die e' else e'.

Definition resetTurn (e : t) : t :=
  mk (pos e) (hp e) (maxHP e) (damage e) (range e) (maxAP e) (maxAP e)
     (maxAttacksPerTurn e) 0 (aiType e) (preferredDistance e)
     (isAlive e) (isMoving e).

Definition canAttack (e : t) : bool :=
  (attacksThisTurn e <? maxAttacksPerTurn e) && (1 <=? ap e).

(** *** Actions *)

(** [moveTo]: when the tween completes, the position is set, one action
    point is spent and [isMoving] is false again. *)
Definition moveTo (q r : Z) (w : World) : World :=
  let e := this w in
  mkWorld
    (mk (mkHex q r) (hp e) (maxHP e) (damage e) (range e) (ap e - 1) (maxAP e)
        (maxAttacksPerTurn e) (attacksThisTurn e) (aiType e)
        (preferredDistance e) (isAlive e) false)
    (scene w)
    (trace w ++ [MoveTo q r]).

Definition attackPlayer (w : World) : World :=
  let e := this w in
  if negb (canAttack e) then w
  else
    mkWorld
      (mk (pos e) (hp e) (maxHP e) (damage e) (range e) (ap e - 1) (maxAP e)
          (maxAttacksPerTurn e) (attacksThisTurn e + 1) (aiType e)
          (preferredDistance e) (isAlive e) (isMoving e))
      (damagePlayer (damage e) (scene w))
      (trace w ++ [Attack (damage e)]).

(** *** Queries *)

Definition getDistanceToPlayer (w : World) : Z :=
  getDistance (hex_q (pos (this w))) (hex_r (pos (this w)))
    (hex_q (playerPos (scene w))) (hex_r (playerPos (scene w))).

Definition obstacle_hex (o : Obstacle) : Hex := mkHex (obs_q o) (obs_r o).

Definition hasLineOfSightToPlayer (w : World) : bool :=
  let walls :=
    map obstacle_hex
      (List.filter (λ o, bool_decide (obs_type o = wall)) (obstacles (scene w))) in
  hasLineOfSight (hex_q (pos (this w))) (hex_r (pos (this w)))
    (hex_q (playerPos (scene w))) (hex_r (playerPos (scene w))) walls.

Definition canReachPlayerWithAttack (w : World) : bool :=
  if range (this w) <? getDistanceToPlayer w then false
  else
    match aiType (this w) with
    | ranged => hasLineOfSightToPlayer w
    | melee => true
    end.

Definition getObstacles (w : World) : list Obstacle :=
  obstacles (scene w)
  ++ map (λ e, mkObstacle (hex_q (pos e)) (hex_r (pos e)) enemy)
       (List.filter isAlive (enemies (scene w)))
  ++ [mkObstacle (hex_q (playerPos (scene w))) (hex_r (playerPos (scene w))) player].

(** *** Movement *)

(** [pf] is the fuel handed to [findPath]. *)
Definition moveTowardPlayer (pf : nat) (w : World) : option (bool * World) :=
  let obstacles := getObstacles w in
  let pathObstacles :=
    List.filter (λ o, negb (bool_decide (obs_type o = player))) obstacles in
  path ← findPath pf (hexGrid (scene w))
            (hex_q (pos (this w))) (hex_r (pos (this w)))
            (hex_q (playerPos (scene w))) (hex_r (playerPos (scene w)))
            (map obstacle_hex pathObstacles);
  match path with
  | Some (nextHex :: _ :: _) =>
      let occupied :=
        existsb (λ e, isAlive e && (hex_q (pos e) =? hex_q nextHex)
                        && (hex_r (pos e) =? hex_r nextHex))
          (enemies (scene w)) in
      if negb occupied then Some (true, moveTo (hex_q nextHex) (hex_r nextHex) w)
      else Some (false, w)
  | _ => Some (false, w)
  end.

Definition validNeighbors (w : World) : list Hex :=
  let neighbors :=
    getNeighbors (hexGrid (scene w)) (hex_q (pos (this w))) (hex_r (pos (this w))) in
  let obstacles := getObstacles w in
  List.filter
    (λ n, if negb (isValidHex (hexGrid (scene w)) (hex_q n) (hex_r n)) then false
          else if existsb (λ o, (obs_q o =? hex_q n) && (obs_r o =? hex_r n)) obstacles
               then false
               else true)
    neighbors.

(** One round of [for (const neighbor of validNeighbors)] on the pair
    [(bestNeighbor, bestDist)]. *)
Definition better (playerPos : Hex) (best : option Hex * Z) (neighbor : Hex)
    : option Hex * Z :=
  let dist := getDistance (hex_q neighbor) (hex_r neighbor)
                (hex_q playerPos) (hex_r playerPos) in
  if snd best <? dist then (Some neighbor, dist) else best.

Definition moveAwayFromPlayer (w : World) : bool * World :=
  match validNeighbors w with
  | [] => (false, w)
  | vn =>
      match fst (fold_left (better (playerPos (scene w))) vn
                   (None, getDistanceToPlayer w)) with
      | Some bestNeighbor =>
          (true, moveTo (hex_q bestNeighbor) (hex_r bestNeighbor) w)
      | None => (false, w)
      end
  end.

(** *** Turns *)

Fixpoint executeMeleeTurn (pf fuel : nat) (w : World) : option World :=
  if (0 <? ap (this w)) && isAlive (this w) && negb (battleOver (scene w)) then
    match fuel with
    | O => None
    | S fuel' =>
        let distToPlayer := getDistanceToPlayer w in
        if (distToPlayer =? 1) && canAttack (this w) then
          executeMeleeTurn pf fuel' (attackPlayer w)
        else if 1 <=? ap (this w) then
          '(moved, w') ← moveTowardPlayer pf w;
          if negb moved then Some w' else executeMeleeTurn pf fuel' w'
        else Some w
    end
  else Some w.

(** Phase 1 of the ranged turn, on the locals [dist] and [hasLOS]. *)
Fixpoint approach (pf fuel : nat) (w : World) (dist : Z) (hasLOS : bool)
    : option (World * Z * bool) :=
  if ((range (this w) <? dist) || negb hasLOS) && (1 <=? ap (this w))
     && isAlive (this w) && negb (battleOver (scene w)) then
    match fuel with
    | O => None
    | S fuel' =>
        '(moved, w') ← moveTowardPlayer pf w;
        if negb moved then Some (w', dist, hasLOS)
        else approach pf fuel' w' (getDistanceToPlayer w') (hasLineOfSightToPlayer w')
    end
  else Some (w, dist, hasLOS).

(** Phase 2: a single [if], so at most one attack. *)
Definition attackPhase (w : World) (dist : Z) (hasLOS : bool) : World * Z :=
  if canAttack (this w) && (dist <=? range (this w)) && hasLOS
     && isAlive (this w) && negb (battleOver (scene w)) then
    let w' := attackPlayer w in (w', getDistanceToPlayer w')
  else (w, dist).

(** Phase 3. *)
Fixpoint retreat (fuel : nat) (w : World) (dist : Z) : option World :=
  if (dist <? preferredDistance (this w)) && (1 <=? ap (this w))
     && isAlive (this w) && negb (battleOver (scene w)) then
    match fuel with
    | O => None
    | S fuel' =>
        let '(moved, w') := moveAwayFromPlayer w in
        if negb moved then Some w'
        else retreat fuel' w' (getDistanceToPlayer w')
    end
  else Some w.

Definition executeRangedTurn (pf fuel : nat) (w : World) : option World :=
  let dist := getDistanceToPlayer w in
  let hasLOS := hasLineOfSightToPlayer w in
  '(w1, dist1, hasLOS1) ← approach pf fuel w dist hasLOS;
  let '(w2, dist2) := attackPhase w1 dist1 hasLOS1 in
  retreat fuel w2 dist2.

Definition executeTurn (pf fuel : nat) (w : World) : option World :=
  if negb (isAlive (this w)) then Some w
  else
    match aiType (this w) with
    | melee => executeMeleeTurn pf fuel w
    | ranged => executeRangedTurn pf fuel w
    end.

End Enemy.

(** ** BattleScene: turn management and the player's actions *)

Module BattleScene.
Import HexGrid.

(** The scene between two actions.  No enemy is acting, so the field
    [Enemy.enemies] of [scene] lists all the enemies, in the order of
    [this.enemies].  An action runs to its end before the next one starts,
    so [isMoving] and [currentPhase], which only keep clicks away while an
    action runs, are left out.  [None] stands for an exception thrown. *)
Record t := mk {
  scene : Enemy.Scene;
  actionPoints : Z;
  maxActionPoints : Z;
  playerDamage : Z;
  playerAttackCost : Z
}.

(** The state after [init] and [create], before obstacles and enemies. *)
Definition init : t := mk Enemy.initScene 3 3 2 1.

Definition setEnemies (sc : Enemy.Scene) (l : list Enemy.t) : Enemy.Scene :=
  Enemy.mkScene (Enemy.hexGrid sc) (Enemy.playerPos sc) (Enemy.playerHP sc)
    (Enemy.battleOver sc) (Enemy.obstacles sc) l.

Definition setPlayerPos (sc : Enemy.Scene) (p : Hex) : Enemy.Scene :=
  Enemy.mkScene (Enemy.hexGrid sc) p (Enemy.playerHP sc)
    (Enemy.battleOver sc) (Enemy.obstacles sc) (Enemy.enemies sc).

(** [updateAPDisplay]: [String.prototype.repeat] throws a [RangeError] on
    a negative count. *)
Definition updateAPDisplay (b : t) : option t :=
  if (0 <=? actionPoints b) && (0 <=? maxActionPoints b - actionPoints b)
  then Some b else None.

Definition startPlayerPhase (b : t) : option t :=
  updateAPDisplay
    (mk (scene b) (maxActionPoints b) (maxActionPoints b) (playerDamage b)
        (playerAttackCost b)).

Definition checkWinCondition (sc : Enemy.Scene) : Enemy.Scene :=
  if forallb (λ e, negb (Enemy.isAlive e)) (Enemy.enemies sc)
  then Enemy.endBattle sc else sc.

(** The loop [for (const enemy of this.enemies)] of [startEnemyPhase]:
    [before] holds the enemies already passed, [todo] the ones to come, and
    [sc] the rest of the scene. *)
Fixpoint enemyTurns (pf fuel : nat) (before todo : list Enemy.t) (sc : Enemy.Scene)
    : option Enemy.Scene :=
  match todo with
  | [] => Some (setEnemies sc before)
  | e :: rest =>
      if negb (Enemy.isAlive e) || Enemy.battleOver sc then
        enemyTurns pf fuel (before ++ [e]) rest sc
      else
        w' ← Enemy.executeTurn pf fuel
                (Enemy.mkWorld (Enemy.resetTurn e) (setEnemies sc (before ++ rest)) []);
        enemyTurns pf fuel (before ++ [Enemy.this w']) rest (Enemy.scene w')
  end.

Definition startEnemyPhase (pf fuel : nat) (b : t) : option t :=
  sc ← enemyTurns pf fuel [] (Enemy.enemies (scene b)) (scene b);
  let sc1 := if negb (Enemy.battleOver sc) then checkWinCondition sc else sc in
  let b1 := mk sc1 (actionPoints b) (maxActionPoints b) (playerDamage b)
              (playerAttackCost b) in
  if negb (Enemy.battleOver sc1) then startPlayerPhase b1 else Some b1.

(** [attackEnemy(enemy)], for the enemy at index [i] of [this.enemies]. *)
Definition attackEnemy (i : nat) (b : t) : option t :=
  match Enemy.enemies (scene b) !! i with
  | None => Some b
  | Some enemy =>
      let distance :=
        getDistance (hex_q (Enemy.playerPos (scene b))) (hex_r (Enemy.playerPos (scene b)))
          (hex_q (Enemy.pos enemy)) (hex_r (Enemy.pos enemy)) in
      if 1 <? distance then Some b
      else if actionPoints b <? playerAttackCost b then Some b
      else
        b1 ← updateAPDisplay
                (mk (scene b) (actionPoints b - playerAttackCost b) (maxActionPoints b)
                    (playerDamage b) (playerAttackCost b));
        let enemies' :=
          <[i := Enemy.takeDamage (playerDamage b1) enemy]> (Enemy.enemies (scene b1)) in
        Some (mk (checkWinCondition (setEnemies (scene b1) enemies'))
                (actionPoints b1) (maxActionPoints b1) (playerDamage b1)
                (playerAttackCost b1))
  end.

(** One round of [moveToNextHex]: the step onto [nextHex]. *)
Definition stepOnto (b : t) (nextHex : Hex) : option t :=
  b1 ← updateAPDisplay
          (mk (setPlayerPos (scene b) nextHex) (actionPoints b - 1) (maxActionPoints b)
              (playerDamage b) (playerAttackCost b));
  let obstacle :=
    List.find (λ o, (Enemy.obs_q o =? hex_q nextHex) && (Enemy.obs_r o =? hex_r nextHex))
      (Enemy.obstacles (scene b1)) in
  match obstacle with
  | Some o =>
      if bool_decide (Enemy.obs_type o = Enemy.trap) then
        Some (mk (Enemy.damagePlayer 1 (scene b1)) (actionPoints b1) (maxActionPoints b1)
                (playerDamage b1) (playerAttackCost b1))
      else Some b1
  | None => Some b1
  end.

(** [moveAlongPath], with [path] for [this.currentPath]. *)
Fixpoint moveAlongPath (path : list Hex) (b : t) : option t :=
  match path with
  | [] => Some b
  | nextHex :: rest => b1 ← stepOnto b nextHex; moveAlongPath rest b1
  end.

(** [onPointerDown], after the pointer was decoded to [hex], with [path]
    for [this.currentPath]. *)
Definition onPointerDown (hex : Hex) (path : option (list Hex)) (b : t) : option t :=
  if Enemy.battleOver (scene b) then Some b
  else if negb (isValidHex (Enemy.hexGrid (scene b)) (hex_q hex) (hex_r hex)) then Some b
  else
    let obstacle :=
      List.find (λ o, (Enemy.obs_q o =? hex_q hex) && (Enemy.obs_r o =? hex_r hex))
        (Enemy.obstacles (scene b)) in
    if match obstacle with
       | Some o => bool_decide (Enemy.obs_type o = Enemy.wall)
       | None => false
       end
    then Some b
    else
      match list_find
              (λ e, Enemy.isAlive e = true ∧ hex_q (Enemy.pos e) = hex_q hex ∧
                    hex_r (Enemy.pos e) = hex_r hex)
              (Enemy.enemies (scene b)) with
      | Some (i, _) => attackEnemy i b
      | None =>
          match path with
          | None | Some [] => Some b
          | Some p =>
              if actionPoints b <? Z.of_nat (length p) then Some b
              else moveAlongPath p b
          end
      end.

End BattleScene.

Import HexGrid.

(** * Specification vocabulary *)

(** [(q2, r2)] is [(q1, r1)] moved by one of the six directions. *)
Definition adjacent (q1 r1 q2 r2 : Z) : Prop :=
  (q2 = q1 + 1 ∧ r2 = r1) ∨ (q2 = q1 + 1 ∧ r2 = r1 - 1) ∨ (q2 = q1 ∧ r2 = r1 - 1) ∨
  (q2 = q1 - 1 ∧ r2 = r1) ∨ (q2 = q1 - 1 ∧ r2 = r1 + 1) ∨ (q2 = q1 ∧ r2 = r1 + 1).

(** The hexagon of radius [R]: all three cube coordinates within [R]. *)
Definition inGrid (R q r : Z) : Prop :=
  - R ≤ q ≤ R ∧ - R ≤ r ≤ R ∧ - R ≤ q + r ≤ R.

(** [qDiff], [rDiff] and [sDiff] of the rounding routines. *)
Definition roundingError (x : Q) : Q := JS.Math_abs (inject_Z (JS.Math_round x) - x).

(** [h] is the rounding of the fractional cube [(q, r, s)] in which the
    coordinate with the largest rounding error was recomputed. *)
Definition correctsLargest (q r s : Q) (h : Hex) : Prop :=
  let s' := - hex_q h - hex_r h in
  hex_q h + hex_r h + s' = 0 ∧
  ((hex_r h = JS.Math_round r ∧ s' = JS.Math_round s ∧
    (roundingError r <= roundingError q)%Q ∧ (roundingError s <= roundingError q)%Q) ∨
   (hex_q h = JS.Math_round q ∧ s' = JS.Math_round s ∧
    (roundingError q <= roundingError r)%Q ∧ (roundingError s <= roundingError r)%Q) ∨
   (hex_q h = JS.Math_round q ∧ hex_r h = JS.Math_round r ∧
    (roundingError q <= roundingError s)%Q ∧ (roundingError r <= roundingError s)%Q)).

(** ** The search loop of [findPath] *)

Definition nodeKey (n : Node) : Z * Z := hexKey (node_q n) (node_r n).
Definition keys (l : list Node) : list (Z * Z) := nodeKey <$> l.
Definition cubeKey (c : Cube) : Z * Z := hexKey (cube_q c) (cube_r c).

(** Every coordinate the search can ever put in a set: the grid and the start. *)
Definition universe (g : HexGrid.t) (start : Z * Z) : gset (Z * Z) :=
  list_to_set (cubeKey <$> hexes g) ∪ {[start]}.

Definition unexplored (g : HexGrid.t) (start : Z * Z) (st : Search) : nat :=
  size (universe g start ∖ closedSet st).

Record frame (g : HexGrid.t) (start : Z * Z) (st : Search) : Prop := mkFrame {
  frame_nodup : NoDup (keys (openSet st));
  frame_open :
    ∀ k, k ∈ keys (openSet st) → (k ∉ closedSet st) ∧ (k ∈ universe g start);
  frame_closed : closedSet st ⊆ universe g start
}.

(** Hex distance from the start. *)
Definition depth (startQ startR : Z) (k : Z * Z) : Z :=
  getDistance startQ startR k.1 k.2.

Definition hexKeyOf (h : Hex) : Z * Z := hexKey (hex_q h) (hex_r h).

(** What holds of the search state all along when there are no obstacles and
    the start is on the grid of radius [R]; [m] is the depth of the
    coordinates at the front of the queue. *)
Record bfs_core (R startQ startR endQ endR m : Z) (st : Search) : Prop := mkBfsCore {
  bfs_scores : ∀ k v, gScore st !! k = Some v → v = JS.Fin 0 ∨ v = JS.PInf;
  bfs_dom : ∀ k, k ∈ dom (gScore st) ↔ k ∈ closedSet st ∨ k ∈ keys (openSet st);
  bfs_valid : ∀ k, k ∈ dom (gScore st) → inGrid R k.1 k.2;
  bfs_start :
    hexKey startQ startR ∈ dom (gScore st) ∧ cameFrom st !! hexKey startQ startR = None;
  bfs_from : ∀ k p, cameFrom st !! k = Some p →
    k ∈ dom (gScore st) ∧ hexKeyOf p ∈ dom (gScore st) ∧
    adjacent (hex_q p) (hex_r p) k.1 k.2 ∧
    depth startQ startR (hexKeyOf p) + 1 = depth startQ startR k;
  bfs_from_some :
    ∀ k, k ∈ dom (gScore st) → k ≠ hexKey startQ startR → is_Some (cameFrom st !! k);
  bfs_levels : ∃ l1 l2, keys (openSet st) = l1 ++ l2 ∧
    Forall (λ k, depth startQ startR k = m) l1 ∧
    Forall (λ k, depth startQ startR k = m + 1) l2;
  bfs_complete :
    ∀ q r, inGrid R q r → depth startQ startR (q, r) ≤ m → (q, r) ∈ dom (gScore st);
  bfs_goal : hexKey endQ endR ∉ closedSet st
}.

(** All valid neighbors of the closed coordinates, [skip] apart, were seen. *)
Definition closed_seen (R : Z) (skip : Z * Z → Prop) (st : Search) : Prop :=
  ∀ c, c ∈ closedSet st → ¬ skip c →
  ∀ q r, inGrid R q r → adjacent c.1 c.2 q r → (q, r) ∈ dom (gScore st).

(** The queue is already in the order [sort] gives it. *)
Definition open_sorted (startQ startR : Z) (st : Search) : Prop :=
  (∃ z, openSet st = [mkNode startQ startR (JS.Fin z)]) ∨
  Forall (λ n, node_f n = JS.PInf) (openSet st).

(** The invariant at the head of the [while] loop. *)
Definition bfs (R startQ startR endQ endR : Z) (st : Search) : Prop :=
  ∃ m, bfs_core R startQ startR endQ endR m st ∧ open_sorted startQ startR st ∧
       closed_seen R (λ _, False) st ∧
       ∀ c rest, openSet st = c :: rest → depth startQ startR (nodeKey c) = m.

(** The invariant of the loop over the neighbors of the coordinate [ck]. *)
Definition visiting (R startQ startR endQ endR : Z) (ck : Z * Z) (m : Z) (st : Search)
    : Prop :=
  bfs_core R startQ startR endQ endR m st ∧
  Forall (λ n, node_f n = JS.PInf) (openSet st) ∧
  closed_seen R (λ c, c = ck) st ∧ ck ∈ closedSet st ∧ depth startQ startR ck = m.

(** [path] leads from [a] through neighboring grid coordinates. *)
Fixpoint walk (g : HexGrid.t) (a : Hex) (path : list Hex) : Prop :=
  match path with
  | [] => True
  | b :: rest => b ∈ getNeighbors g (hex_q a) (hex_r a) ∧ walk g b rest
  end.

(** ** Enemies *)

(** A sequence of calls of [takeDamage], in order. *)
Definition takeDamages (amounts : list Z) (e : Enemy.t) : Enemy.t :=
  foldl (λ e amount, Enemy.takeDamage amount e) e amounts.

(** The same world with [l] for the other enemies of the scene. *)
Definition withEnemies (w : Enemy.World) (l : list Enemy.t) : Enemy.World :=
  Enemy.mkWorld (Enemy.this w)
    (Enemy.mkScene (Enemy.hexGrid (Enemy.scene w)) (Enemy.playerPos (Enemy.scene w))
       (Enemy.playerHP (Enemy.scene w)) (Enemy.battleOver (Enemy.scene w))
       (Enemy.obstacles (Enemy.scene w)) l)
    (Enemy.trace w).

(** The distance from the coordinate [n] to [p], and to the player. *)
Definition distTo (p n : Hex) : Z :=
  getDistance (hex_q n) (hex_r n) (hex_q p) (hex_r p).

Definition distToPlayer (w : Enemy.World) (n : Hex) : Z :=
  distTo (Enemy.playerPos (Enemy.scene w)) n.

(** No obstacle of [getObstacles] stands on [n]. *)
Definition unobstructed (w : Enemy.World) (n : Hex) : Prop :=
  ∀ o, o ∈ Enemy.getObstacles w → ¬ (Enemy.obs_q o = hex_q n ∧ Enemy.obs_r o = hex_r n).



(** ** Path finding around obstacles *)

(** [path] leads from [a] through neighboring grid coordinates that no
    obstacle blocks. *)
Fixpoint clearWalk (g : HexGrid.t) (obstacles : list Hex) (a : Hex) (path : list Hex)
    : Prop :=
  match path with
  | [] => True
  | b :: rest =>
      b ∈ getNeighbors g (hex_q a) (hex_r a) ∧
      isBlocked obstacles (hex_q b) (hex_r b) = false ∧
      clearWalk g obstacles b rest
  end.

(** What holds of the search state all along, whatever the obstacles;
    [depth] counts the steps back to the start along [cameFrom], and [m] is
    the depth of the coordinates at the front of the queue. *)
Record astar_core (g : HexGrid.t) (obstacles : list Hex) (startQ startR endQ endR : Z)
    (depth : Z * Z → nat) (m : nat) (st : Search) : Prop := mkAstarCore {
  as_scores : ∀ k v, gScore st !! k = Some v → v = JS.Fin 0 ∨ v = JS.PInf;
  as_dom : ∀ k, k ∈ dom (gScore st) ↔ k ∈ closedSet st ∨ k ∈ keys (openSet st);
  as_start :
    hexKey startQ startR ∈ dom (gScore st) ∧
    cameFrom st !! hexKey startQ startR = None ∧ depth (hexKey startQ startR) = O;
  as_from : ∀ k p, cameFrom st !! k = Some p →
    k ∈ dom (gScore st) ∧ hexKeyOf p ∈ closedSet st ∧
    mkHex k.1 k.2 ∈ getNeighbors g (hex_q p) (hex_r p) ∧
    isBlocked obstacles k.1 k.2 = false ∧
    depth k = S (depth (hexKeyOf p));
  as_from_some :
    ∀ k, k ∈ dom (gScore st) → k ≠ hexKey startQ startR → is_Some (cameFrom st !! k);
  as_bound : ∀ k, k ∈ dom (gScore st) → (depth k < size (dom (gScore st)))%nat;
  as_levels : ∃ l1 l2, keys (openSet st) = l1 ++ l2 ∧
    Forall (λ k, depth k = m) l1 ∧ Forall (λ k, depth k = S m) l2;
  as_closed : ∀ c, c ∈ closedSet st → (depth c ≤ m)%nat;
  as_goal : hexKey endQ endR ∉ closedSet st
}.

(** The unblocked neighbors of the closed coordinates, [skip] apart, were
    seen, one step deeper at most. *)
Definition closed_clear (g : HexGrid.t) (obstacles : list Hex) (depth : Z * Z → nat)
    (skip : Z * Z → Prop) (st : Search) : Prop :=
  ∀ c, c ∈ closedSet st → ¬ skip c →
  ∀ n, n ∈ getNeighbors g c.1 c.2 → isBlocked obstacles (hex_q n) (hex_r n) = false →
       hexKeyOf n ∈ dom (gScore st) ∧ (depth (hexKeyOf n) ≤ S (depth c))%nat.

(** The invariant at the head of the [while] loop. *)
Definition astar (g : HexGrid.t) (obstacles : list Hex) (startQ startR endQ endR : Z)
    (st : Search) : Prop :=
  ∃ depth m,
    astar_core g obstacles startQ startR endQ endR depth m st ∧
    open_sorted startQ startR st ∧
    closed_clear g obstacles depth (λ _, False) st ∧
    ∀ c rest, openSet st = c :: rest → depth (nodeKey c) = m.

(** The invariant of the loop over the neighbors of [ck], [seen] being the
    neighbors already handled. *)
Definition astar_visiting (g : HexGrid.t) (obstacles : list Hex)
    (startQ startR endQ endR : Z) (ck : Z * Z) (seen : list Hex) (st : Search) : Prop :=
  ∃ depth m,
    astar_core g obstacles startQ startR endQ endR depth m st ∧
    Forall (λ n, node_f n = JS.PInf) (openSet st) ∧
    closed_clear g obstacles depth (λ c, c = ck) st ∧
    ck ∈ closedSet st ∧ depth ck = m ∧
    ∀ n, n ∈ seen → isBlocked obstacles (hex_q n) (hex_r n) = false →
         hexKeyOf n ∈ dom (gScore st) ∧ (depth (hexKeyOf n) ≤ S m)%nat.

(** ** Lines *)

(** The rounded interpolation of one coordinate, by integer division. *)
Definition rnd (N d i : Z) : Z := (2 * d * i + N) / (2 * N).

(** ** Actions of a turn *)

(** The obstacles that [moveTowardPlayer] hands to [findPath]. *)
Definition pathObstacles (w : Enemy.World) : list Hex :=
  map Enemy.obstacle_hex
    (List.filter (λ o, negb (bool_decide (Enemy.obs_type o = Enemy.player)))
       (Enemy.getObstacles w)).

(** Nothing stands on [n]: no obstacle of the scene, one of type [player]
    apart, no other enemy that is alive, and not the player. *)
Definition free (w : Enemy.World) (n : Hex) : Prop :=
  (∀ o, o ∈ Enemy.obstacles (Enemy.scene w) → Enemy.obs_type o ≠ Enemy.player →
        Enemy.obstacle_hex o ≠ n) ∧
  (∀ e, e ∈ Enemy.enemies (Enemy.scene w) → Enemy.isAlive e = true → Enemy.pos e ≠ n) ∧
  n ≠ Enemy.playerPos (Enemy.scene w).

(** The enemy is alive and the battle is not over. *)
Definition active (w : Enemy.World) : Prop :=
  Enemy.isAlive (Enemy.this w) = true ∧ Enemy.battleOver (Enemy.scene w) = false.

(** The player is where an attack of the enemy's kind reaches. *)
Definition inReach (w : Enemy.World) : Prop :=
  match Enemy.aiType (Enemy.this w) with
  | Enemy.melee => Enemy.getDistanceToPlayer w = 1
  | Enemy.ranged =>
      Enemy.getDistanceToPlayer w ≤ Enemy.range (Enemy.this w) ∧
      Enemy.hasLineOfSightToPlayer w = true
  end.

(** An attack that is permitted and reaches the player. *)
Definition attack_step (w w' : Enemy.World) : Prop :=
  active w ∧ Enemy.canAttack (Enemy.this w) = true ∧ inReach w ∧
  w' = Enemy.attackPlayer w.

(** A step to a free neighboring coordinate, paid with an action point. *)
Definition move_step (w w' : Enemy.World) : Prop :=
  active w ∧ 1 ≤ Enemy.ap (Enemy.this w) ∧
  ∃ n,
    n ∈ getNeighbors (Enemy.hexGrid (Enemy.scene w))
          (hex_q (Enemy.pos (Enemy.this w))) (hex_r (Enemy.pos (Enemy.this w))) ∧
    free w n ∧ w' = Enemy.moveTo (hex_q n) (hex_r n) w.

(** One action of a turn. *)
Definition action (w w' : Enemy.World) : Prop := attack_step w w' ∨ move_step w w'.

(** A step of the approach of a ranged enemy: the player is out of reach. *)
Definition toward_step (w w' : Enemy.World) : Prop :=
  move_step w w' ∧
  (Enemy.range (Enemy.this w) < Enemy.getDistanceToPlayer w ∨
   Enemy.hasLineOfSightToPlayer w = false).

(** A step of the retreat of a ranged enemy: the player is closer than
    preferred, and the step leads away. *)
Definition away_step (w w' : Enemy.World) : Prop :=
  move_step w w' ∧
  Enemy.getDistanceToPlayer w < Enemy.preferredDistance (Enemy.this w) ∧
  Enemy.getDistanceToPlayer w < Enemy.getDistanceToPlayer w'.

Definition isAttack (a : Enemy.Action) : bool :=
  match a with Enemy.Attack _ => true | Enemy.MoveTo _ _ => false end.

(** The number of attacks among the actions [acts]. *)
Definition attacksIn (acts : list Enemy.Action) : Z :=
  Z.of_nat (length (List.filter isAttack acts)).

(** What no action changes: the enemy's own statistics and the layout of
    the scene. *)
Definition same_setting (w w' : Enemy.World) : Prop :=
  Enemy.hp (Enemy.this w') = Enemy.hp (Enemy.this w) ∧
  Enemy.maxHP (Enemy.this w') = Enemy.maxHP (Enemy.this w) ∧
  Enemy.damage (Enemy.this w') = Enemy.damage (Enemy.this w) ∧
  Enemy.range (Enemy.this w') = Enemy.range (Enemy.this w) ∧
  Enemy.maxAP (Enemy.this w') = Enemy.maxAP (Enemy.this w) ∧
  Enemy.maxAttacksPerTurn (Enemy.this w') = Enemy.maxAttacksPerTurn (Enemy.this w) ∧
  Enemy.aiType (Enemy.this w') = Enemy.aiType (Enemy.this w) ∧
  Enemy.preferredDistance (Enemy.this w') = Enemy.preferredDistance (Enemy.this w) ∧
  Enemy.isAlive (Enemy.this w') = Enemy.isAlive (Enemy.this w) ∧
  Enemy.hexGrid (Enemy.scene w') = Enemy.hexGrid (Enemy.scene w) ∧
  Enemy.playerPos (Enemy.scene w') = Enemy.playerPos (Enemy.scene w) ∧
  Enemy.obstacles (Enemy.scene w') = Enemy.obstacles (Enemy.scene w) ∧
  Enemy.enemies (Enemy.scene w') = Enemy.enemies (Enemy.scene w).

(** ** The scene between turns *)

(** The enemies that are alive stand on pairwise different coordinates of
    the grid, none of them on the player nor on an obstacle of the scene. *)
Definition wellPlaced (sc : Enemy.Scene) : Prop :=
  NoDup (Enemy.pos <$> List.filter Enemy.isAlive (Enemy.enemies sc)) ∧
  ∀ e, e ∈ Enemy.enemies sc → Enemy.isAlive e = true →
    isValidHex (Enemy.hexGrid sc) (hex_q (Enemy.pos e)) (hex_r (Enemy.pos e)) = true ∧
    Enemy.pos e ≠ Enemy.playerPos sc ∧
    ∀ o, o ∈ Enemy.obstacles sc → Enemy.obs_type o ≠ Enemy.player →
         Enemy.obstacle_hex o ≠ Enemy.pos e.

(** The most that an enemy can take from the player in one turn. *)
Definition threat (e : Enemy.t) : Z :=
  if Enemy.isAlive e then Enemy.damage e * Z.max 0 (Enemy.maxAttacksPerTurn e) else 0.

Definition totalThreat (l : list Enemy.t) : Z := foldr (λ e s, threat e + s) 0 l.

(** [e'] is [e] but for what a turn changes. *)
Definition same_stats (e e' : Enemy.t) : Prop :=
  Enemy.hp e' = Enemy.hp e ∧ Enemy.maxHP e' = Enemy.maxHP e ∧
  Enemy.damage e' = Enemy.damage e ∧ Enemy.range e' = Enemy.range e ∧
  Enemy.maxAP e' = Enemy.maxAP e ∧
  Enemy.maxAttacksPerTurn e' = Enemy.maxAttacksPerTurn e ∧
  Enemy.aiType e' = Enemy.aiType e ∧
  Enemy.preferredDistance e' = Enemy.preferredDistance e ∧
  Enemy.isAlive e' = Enemy.isAlive e ∧
  (Enemy.isAlive e = false → e' = e).

(** The layout of the scene: what no turn changes. *)
Definition same_layout (sc sc' : Enemy.Scene) : Prop :=
  Enemy.hexGrid sc' = Enemy.hexGrid sc ∧ Enemy.playerPos sc' = Enemy.playerPos sc ∧
  Enemy.obstacles sc' = Enemy.obstacles sc.

(** The first obstacle found on [c] is a trap. *)
Definition trapAt (obstacles : list Enemy.Obstacle) (c : Hex) : bool :=
  match List.find (λ o, (Enemy.obs_q o =? hex_q c) && (Enemy.obs_r o =? hex_r c))
          obstacles with
  | Some o => bool_decide (Enemy.obs_type o = Enemy.trap)
  | None => false
  end.

(** * Distance and neighbors *)

Lemma elem_of_getNeighbors g q r h :
  h ∈ getNeighbors g q r ↔
  isValidHex g (hex_q h) (hex_r h) = true ∧ adjacent q r (hex_q h) (hex_r h).
Proof.
  unfold getNeighbors. rewrite list_elem_of_In, filter_In, <- list_elem_of_In.
  unfold directions, adjacent. simpl. rewrite !elem_of_cons, elem_of_nil.
  destruct h as [hq hr]. simpl. split.
  - intros [H ?]. split; [done|].
    repeat destruct H as [H|H]; try done; injection H as -> ->; lia.
  - intros [? H]. split; [|done].
    repeat destruct H as [[-> ->]|H]; try (destruct H as [-> ->]);
      repeat (first [left; f_equal; lia | right]).
Qed.

Lemma getDistance_even q1 r1 q2 r2 :
  2 * getDistance q1 r1 q2 r2 = Z.abs (q1 - q2) + Z.abs (q1 + r1 - q2 - r2) + Z.abs (r1 - r2).
Proof. unfold getDistance. Z.div_mod_to_equations. lia. Qed.

Lemma getDistance_max q1 r1 q2 r2 :
  getDistance q1 r1 q2 r2 =
  Z.max (Z.abs (q1 - q2)) (Z.max (Z.abs (q1 + r1 - q2 - r2)) (Z.abs (r1 - r2))).
Proof. pose proof (getDistance_even q1 r1 q2 r2). lia. Qed.

Lemma getDistance_self q r : getDistance q r q r = 0.
Proof. rewrite getDistance_max. lia. Qed.

Lemma getDistance_sym q1 r1 q2 r2 : getDistance q1 r1 q2 r2 = getDistance q2 r2 q1 r1.
Proof. rewrite !getDistance_max. lia. Qed.

Lemma getDistance_1_adjacent q1 r1 q2 r2 :
  getDistance q1 r1 q2 r2 = 1 ↔ adjacent q1 r1 q2 r2.
Proof.
  rewrite getDistance_max. unfold adjacent. split.
  - lia.
  - intros [[-> ->]|[[-> ->]|[[-> ->]|[[-> ->]|[[-> ->]|[-> ->]]]]]]; lia.
Qed.

Lemma getDistance_0 q1 r1 q2 r2 :
  getDistance q1 r1 q2 r2 = 0 ↔ q1 = q2 ∧ r1 = r2.
Proof. rewrite getDistance_max. lia. Qed.

Lemma getDistance_nonneg q1 r1 q2 r2 : 0 ≤ getDistance q1 r1 q2 r2.
Proof. rewrite getDistance_max. lia. Qed.

Lemma getDistance_step q r q1 r1 q2 r2 :
  adjacent q1 r1 q2 r2 →
  getDistance q r q1 r1 - 1 ≤ getDistance q r q2 r2 ≤ getDistance q r q1 r1 + 1.
Proof.
  rewrite !getDistance_max. unfold adjacent.
  intros [[-> ->]|[[-> ->]|[[-> ->]|[[-> ->]|[[-> ->]|[-> ->]]]]]]; lia.
Qed.

(** C5, as amended.  The distance from a coordinate to itself is 0, the
    distance is symmetric, and [b] is one of the neighbors of [a] exactly when
    [b] is at distance 1 from [a] and lies on the grid. *)
Theorem getDistance_laws g q1 r1 q2 r2 :
  getDistance q1 r1 q1 r1 = 0 ∧
  getDistance q1 r1 q2 r2 = getDistance q2 r2 q1 r1 ∧
  (getDistance q1 r1 q2 r2 = 1 ∧ isValidHex g q2 r2 = true
   ↔ mkHex q2 r2 ∈ getNeighbors g q1 r1).
Proof.
  split; [apply getDistance_self|]. split; [apply getDistance_sym|].
  rewrite elem_of_getNeighbors, getDistance_1_adjacent. simpl. tauto.
Qed.

(** C5 as stated.  On the grid of radius 1 the coordinate (2,0) is at
    distance 1 from (1,0) without being one of its neighbors: the neighbors
    are filtered by the grid. *)
Lemma getDistance_neighbor_cex :
  ¬ (getDistance 1 0 2 0 = 1 ↔ mkHex 2 0 ∈ getNeighbors (HexGrid.new 1) 1 0).
Proof.
  intros [H _]. specialize (H eq_refl).
  apply elem_of_getNeighbors in H as [H _]. vm_compute in H. discriminate.
Qed.

(** * The grid *)

Lemma elem_of_generateHexGrid R c :
  c ∈ generateHexGrid R ↔
  cube_s c = - cube_q c - cube_r c ∧
  - R ≤ cube_q c ≤ R ∧ - R ≤ cube_r c ≤ R ∧ - R ≤ cube_q c + cube_r c ≤ R.
Proof.
  unfold generateHexGrid. rewrite list_elem_of_bind. split.
  - intros (q & Hc & Hq). apply list_elem_of_bind in Hc as (r & Hc & Hr).
    apply list_elem_of_singleton in Hc as ->. simpl.
    apply elem_of_seqZ in Hq, Hr. lia.
  - intros (Hs & Hq & Hr & Hqr). exists (cube_q c). split.
    + apply list_elem_of_bind. exists (cube_r c). split.
      * destruct c; simpl in *. subst. apply list_elem_of_singleton. done.
      * apply elem_of_seqZ. lia.
    + apply elem_of_seqZ. lia.
Qed.


Lemma isValidHex_spec R q r : isValidHex (HexGrid.new R) q r = true ↔ inGrid R q r.
Proof.
  unfold isValidHex, inGrid. simpl. rewrite existsb_exists. split.
  - intros (c & Hc & Hqr). apply list_elem_of_In, elem_of_generateHexGrid in Hc. lia.
  - intros H. exists (mkCube q r (- q - r)). split.
    + apply list_elem_of_In, elem_of_generateHexGrid. simpl. lia.
    + simpl. lia.
Qed.

Lemma step_towards R sq sr kq kr :
  inGrid R sq sr → inGrid R kq kr → 0 < getDistance sq sr kq kr →
  ∃ pq pr, inGrid R pq pr ∧ adjacent pq pr kq kr ∧
           getDistance sq sr pq pr + 1 = getDistance sq sr kq kr.
Proof.
  unfold inGrid, adjacent. intros Hs Hk Hd.
  rewrite getDistance_max in Hd.
  (* The largest cube coordinate of the difference goes down by one and
     the smallest goes up by one. *)
  destruct (Z_lt_le_dec (kq - sq) (kr - sr)),
           (Z_lt_le_dec (kr - sr) (sq + sr - kq - kr)),
           (Z_lt_le_dec (kq - sq) (sq + sr - kq - kr));
    [ exists (kq + 1), kr | exfalso; lia | exists (kq + 1), (kr - 1) | exists kq, (kr - 1)
    | exists kq, (kr + 1) | exists (kq - 1), (kr + 1) | exfalso; lia | exists (kq - 1), kr ];
    rewrite !getDistance_max; (split; [lia|]); (split; [lia|]); lia.
Qed.

(** * Rounding *)

Lemma Math_round_bounds x :
  (inject_Z (JS.Math_round x) - (1 # 2) <= x)%Q ∧
  (x < inject_Z (JS.Math_round x) + (1 # 2))%Q.
Proof.
  unfold JS.Math_round.
  pose proof (Qfloor_le (x + (1 # 2))) as H1.
  pose proof (Qlt_floor (x + (1 # 2))) as H2.
  rewrite inject_Z_plus in H2. change (inject_Z 1) with 1%Q in H2.
  split; lra.
Qed.

Lemma roundingError_half x : (roundingError x <= 1 # 2)%Q.
Proof.
  unfold roundingError, JS.Math_abs. destruct (Math_round_bounds x).
  apply Qabs_Qle_condition. split; lra.
Qed.

Lemma gtb_true a b : JS.gtb a b = true ↔ (b < a)%Q.
Proof.
  unfold JS.gtb. rewrite negb_true_iff, <- not_true_iff_false, Qle_bool_iff.
  split; [apply Qnot_le_lt | apply Qlt_not_le].
Qed.

Lemma gtb_false a b : JS.gtb a b = false ↔ (a <= b)%Q.
Proof. unfold JS.gtb. rewrite negb_false_iff. apply Qle_bool_iff. Qed.

Lemma roundCube_correctsLargest q r s : correctsLargest q r s (roundCube q r s).
Proof.
  unfold correctsLargest, roundCube.
  fold (roundingError q) (roundingError r) (roundingError s).
  destruct (JS.gtb (roundingError q) (roundingError r)) eqn:Hqr;
    destruct (JS.gtb (roundingError q) (roundingError s)) eqn:Hqs;
    destruct (JS.gtb (roundingError r) (roundingError s)) eqn:Hrs;
    simpl; (split; [lia|]);
    rewrite ?gtb_true, ?gtb_false in *.
  all: first
    [ left; repeat split; first [lia | lra]
    | right; left; repeat split; first [lia | lra]
    | right; right; repeat split; first [lia | lra] ].
Qed.

(** C2.  Each coordinate is rounded to an integer at most one half away;
    [roundCube] and [roundHex] then recompute, from the two other rounded
    coordinates, one whose rounding error is the largest, so that the
    coordinates of the result, with [s = -q-r], sum to zero.  [pixelToHex]
    returns what [roundHex] returns, and every sample of a line other than
    the start of a line of length zero is a result of [roundCube]. *)
Theorem rounding_keeps_zero_sum :
  (∀ x, (roundingError x <= 1 # 2)%Q) ∧
  (∀ q r s, correctsLargest q r s (roundCube q r s)) ∧
  (∀ q r, correctsLargest q r (- q - r) (roundHex q r)) ∧
  (∀ sqrt3 hexSize centerX centerY px py, ∃ q r,
     pixelToHex sqrt3 hexSize centerX centerY px py = roundHex q r) ∧
  (∀ q1 r1 q2 r2 h, h ∈ getHexLine q1 r1 q2 r2 →
     h = mkHex q1 r1 ∨ ∃ q r s, h = roundCube q r s).
Proof.
  split; [apply roundingError_half|].
  split; [apply roundCube_correctsLargest|].
  split; [intros q r; apply (roundCube_correctsLargest q r (- q - r))|].
  split; [intros; unfold pixelToHex; eauto|].
  intros q1 r1 q2 r2 h. unfold getHexLine.
  destruct (_ =? 0).
  - rewrite list_elem_of_singleton. auto.
  - intros (i & -> & _)%list_elem_of_fmap. right. eauto.
Qed.

Lemma rounding_keeps_zero_sum_witness :
  mkHex 1 0 = mkHex 0 0 ∨ ∃ q r s, mkHex 1 0 = roundCube q r s.
Proof.
  apply (proj2 (proj2 (proj2 (proj2 rounding_keeps_zero_sum))) 0 0 2 (-1) (mkHex 1 0)).
  vm_compute. apply list_elem_of_further, list_elem_of_here.
Defined.

(** ** A rounded point is far from a coordinate one unit away *)

Lemma Math_round_inject x z : (x == inject_Z z)%Q → JS.Math_round x = z.
Proof.
  intros H. destruct (Math_round_bounds x) as [H1 H2].
  assert (inject_Z (JS.Math_round x) < inject_Z (z + 1))%Q as H3
    by (rewrite inject_Z_plus; change (inject_Z 1) with 1%Q; lra).
  assert (inject_Z (z - 1) < inject_Z (JS.Math_round x))%Q as H4.
  { unfold Z.sub. rewrite inject_Z_plus. change (inject_Z (- (1))) with (- (1))%Q. lra. }
  rewrite <- Zlt_Qlt in H3, H4. lia.
Qed.

Lemma roundingError_inject x z : (x == inject_Z z)%Q → (roundingError x == 0)%Q.
Proof.
  intros H. unfold roundingError, JS.Math_abs.
  rewrite (Math_round_inject x z H).
  apply Qle_antisym; [apply Qabs_Qle_condition; split; lra | apply Qabs_nonneg].
Qed.

Lemma roundingError_zero x :
  (roundingError x <= 0)%Q → (x == inject_Z (JS.Math_round x))%Q.
Proof.
  unfold roundingError, JS.Math_abs. intros H.
  apply Qabs_Qle_condition in H as [H1 H2]. lra.
Qed.

Lemma correctsLargest_far (aq ar k : Z) (q r s : Q) (h : Hex) :
  correctsLargest q r s h →
  (q + r + s == 0)%Q →
  k ≠ 0 →
  (q == inject_Z (aq + k) ∨ r == inject_Z (ar + k) ∨ s == inject_Z (- aq - ar + k))%Q →
  h ≠ mkHex aq ar.
Proof.
  intros [_ Hc] Hsum Hk Hint ->. simpl in Hc.
  assert (∀ x y z : Z, (inject_Z x + inject_Z y + inject_Z z == 0)%Q → x + y + z = 0)
    as Hz.
  { intros x y z H. apply inject_Z_injective. by rewrite !inject_Z_plus. }
  destruct Hint as [Hq | [Hr | Hs]].
  - pose proof (Math_round_inject _ _ Hq) as Hrq.
    pose proof (roundingError_inject _ _ Hq) as Heq.
    destruct Hc as [(Hrr & Hrs & Her & Hes) | [(? & _) | (? & _)]]; [| lia | lia].
    rewrite Heq in Her, Hes.
    apply roundingError_zero in Her, Hes. rewrite <- Hrr in Her. rewrite <- Hrs in Hes.
    specialize (Hz (aq + k) ar (- aq - ar)). lapply Hz; [lia | lra].
  - pose proof (Math_round_inject _ _ Hr) as Hrr.
    pose proof (roundingError_inject _ _ Hr) as Heq.
    destruct Hc as [(? & _) | [(Hrq & Hrs & Her & Hes) | (_ & ? & _)]]; [lia| |lia].
    rewrite Heq in Her, Hes.
    apply roundingError_zero in Her, Hes. rewrite <- Hrq in Her. rewrite <- Hrs in Hes.
    specialize (Hz aq (ar + k) (- aq - ar)). lapply Hz; [lia | lra].
  - pose proof (Math_round_inject _ _ Hs) as Hrs.
    pose proof (roundingError_inject _ _ Hs) as Heq.
    destruct Hc as [(_ & ? & _) | [(_ & ? & _) | (Hrq & Hrr & Her & Hes)]]; [lia | lia |].
    rewrite Heq in Her, Hes.
    apply roundingError_zero in Her, Hes. rewrite <- Hrq in Her. rewrite <- Hrr in Hes.
    specialize (Hz aq ar (- aq - ar + k)). lapply Hz; [lia | lra].
Qed.

(** * Line of sight *)

Lemma interp_pos (a N i : Z) :
  N ≠ 0 → (inject_Z a + inject_Z N * (inject_Z i / inject_Z N) == inject_Z (a + i))%Q.
Proof.
  intros HN. rewrite inject_Z_plus. field.
  intros H. apply HN, inject_Z_injective. exact H.
Qed.

Lemma interp_neg (a N i : Z) :
  N ≠ 0 → (inject_Z a + inject_Z (- N) * (inject_Z i / inject_Z N) == inject_Z (a - i))%Q.
Proof.
  intros HN. unfold Z.sub. rewrite inject_Z_plus, !inject_Z_opp. field.
  intros H. apply HN, inject_Z_injective. exact H.
Qed.

Lemma interp_sum (q1 r1 q2 r2 : Z) (t : Q) :
  (inject_Z q1 + inject_Z (q2 - q1) * t
   + (inject_Z r1 + inject_Z (r2 - r1) * t)
   + (inject_Z (- q1 - r1) + inject_Z (- q2 - r2 - (- q1 - r1)) * t) == 0)%Q.
Proof. unfold Z.sub. repeat (rewrite ?inject_Z_plus, ?inject_Z_opp). ring. Qed.

Lemma length_getHexLine q1 r1 q2 r2 :
  length (getHexLine q1 r1 q2 r2) = Z.to_nat (getDistance q1 r1 q2 r2 + 1).
Proof.
  unfold getHexLine. destruct (Z.eqb_spec (getDistance q1 r1 q2 r2) 0) as [->|].
  - done.
  - by rewrite length_fmap, length_seqZ.
Qed.

Lemma getHexLine_interior q1 r1 q2 r2 (i : nat) h :
  (1 ≤ i)%nat → (i + 1 < length (getHexLine q1 r1 q2 r2))%nat →
  getHexLine q1 r1 q2 r2 !! i = Some h →
  h ≠ mkHex q1 r1 ∧ h ≠ mkHex q2 r2.
Proof.
  intros Hi1 Hi2. rewrite length_getHexLine in Hi2.
  pose proof (getDistance_max q1 r1 q2 r2) as Hmax.
  unfold getHexLine.
  set (N := getDistance q1 r1 q2 r2) in *.
  destruct (Z.eqb_spec N 0) as [HN|HN]; [lia|].
  rewrite list_lookup_fmap.
  destruct (seqZ 0 (N + 1) !! i) as [j|] eqn:Hj; [|done].
  apply lookup_seqZ in Hj as [-> _]. simpl. intros [= <-].
  rewrite Z.add_0_l.
  set (t := (inject_Z (Z.of_nat i) / inject_Z N)%Q).
  pose proof (interp_sum q1 r1 q2 r2 t) as Hsum.
  assert (q2 - q1 = N ∨ q2 - q1 = - N ∨ r2 - r1 = N ∨ r2 - r1 = - N ∨
          - q2 - r2 - (- q1 - r1) = N ∨ - q2 - r2 - (- q1 - r1) = - N) as Hd by lia.
  assert (0 < Z.of_nat i < N) as Hi by lia.
  destruct Hd as [Hd|[Hd|[Hd|[Hd|[Hd|Hd]]]]]; rewrite Hd in Hsum |- *; split.
  - apply (correctsLargest_far q1 r1 (Z.of_nat i) _ _ _ _
             (roundCube_correctsLargest _ _ _) Hsum); [lia|].
    left. by apply interp_pos.
  - apply (correctsLargest_far q2 r2 (- (N - Z.of_nat i)) _ _ _ _
             (roundCube_correctsLargest _ _ _) Hsum); [lia|].
    left. match goal with
    | |- (inject_Z ?a + _ == inject_Z ?x)%Q => replace x with (a + Z.of_nat i) by lia
    end. by apply interp_pos.
  - apply (correctsLargest_far q1 r1 (- Z.of_nat i) _ _ _ _
             (roundCube_correctsLargest _ _ _) Hsum); [lia|].
    left. by apply interp_neg.
  - apply (correctsLargest_far q2 r2 (N - Z.of_nat i) _ _ _ _
             (roundCube_correctsLargest _ _ _) Hsum); [lia|].
    left. match goal with
    | |- (inject_Z ?a + _ == inject_Z ?x)%Q => replace x with (a - Z.of_nat i) by lia
    end. by apply interp_neg.
  - apply (correctsLargest_far q1 r1 (Z.of_nat i) _ _ _ _
             (roundCube_correctsLargest _ _ _) Hsum); [lia|].
    right; left. by apply interp_pos.
  - apply (correctsLargest_far q2 r2 (- (N - Z.of_nat i)) _ _ _ _
             (roundCube_correctsLargest _ _ _) Hsum); [lia|].
    right; left. match goal with
    | |- (inject_Z ?a + _ == inject_Z ?x)%Q => replace x with (a + Z.of_nat i) by lia
    end. by apply interp_pos.
  - apply (correctsLargest_far q1 r1 (- Z.of_nat i) _ _ _ _
             (roundCube_correctsLargest _ _ _) Hsum); [lia|].
    right; left. by apply interp_neg.
  - apply (correctsLargest_far q2 r2 (N - Z.of_nat i) _ _ _ _
             (roundCube_correctsLargest _ _ _) Hsum); [lia|].
    right; left. match goal with
    | |- (inject_Z ?a + _ == inject_Z ?x)%Q => replace x with (a - Z.of_nat i) by lia
    end. by apply interp_neg.
  - apply (correctsLargest_far q1 r1 (Z.of_nat i) _ _ _ _
             (roundCube_correctsLargest _ _ _) Hsum); [lia|].
    right; right. by apply interp_pos.
  - apply (correctsLargest_far q2 r2 (- (N - Z.of_nat i)) _ _ _ _
             (roundCube_correctsLargest _ _ _) Hsum); [lia|].
    right; right. match goal with
    | |- (inject_Z ?a + _ == inject_Z ?x)%Q => replace x with (a + Z.of_nat i) by lia
    end. by apply interp_pos.
  - apply (correctsLargest_far q1 r1 (- Z.of_nat i) _ _ _ _
             (roundCube_correctsLargest _ _ _) Hsum); [lia|].
    right; right. by apply interp_neg.
  - apply (correctsLargest_far q2 r2 (N - Z.of_nat i) _ _ _ _
             (roundCube_correctsLargest _ _ _) Hsum); [lia|].
    right; right. match goal with
    | |- (inject_Z ?a + _ == inject_Z ?x)%Q => replace x with (a - Z.of_nat i) by lia
    end. by apply interp_neg.
Qed.

Lemma same_hex_true a b : same_hex a b = true ↔ a = b.
Proof.
  unfold same_hex. destruct a, b; simpl. rewrite andb_true_iff, !Z.eqb_eq.
  split; [intros [-> ->]; done | intros [= -> ->]; done].
Qed.

Lemma blocked_true (blockers : list Hex) hex :
  existsb (λ b, same_hex b hex) blockers = true ↔ hex ∈ blockers.
Proof.
  rewrite existsb_exists, list_elem_of_In. split.
  - intros (b & Hb & ->%same_hex_true). done.
  - intros H. exists hex. split; [done|]. by apply same_hex_true.
Qed.

Lemma hasLineOfSight_true q1 r1 q2 r2 blockers :
  hasLineOfSight q1 r1 q2 r2 blockers = true ↔
  (q1 = q2 ∧ r1 = r2) ∨
  ∀ (i : nat) hex, (1 ≤ i)%nat → (i + 1 < length (getHexLine q1 r1 q2 r2))%nat →
    getHexLine q1 r1 q2 r2 !! i = Some hex → hex ∉ blockers.
Proof.
  unfold hasLineOfSight.
  destruct ((q1 =? q2) && (r1 =? r2)) eqn:Heq.
  { apply andb_true_iff in Heq as [?%Z.eqb_eq ?%Z.eqb_eq]. tauto. }
  rewrite forallb_forall. split.
  - intros H. right. intros i hex Hi1 Hi2 Hl Hb.
    specialize (H i). rewrite Hl in H.
    rewrite (proj2 (blocked_true blockers hex) Hb) in H.
    lapply H; [done|]. apply in_seq. lia.
  - intros [[-> ->]|H].
    { rewrite !Z.eqb_refl in Heq. done. }
    intros i Hi%in_seq.
    destruct (getHexLine q1 r1 q2 r2 !! i) as [hex|] eqn:Hl; [|done].
    apply negb_true_iff, not_true_iff_false. rewrite blocked_true.
    apply (H i); [lia|lia|done].
Qed.

(** C4.  Without blockers there is line of sight; from a coordinate to
    itself there is line of sight whatever the blockers; two blocker lists
    that differ only at the two end points give the same answer; and a
    blocker on an interior sample of the line removes the line of sight. *)
Theorem hasLineOfSight_blockers q1 r1 q2 r2 :
  hasLineOfSight q1 r1 q2 r2 [] = true ∧
  (∀ blockers, hasLineOfSight q1 r1 q1 r1 blockers = true) ∧
  (∀ blockers blockers',
     (∀ hex, hex ≠ mkHex q1 r1 → hex ≠ mkHex q2 r2 →
             (hex ∈ blockers ↔ hex ∈ blockers')) →
     hasLineOfSight q1 r1 q2 r2 blockers = hasLineOfSight q1 r1 q2 r2 blockers') ∧
  (∀ blockers (i : nat) hex,
     (1 ≤ i)%nat → (i + 1 < length (getHexLine q1 r1 q2 r2))%nat →
     getHexLine q1 r1 q2 r2 !! i = Some hex →
     hex ∈ blockers →
     hasLineOfSight q1 r1 q2 r2 blockers = false).
Proof.
  split; [|split; [|split]].
  - apply hasLineOfSight_true. right. intros i hex _ _ _ H. by apply elem_of_nil in H.
  - intros blockers. apply hasLineOfSight_true. by left.
  - intros blockers blockers' Hsame. apply eq_true_iff_eq.
    rewrite !hasLineOfSight_true.
    split; (intros [?|H]; [by left|right]); intros i hex Hi1 Hi2 Hl Hb;
      destruct (getHexLine_interior _ _ _ _ _ _ Hi1 Hi2 Hl) as [Ha Hb'];
      apply (H i hex Hi1 Hi2 Hl); by apply (Hsame hex Ha Hb').
  - intros blockers i hex Hi1 Hi2 Hl Hb.
    apply not_true_iff_false. rewrite hasLineOfSight_true.
    intros [[-> ->]|H].
    + rewrite length_getHexLine, getDistance_self in Hi2. simpl in Hi2. lia.
    + by apply (H i hex).
Qed.

Lemma hasLineOfSight_blockers_witness :
  hasLineOfSight 0 0 3 0 [mkHex 1 0; mkHex 3 0] = hasLineOfSight 0 0 3 0 [mkHex 1 0] ∧
  hasLineOfSight 0 0 3 0 [mkHex 1 0] = false.
Proof.
  split.
  - apply (proj1 (proj2 (proj2 (hasLineOfSight_blockers 0 0 3 0)))).
    intros hex _ Hb. rewrite !elem_of_cons, elem_of_nil. tauto.
  - apply (proj2 (proj2 (proj2 (hasLineOfSight_blockers 0 0 3 0)))
             [mkHex 1 0] 1%nat (mkHex 1 0)).
    + lia.
    + vm_compute. lia.
    + reflexivity.
    + apply list_elem_of_here.
Defined.

(** * Path finding *)

Lemma insert_Permutation {A} (cmp : A → A → JS.num) x l :
  JS.insert cmp x l ≡ₚ x :: l.
Proof.
  induction l as [|y l IH]; simpl; [done|].
  destruct (JS.positive _); [|done]. rewrite IH. apply Permutation_swap.
Qed.

Lemma sort_Permutation {A} (cmp : A → A → JS.num) l : JS.sort cmp l ≡ₚ l.
Proof.
  induction l as [|x l IH]; simpl; [done|].
  rewrite insert_Permutation. by rewrite IH.
Qed.

Lemma sortOpen_keys l : keys (sortOpen l) ≡ₚ keys l.
Proof. unfold keys, sortOpen. by rewrite sort_Permutation. Qed.

Lemma isValidHex_universe g start q r :
  isValidHex g q r = true → hexKey q r ∈ universe g start.
Proof.
  unfold isValidHex, universe. rewrite existsb_exists.
  intros (c & Hc%list_elem_of_In & Hqr).
  apply andb_true_iff in Hqr as [<-%Z.eqb_eq <-%Z.eqb_eq].
  apply elem_of_union_l, elem_of_list_to_set, list_elem_of_fmap. by exists c.
Qed.

Lemma size_list_to_set_le (l : list (Z * Z)) :
  (size (list_to_set (C:=gset (Z * Z)) l) ≤ length l)%nat.
Proof.
  induction l as [|x l IH].
  - by rewrite list_to_set_nil, size_empty.
  - rewrite list_to_set_cons, size_union_alt, size_singleton. simpl.
    assert (list_to_set l ∖ {[x]} ⊆ (list_to_set l : gset (Z * Z))) as Hs by set_solver.
    apply subseteq_size in Hs. lia.
Qed.

Lemma universe_size g start : (size (universe g start) ≤ length (hexes g) + 1)%nat.
Proof.
  unfold universe. rewrite size_union_alt.
  pose proof (size_list_to_set_le (cubeKey <$> hexes g)) as H.
  rewrite length_fmap in H.
  assert ({[start]} ∖ list_to_set (cubeKey <$> hexes g) ⊆ ({[start]} : gset (Z * Z)))
    as Hs by set_solver.
  apply subseteq_size in Hs. rewrite size_singleton in Hs. lia.
Qed.

Section Search.
Context (g : HexGrid.t) (start : Z * Z) (endQ endR : Z) (obstacles : list Hex).

Lemma visit_closedSet current st n :
  closedSet (visit endQ endR obstacles current st n) = closedSet st.
Proof. unfold visit. repeat case_match; done. Qed.

Lemma inOpen_true (l : list Node) q r :
  existsb (λ n, (node_q n =? q) && (node_r n =? r)) l = true ↔ hexKey q r ∈ keys l.
Proof.
  unfold keys. rewrite existsb_exists, list_elem_of_fmap. split.
  - intros (n & Hn%list_elem_of_In & Hqr).
    apply andb_true_iff in Hqr as [<-%Z.eqb_eq <-%Z.eqb_eq]. by exists n.
  - intros (n & Hk & Hn). exists n. split; [by apply list_elem_of_In|].
    unfold nodeKey, hexKey in Hk. injection Hk as -> ->. by rewrite !Z.eqb_refl.
Qed.

Lemma visit_openSet current st n :
  openSet (visit endQ endR obstacles current st n) = openSet st ∨
  ∃ f, openSet (visit endQ endR obstacles current st n)
       = openSet st ++ [mkNode (hex_q n) (hex_r n) f] ∧
       (hexKey (hex_q n) (hex_r n) ∉ closedSet st) ∧
       (hexKey (hex_q n) (hex_r n) ∉ keys (openSet st)).
Proof.
  unfold visit. case_decide as Hc; [by left|].
  destruct (isBlocked _ _ _); [by left|].
  destruct (match gScore st !! _ with None => true | Some _ => _ end); [|by left].
  simpl. destruct (existsb _ _) eqn:Hin; [by left|].
  right. eexists. split_and!; [done|done|].
  rewrite <- inOpen_true. by rewrite Hin.
Qed.

Lemma visit_frame current st n :
  isValidHex g (hex_q n) (hex_r n) = true →
  frame g start st → frame g start (visit endQ endR obstacles current st n).
Proof.
  intros Hv [Hnd Hopen Hclosed].
  destruct (visit_openSet current st n) as [Ho|(f & Ho & Hnc & Hno)];
    constructor; rewrite ?visit_closedSet, ?Ho; try done.
  - unfold keys. rewrite fmap_app. apply NoDup_app. split_and!; [done| |apply NoDup_singleton].
    intros k Hk ->%list_elem_of_singleton. done.
  - intros k. unfold keys. rewrite fmap_app, elem_of_app.
    intros [Hk| ->%list_elem_of_singleton]; [by apply Hopen|].
    split; [done|]. by apply isValidHex_universe.
Qed.

Lemma fold_visit_frame current l st :
  (∀ n, n ∈ l → isValidHex g (hex_q n) (hex_r n) = true) →
  frame g start st →
  frame g start (fold_left (visit endQ endR obstacles current) l st).
Proof.
  revert st. induction l as [|n l IH]; intros st Hl Hf; simpl; [done|].
  apply IH; [intros; apply Hl; by right|].
  apply visit_frame; [|done]. apply Hl. by left.
Qed.

Lemma fold_visit_closedSet current l st :
  closedSet (fold_left (visit endQ endR obstacles current) l st) = closedSet st.
Proof.
  revert st. induction l as [|n l IH]; intros st; simpl; [done|].
  by rewrite IH, visit_closedSet.
Qed.

Lemma getNeighbors_valid q r n :
  n ∈ getNeighbors g q r → isValidHex g (hex_q n) (hex_r n) = true.
Proof. by intros [? _]%elem_of_getNeighbors. Qed.

Lemma expand_closedSet current rest st :
  closedSet (expand g endQ endR obstacles current rest st)
  = {[nodeKey current]} ∪ closedSet st.
Proof. unfold expand. by rewrite fold_visit_closedSet. Qed.

Lemma expand_frame current rest st :
  frame g start st → sortOpen (openSet st) = current :: rest →
  frame g start (expand g endQ endR obstacles current rest st) ∧
  (unexplored g start (expand g endQ endR obstacles current rest st)
   < unexplored g start st)%nat.
Proof.
  intros [Hnd Hopen Hclosed] Hsort.
  pose proof (sortOpen_keys (openSet st)) as Hperm. rewrite Hsort in Hperm.
  change (keys (current :: rest)) with (nodeKey current :: keys rest) in Hperm.
  rewrite <- Hperm in Hnd. apply NoDup_cons in Hnd as [Hcur Hnd].
  assert ((nodeKey current ∉ closedSet st) ∧ (nodeKey current ∈ universe g start))
    as [Hcc Hcu] by (apply Hopen; rewrite <- Hperm; by left).
  split.
  - apply fold_visit_frame; [intros n; apply getNeighbors_valid|].
    constructor; simpl; [done| |set_solver].
    intros k Hk. destruct (Hopen k) as [? ?]; [rewrite <- Hperm; by right|].
    split; [|done]. set_solver.
  - unfold unexplored. rewrite expand_closedSet. apply subset_size. set_solver.
Qed.

(** The loop runs to its end whenever the fuel exceeds the number of
    unexplored coordinates, and an invariant of the loop body holds where
    it stops. *)
Lemma search_inv (P : Search → Prop) fuel0 :
  (∀ st current rest,
     P st → frame g start st → sortOpen (openSet st) = current :: rest →
     (node_q current =? endQ) && (node_r current =? endR) = false →
     P (expand g endQ endR obstacles current rest st)) →
  ∀ fuel st, P st → frame g start st → (unexplored g start st < fuel)%nat →
  ∃ st', P st' ∧ frame g start st' ∧
    ((sortOpen (openSet st') = [] ∧
      search fuel0 fuel g endQ endR obstacles st = Some None) ∨
     (∃ current rest,
        sortOpen (openSet st') = current :: rest ∧
        node_q current = endQ ∧ node_r current = endR ∧
        search fuel0 fuel g endQ endR obstacles st =
          (path ← reconstruct fuel0 (cameFrom st') (Some (mkHex endQ endR)) [];
           Some (Some (tail path))))).
Proof.
  intros Hstep. induction fuel as [|fuel IH]; intros st HP Hf Hfuel; [lia|].
  simpl. destruct (sortOpen (openSet st)) as [|current rest] eqn:Hsort.
  { exists st. split_and!; [done|done|]. left. by rewrite Hsort. }
  destruct ((node_q current =? endQ) && (node_r current =? endR)) eqn:Hgoal.
  { exists st. split_and!; [done|done|]. right. exists current, rest.
    apply andb_true_iff in Hgoal as [?%Z.eqb_eq ?%Z.eqb_eq]. by rewrite Hsort. }
  destruct (expand_frame current rest st Hf Hsort) as [Hf' Hlt].
  apply IH; [by apply Hstep|done|lia].
Qed.
End Search.

Section Bfs.
Context (R startQ startR endQ endR : Z).
Hypothesis start_valid : inGrid R startQ startR.

Lemma sortOpen_fixed st : open_sorted startQ startR st → sortOpen (openSet st) = openSet st.
Proof.
  intros [[z ->]|H]; [done|].
  induction H as [|x l Hx Hl IH]; [done|].
  unfold sortOpen in *. simpl. rewrite IH.
  destruct Hl as [|y l Hy Hl]; [done|]. simpl. by rewrite Hx, Hy.
Qed.

Lemma visit_unobstructed current st n :
  (∃ v, gScore st !! nodeKey current = Some v ∧ (v = JS.Fin 0 ∨ v = JS.PInf)) →
  visit endQ endR [] current st n =
    if decide (hexKeyOf n ∈ closedSet st ∨ is_Some (gScore st !! hexKeyOf n)) then st
    else
      mkSearch
        (if existsb (λ x, (node_q x =? hex_q n) && (node_r x =? hex_r n)) (openSet st)
         then openSet st
         else openSet st ++ [mkNode (hex_q n) (hex_r n) JS.PInf])
        (closedSet st)
        (<[hexKeyOf n := mkHex (node_q current) (node_r current)]> (cameFrom st))
        (<[hexKeyOf n := JS.PInf]> (gScore st))
        (<[hexKeyOf n := JS.PInf]> (fScore st)).
Proof.
  intros (v & Hv & Hv'). unfold visit, hexKeyOf. fold (nodeKey current). rewrite Hv.
  assert (JS.add (JS.or_Infinity (Some v)) (JS.Fin 1) = JS.PInf) as ->
    by (destruct Hv' as [-> | ->]; done).
  simpl.
  destruct (decide (hexKey (hex_q n) (hex_r n) ∈ closedSet st)) as [Hc|Hc].
  { rewrite decide_True by auto. done. }
  destruct (gScore st !! hexKey (hex_q n) (hex_r n)) as [e|] eqn:He.
  { rewrite decide_True by eauto. by destruct e. }
  rewrite decide_False; [done|]. intros [?|[? ?]]; done.
Qed.

Lemma visit_dom_mono current st n k :
  k ∈ dom (gScore st) → k ∈ dom (gScore (visit endQ endR [] current st n)).
Proof.
  intros Hk. unfold visit. repeat case_match; simpl; rewrite ?dom_insert; set_solver.
Qed.

Lemma fold_visit_dom_mono current l st k :
  k ∈ dom (gScore st) →
  k ∈ dom (gScore (fold_left (visit endQ endR [] current) l st)).
Proof.
  revert st. induction l as [|n l IH]; intros st Hk; simpl; [done|].
  by apply IH, visit_dom_mono.
Qed.

Lemma visiting_current_score ck m st :
  visiting R startQ startR endQ endR ck m st →
  ∃ v, gScore st !! ck = Some v ∧ (v = JS.Fin 0 ∨ v = JS.PInf).
Proof.
  intros (Hcore & _ & _ & Hck & _).
  assert (ck ∈ dom (gScore st)) as [v Hv]%elem_of_dom
    by (apply (bfs_dom _ _ _ _ _ _ _ Hcore); by left).
  exists v. split; [done|]. by apply (bfs_scores _ _ _ _ _ _ _ Hcore ck).
Qed.

Lemma visit_visiting current m st n :
  inGrid R (hex_q n) (hex_r n) →
  adjacent (node_q current) (node_r current) (hex_q n) (hex_r n) →
  visiting R startQ startR endQ endR (nodeKey current) m st →
  visiting R startQ startR endQ endR (nodeKey current) m (visit endQ endR [] current st n) ∧
  hexKeyOf n ∈ dom (gScore (visit endQ endR [] current st n)).
Proof.
  intros Hn Hadj Hv.
  rewrite (visit_unobstructed current st n (visiting_current_score _ _ _ Hv)).
  pose proof Hv as (Hcore & Hopen & Hseen & Hck & Hm).
  destruct Hcore as [Hsc Hdom Hval [Hst Hst'] Hfrom Hsome (l1 & l2 & Hl & Hl1 & Hl2) Hcomp Hgoal].
  case_decide as Hd.
  { split; [done|].
    destruct Hd as [Hd|Hd]; [apply Hdom; by left | by apply elem_of_dom]. }
  assert (hexKeyOf n ∉ closedSet st) as Hnc by (intros ?; apply Hd; by left).
  assert (hexKeyOf n ∉ dom (gScore st)) as Hnd
    by (intros ?%elem_of_dom; apply Hd; by right).
  assert (hexKeyOf n ∉ keys (openSet st)) as Hno by (intros ?; apply Hnd, Hdom; by right).
  destruct (existsb _ (openSet st)) eqn:Hin.
  { apply inOpen_true in Hin. done. }
  assert (depth startQ startR (hexKeyOf n) = m + 1) as Hdepth.
  { pose proof (getDistance_step startQ startR _ _ _ _ Hadj) as Hs.
    unfold depth in *. simpl in *.
    destruct (Z_le_gt_dec (getDistance startQ startR (hex_q n) (hex_r n)) m) as [Hle|Hgt];
      [|lia].
    destruct Hnd. by apply (Hcomp (hex_q n) (hex_r n)). }
  assert (hexKeyOf n ≠ hexKey startQ startR) as Hns by (intros Heq; by rewrite Heq in Hnd).
  split; [|simpl; rewrite dom_insert; set_solver].
  split_and!; simpl; try done.
  - constructor; simpl.
    + intros k v. rewrite lookup_insert. case_decide; [intros [= <-]; by right|apply Hsc].
    + intros k. unfold keys. rewrite dom_insert, fmap_app, elem_of_app, elem_of_union.
      rewrite Hdom. simpl. rewrite list_elem_of_singleton, elem_of_singleton.
      unfold keys, hexKeyOf, nodeKey. simpl. tauto.
    + intros k. rewrite dom_insert, elem_of_union, elem_of_singleton.
      intros [->|Hk]; [done|by apply Hval].
    + split; [rewrite dom_insert; set_solver|]. by rewrite lookup_insert_ne.
    + intros k p. rewrite lookup_insert. case_decide as Hk.
      * intros [= <-]. subst k. rewrite dom_insert.
        split_and!; [set_solver| |done|].
        -- apply elem_of_union_r, Hdom. by left.
        -- change (hexKeyOf (mkHex (node_q current) (node_r current))) with (nodeKey current).
           lia.
      * intros Hp. destruct (Hfrom k p Hp) as (? & ? & ? & ?).
        rewrite dom_insert. split_and!; [set_solver|set_solver|done|done].
    + intros k. rewrite dom_insert, elem_of_union, elem_of_singleton, lookup_insert.
      intros Hk Hks. case_decide; [done|]. destruct Hk as [->|Hk]; [done|]. by apply Hsome.
    + exists l1, (l2 ++ [hexKeyOf n]). unfold keys in *. rewrite fmap_app, Hl, <- app_assoc.
      split_and!; [done|done|]. apply Forall_app. split; [done|].
      by apply Forall_singleton.
    + intros q r Hqr Hle. rewrite dom_insert. apply elem_of_union_r. by apply Hcomp.
    + done.
  - apply Forall_app. split; [done|]. by apply Forall_singleton.
  - unfold closed_seen. simpl. intros c Hc Hcne q r Hqr Hadj'.
    rewrite dom_insert. apply elem_of_union_r. by apply (Hseen c).
Qed.

Lemma fold_visit_visiting current m l st :
  (∀ n, n ∈ l → inGrid R (hex_q n) (hex_r n) ∧
                adjacent (node_q current) (node_r current) (hex_q n) (hex_r n)) →
  visiting R startQ startR endQ endR (nodeKey current) m st →
  visiting R startQ startR endQ endR (nodeKey current) m (fold_left (visit endQ endR [] current) l st) ∧
  ∀ n, n ∈ l → hexKeyOf n ∈ dom (gScore (fold_left (visit endQ endR [] current) l st)).
Proof.
  revert st. induction l as [|x l IH]; intros st Hl Hv; simpl.
  { split; [done|]. intros n Hn. by apply elem_of_nil in Hn. }
  destruct (Hl x) as [Hx Hadj]; [by left|].
  destruct (visit_visiting current m st x Hx Hadj Hv) as [Hv' Hdom'].
  destruct (IH _ (λ n Hn, Hl n (list_elem_of_further _ _ _ Hn)) Hv') as [Hv'' Hdom''].
  split; [done|]. intros n [->|Hn]%elem_of_cons; [|by apply Hdom''].
  by apply fold_visit_dom_mono.
Qed.

Lemma bfs_core_level m m' st :
  bfs_core R startQ startR endQ endR m st →
  (∃ l1 l2, keys (openSet st) = l1 ++ l2 ∧
     Forall (λ k, depth startQ startR k = m') l1 ∧ Forall (λ k, depth startQ startR k = m' + 1) l2) →
  (∀ q r, inGrid R q r → depth startQ startR (q, r) ≤ m' → (q, r) ∈ dom (gScore st)) →
  bfs_core R startQ startR endQ endR m' st.
Proof. intros [] ? ?. by constructor. Qed.

Lemma expand_bfs current rest st :
  bfs R startQ startR endQ endR st →
  sortOpen (openSet st) = current :: rest →
  (node_q current =? endQ) && (node_r current =? endR) = false →
  bfs R startQ startR endQ endR (expand (HexGrid.new R) endQ endR [] current rest st).
Proof.
  intros (m & Hcore & Hsorted & Hseen & Hhead) Hsort Hgoal.
  rewrite (sortOpen_fixed _ Hsorted) in Hsort.
  specialize (Hhead _ _ Hsort).
  set (ck := nodeKey current) in *.
  assert (ck ≠ hexKey endQ endR) as Hne.
  { intros [= Hq Hr]. by rewrite Hq, Hr, !Z.eqb_refl in Hgoal. }
  assert (visiting R startQ startR endQ endR ck m
            (mkSearch rest ({[ck]} ∪ closedSet st) (cameFrom st) (gScore st) (fScore st)))
    as Hv.
  { destruct Hcore as [Hsc Hdom Hval Hst Hfrom Hsome (l1 & l2 & Hl & Hl1 & Hl2) Hcomp Hg].
    rewrite Hsort in Hdom, Hl. change (keys (current :: rest)) with (ck :: keys rest) in *.
    split_and!; simpl; [| | |set_solver|done].
    - constructor; simpl; try done.
      + intros k. rewrite Hdom. set_solver.
      + destruct l1 as [|x l1]; simpl in Hl.
        * subst l2. apply Forall_cons in Hl2 as [? _]. lia.
        * injection Hl as _ Hl. apply Forall_cons in Hl1 as [_ Hl1]. by exists l1, l2.
      + set_solver.
    - destruct Hsorted as [[z Hz]|H]; rewrite Hsort in *.
      + injection Hz as _ ->. constructor.
      + by apply Forall_cons in H as [_ H].
    - unfold closed_seen. simpl. intros c Hc Hcne. apply Hseen; [set_solver|tauto]. }
  apply (fold_visit_visiting current m
           (getNeighbors (HexGrid.new R) (node_q current) (node_r current))) in Hv
    as [(Hcore' & Hopen' & Hseen' & Hck' & _) Hnb].
  2: { intros n [Hn ?]%elem_of_getNeighbors. by apply isValidHex_spec in Hn. }
  assert (fold_left (visit endQ endR [] current)
            (getNeighbors (HexGrid.new R) (node_q current) (node_r current))
            (mkSearch rest ({[ck]} ∪ closedSet st) (cameFrom st) (gScore st) (fScore st))
          = expand (HexGrid.new R) endQ endR [] current rest st) as Hexp by done.
  rewrite Hexp in *. clear Hexp.
  set (st' := expand (HexGrid.new R) endQ endR [] current rest st) in *.
  assert (closed_seen R (λ _, False) st') as Hall.
  { intros c Hc _ q r Hqr Hadj. destruct (decide (c = ck)) as [->|Hcne].
    - apply (Hnb (mkHex q r)). apply elem_of_getNeighbors. simpl.
      split; [by apply isValidHex_spec|done].
    - by apply (Hseen' c). }
  pose proof Hcore' as Hcopy.
  destruct Hcopy as [_ Hdom' _ _ _ _ (l1 & l2 & Hl & Hl1 & Hl2) Hcomp' _].
  destruct l1 as [|x l1].
  - exists (m + 1). split_and!; [|by right|done|].
    + apply (bfs_core_level m); [done| |].
      * exists l2, []. rewrite app_nil_r. split_and!; [done|done|constructor].
      * intros q r Hqr Hle.
        destruct (Z_le_gt_dec (depth startQ startR (q, r)) m) as [?|Hgt]; [by apply Hcomp'|].
        destruct (step_towards R startQ startR q r start_valid Hqr) as (pq & pr & Hp & Hadj & Hd).
        { unfold depth in Hgt. simpl in Hgt. pose proof (getDistance_nonneg startQ startR
            (node_q current) (node_r current)). unfold depth in Hhead. simpl in Hhead. lia. }
        apply (Hall (pq, pr)); [|tauto|done|done].
        assert ((pq, pr) ∈ dom (gScore st')) as Hpd.
        { apply Hcomp'; [done|]. unfold depth in *. simpl in *. lia. }
        apply Hdom' in Hpd as [?|Hpo]; [done|]. rewrite Hl in Hpo. simpl in Hpo.
        rewrite Forall_forall in Hl2. apply Hl2 in Hpo.
        unfold depth in *. simpl in *. lia.
    + intros c rest' Ho. rewrite Ho in Hl. simpl in Hl. subst l2.
      by apply Forall_cons in Hl2 as [? _].
  - exists m. split_and!; [done|by right|done|].
    intros c rest' Ho. rewrite Ho in Hl. injection Hl as <- _.
    by apply Forall_cons in Hl1 as [? _].
Qed.

Lemma init_bfs z :
  bfs R startQ startR endQ endR
    (mkSearch [mkNode startQ startR (JS.Fin z)] ∅ ∅
       {[hexKey startQ startR := JS.Fin 0]} {[hexKey startQ startR := JS.Fin z]}).
Proof.
  exists 0. split_and!.
  - constructor; simpl.
    + intros k v [_ <-]%lookup_singleton_Some. by left.
    + intros k. rewrite dom_singleton, elem_of_singleton, list_elem_of_singleton.
      unfold nodeKey. simpl. set_solver.
    + intros k. rewrite dom_singleton, elem_of_singleton. by intros ->.
    + split; [rewrite dom_singleton; set_solver|done].
    + intros k p. by rewrite lookup_empty.
    + intros k. rewrite dom_singleton, elem_of_singleton. done.
    + exists [hexKey startQ startR], []. split_and!; [done| |constructor].
      apply Forall_singleton. apply getDistance_self.
    + intros q r _ Hd. rewrite dom_singleton, elem_of_singleton.
      pose proof (getDistance_nonneg startQ startR q r).
      assert (getDistance startQ startR q r = 0) as [-> ->]%getDistance_0
        by (unfold depth in Hd; simpl in Hd; lia).
      done.
    + set_solver.
  - left. by exists z.
  - intros c Hc. simpl in Hc. set_solver.
  - simpl. intros c rest [= <- _]. apply getDistance_self.
Qed.

Lemma init_frame z fs :
  frame (HexGrid.new R) (hexKey startQ startR)
    (mkSearch [mkNode startQ startR (JS.Fin z)] ∅ ∅ {[hexKey startQ startR := JS.Fin 0]} fs).
Proof.
  constructor; simpl.
  - apply NoDup_singleton.
  - intros k ->%list_elem_of_singleton. split; [set_solver|].
    unfold universe, nodeKey. simpl. set_solver.
  - set_solver.
Qed.

Lemma last_cons_default {A} (a b : A) l : List.last (b :: l) a = List.last l b.
Proof.
  revert a b. induction l as [|c l IH]; intros a b; [done|].
  change (List.last (b :: c :: l) a) with (List.last (c :: l) a).
  by rewrite (IH a c), (IH b c).
Qed.

Lemma walk_snoc a l k :
  walk (HexGrid.new R) a (l ++ [k]) ↔
  walk (HexGrid.new R) a l ∧ k ∈ getNeighbors (HexGrid.new R) (hex_q (List.last l a)) (hex_r (List.last l a)).
Proof.
  revert a. induction l as [|b l IH]; intros a.
  - simpl. tauto.
  - change (walk (HexGrid.new R) a ((b :: l) ++ [k]))
      with (b ∈ getNeighbors (HexGrid.new R) (hex_q a) (hex_r a) ∧ walk (HexGrid.new R) b (l ++ [k])).
    rewrite IH, last_cons_default. simpl. tauto.
Qed.

Lemma reconstruct_chain m st :
  bfs_core R startQ startR endQ endR m st →
  ∀ (n : nat) k acc fuel0,
    hexKeyOf k ∈ dom (gScore st) → depth startQ startR (hexKeyOf k) = Z.of_nat n → (n < fuel0)%nat →
    ∃ chain,
      reconstruct fuel0 (cameFrom st) (Some k) acc
      = Some (mkHex startQ startR :: chain ++ acc) ∧
      length chain = n ∧ walk (HexGrid.new R) (mkHex startQ startR) chain ∧
      List.last chain (mkHex startQ startR) = k.
Proof.
  intros [Hsc Hdom Hval [Hst Hst'] Hfrom Hsome _ _ _].
  induction n as [|n IH]; intros k acc fuel0 Hk Hd Hfuel;
    (destruct fuel0 as [|fuel0]; [lia|]); simpl.
  - assert (k = mkHex startQ startR) as ->.
    { unfold depth, hexKeyOf in Hd. simpl in Hd.
      apply getDistance_0 in Hd as [-> ->]. by destruct k. }
    unfold hexKey in *. simpl. rewrite Hst'. exists []. by destruct fuel0.
  - assert (hexKeyOf k ≠ hexKey startQ startR) as Hne.
    { intros Heq. rewrite Heq in Hd. unfold depth in Hd. simpl in Hd.
      rewrite getDistance_self in Hd. lia. }
    destruct (Hsome _ Hk Hne) as [p Hp].
    fold (hexKeyOf k). rewrite Hp.
    destruct (Hfrom _ _ Hp) as (_ & Hpd & Hadj & Hdp).
    destruct (IH p (k :: acc) fuel0 Hpd) as (chain & Hrec & Hlen & Hwalk & Hlast);
      [lia|lia|].
    exists (chain ++ [k]). split_and!.
    + by rewrite Hrec, <- app_assoc.
    + rewrite length_app. simpl. lia.
    + apply walk_snoc. split; [done|]. rewrite Hlast.
      apply elem_of_getNeighbors. split; [|done].
      apply isValidHex_spec. by apply (Hval (hexKeyOf k)).
    + apply last_last.
Qed.

Lemma all_closed st :
  bfs R startQ startR endQ endR st → openSet st = [] →
  ∀ (n : nat) q r, inGrid R q r → depth startQ startR (q, r) = Z.of_nat n → (q, r) ∈ closedSet st.
Proof.
  intros (m & Hcore & _ & Hseen & _) Hopen.
  assert (∀ k, k ∈ dom (gScore st) → k ∈ closedSet st) as Hdc.
  { intros k Hk. apply (bfs_dom _ _ _ _ _ _ _ Hcore) in Hk as [?|Hk]; [done|].
    rewrite Hopen in Hk. by apply elem_of_nil in Hk. }
  induction n as [|n IH]; intros q r Hqr Hd.
  - unfold depth in Hd. simpl in Hd. apply getDistance_0 in Hd as [<- <-].
    apply Hdc. apply (bfs_start _ _ _ _ _ _ _ Hcore).
  - destruct (step_towards R startQ startR q r start_valid Hqr) as (pq & pr & Hp & Hadj & Hdp).
    { unfold depth in Hd. simpl in Hd. lia. }
    apply Hdc. apply (Hseen (pq, pr)); [|tauto|done|done].
    apply IH; [done|]. unfold depth in *. simpl in *. lia.
Qed.

(** Without obstacles, from a start on the grid to a goal on the grid,
    the search returns a shortest walk. *)
Lemma findPath_unobstructed fuel :
  inGrid R endQ endR →
  (length (hexes (HexGrid.new R)) + 1 + Z.to_nat (getDistance startQ startR endQ endR) < fuel)%nat →
  ∃ path,
    findPath fuel (HexGrid.new R) startQ startR endQ endR [] = Some (Some path) ∧
    Z.of_nat (length path) = getDistance startQ startR endQ endR ∧
    walk (HexGrid.new R) (mkHex startQ startR) path ∧
    List.last path (mkHex startQ startR) = mkHex endQ endR.
Proof.
  intros Hend Hfuel. unfold findPath.
  pose proof (universe_size (HexGrid.new R) (hexKey startQ startR)) as Hsize.
  destruct (search_inv (HexGrid.new R) (hexKey startQ startR) endQ endR []
              (bfs R startQ startR endQ endR) fuel
              (λ st c rest HP _ Hs Hg, expand_bfs c rest st HP Hs Hg) fuel _
              (init_bfs (getDistance startQ startR endQ endR))
              (init_frame (getDistance startQ startR endQ endR) _))
    as (st' & Hbfs & Hframe & [[Hempty _]|(current & rest & Hsort & Hq & Hr & ->)]).
  { unfold unexplored. simpl. rewrite difference_empty_L. lia. }
  - exfalso.
    assert (openSet st' = []) as Hopen.
    { pose proof (sort_Permutation (λ a b, JS.sub (node_f a) (node_f b)) (openSet st')) as Hp.
      unfold sortOpen in Hempty. rewrite Hempty in Hp. by apply Permutation_nil in Hp. }
    pose proof (getDistance_nonneg startQ startR endQ endR) as Hnn.
    pose proof (all_closed st' Hbfs Hopen (Z.to_nat (getDistance startQ startR endQ endR))
                  endQ endR Hend) as Hin.
    destruct Hbfs as (m & Hcore & _).
    apply (bfs_goal _ _ _ _ _ _ _ Hcore). apply Hin. unfold depth. simpl. lia.
  - destruct Hbfs as (m & Hcore & Hsorted & _).
    rewrite (sortOpen_fixed _ Hsorted) in Hsort.
    pose proof (getDistance_nonneg startQ startR endQ endR) as Hnn.
    destruct (reconstruct_chain m st' Hcore
                (Z.to_nat (getDistance startQ startR endQ endR))
                (mkHex endQ endR) [] fuel) as (chain & Hrec & Hlen & Hwalk & Hlast).
    + apply (bfs_dom _ _ _ _ _ _ _ Hcore). right. rewrite Hsort.
      unfold hexKeyOf. simpl. rewrite <- Hq, <- Hr. by left.
    + unfold depth, hexKeyOf. simpl. lia.
    + lia.
    + rewrite Hrec. simpl. rewrite app_nil_r. exists chain. split_and!; [done|lia|done|done].
Qed.
End Bfs.

Lemma walk_last_depth g sq sr a path :
  walk g a path →
  getDistance sq sr (hex_q (List.last path a)) (hex_r (List.last path a))
  ≤ getDistance sq sr (hex_q a) (hex_r a) + Z.of_nat (length path).
Proof.
  revert a. induction path as [|b path IH]; intros a; [simpl; lia|].
  intros [[_ Hadj]%elem_of_getNeighbors Hw]. rewrite last_cons_default.
  specialize (IH b Hw). pose proof (getDistance_step sq sr _ _ _ _ Hadj).
  simpl length. lia.
Qed.

Lemma walk_app g a l1 x l2 :
  walk g a (l1 ++ x :: l2) → walk g x l2.
Proof.
  revert a. induction l1 as [|b l1 IH]; intros a; simpl; [tauto|].
  intros [_ Hw]. by apply (IH b).
Qed.

Lemma last_app_cons {A} (a : A) l1 x l2 :
  List.last (l1 ++ x :: l2) a = List.last l2 x.
Proof.
  revert a. induction l1 as [|b l1 IH]; intros a.
  - apply last_cons_default.
  - change ((b :: l1) ++ x :: l2) with (b :: (l1 ++ x :: l2)).
    by rewrite last_cons_default, IH.
Qed.

(** C1.  Between two grid coordinates at distance [d], without obstacles
    and with enough fuel, [findPath] returns a path: it has length [d], it
    goes from the start through neighboring grid coordinates and ends at the
    goal, it does not contain the start, and it is empty when the goal is
    the start. *)
Theorem findPath_empty_obstacles R startQ startR endQ endR fuel :
  isValidHex (HexGrid.new R) startQ startR = true →
  isValidHex (HexGrid.new R) endQ endR = true →
  (length (hexes (HexGrid.new R)) + 1 + Z.to_nat (getDistance startQ startR endQ endR) < fuel)%nat →
  ∃ path,
    findPath fuel (HexGrid.new R) startQ startR endQ endR [] = Some (Some path) ∧
    Z.of_nat (length path) = getDistance startQ startR endQ endR ∧
    walk (HexGrid.new R) (mkHex startQ startR) path ∧
    List.last path (mkHex startQ startR) = mkHex endQ endR ∧
    (mkHex startQ startR ∉ path) ∧
    (startQ = endQ → startR = endR → path = []).
Proof.
  intros Hs%isValidHex_spec He%isValidHex_spec Hfuel.
  destruct (findPath_unobstructed R startQ startR endQ endR Hs fuel He Hfuel)
    as (path & Hfind & Hlen & Hwalk & Hlast).
  exists path. split_and!; try done.
  - intros (l1 & l2 & Hsplit)%list_elem_of_split.
    pose proof (walk_last_depth (HexGrid.new R) startQ startR (mkHex startQ startR) l2) as Hd.
    rewrite Hsplit in Hwalk, Hlast, Hlen. apply walk_app in Hwalk.
    rewrite last_app_cons in Hlast. rewrite Hlast in Hd. simpl in Hd.
    rewrite getDistance_self in Hd. specialize (Hd Hwalk).
    rewrite length_app in Hlen. simpl in Hlen. lia.
  - intros -> ->. rewrite getDistance_self in Hlen. by destruct path.
Qed.

Lemma findPath_empty_obstacles_witness :
  ∃ path,
    findPath 200 (HexGrid.new 5) (-5) 0 5 0 [] = Some (Some path) ∧
    Z.of_nat (length path) = getDistance (-5) 0 5 0 ∧
    walk (HexGrid.new 5) (mkHex (-5) 0) path ∧
    List.last path (mkHex (-5) 0) = mkHex 5 0 ∧
    (mkHex (-5) 0 ∉ path) ∧
    (-5 = 5 → 0 = 0 → path = []).
Proof.
  apply (findPath_empty_obstacles 5 (-5) 0 5 0 200).
  - reflexivity.
  - reflexivity.
  - vm_compute. lia.
Defined.

Lemma unreachable_goal g startQ startR endQ endR obstacles fuel :
  isValidHex g endQ endR = false →
  hexKey startQ startR ≠ hexKey endQ endR →
  (length (hexes g) + 1 < fuel)%nat →
  findPath fuel g startQ startR endQ endR obstacles = Some None.
Proof.
  intros Hinvalid Hne Hfuel. unfold findPath.
  pose proof (universe_size g (hexKey startQ startR)) as Hsize.
  destruct (search_inv g (hexKey startQ startR) endQ endR obstacles
              (λ st, hexKey endQ endR ∉ keys (openSet st)) fuel) with
    (fuel := fuel)
    (st := mkSearch [mkNode startQ startR (JS.Fin (getDistance startQ startR endQ endR))] ∅ ∅
             {[hexKey startQ startR := JS.Fin 0]}
             {[hexKey startQ startR := JS.Fin (getDistance startQ startR endQ endR)]})
    as (st' & HP & _ & [[_ ->]|(current & rest & Hsort & Hq & Hr & _)]).
  - intros st current rest HP _ Hsort _ Hin.
    assert (∀ l st0, hexKey endQ endR ∈ keys (openSet (fold_left
                (visit endQ endR obstacles current) l st0)) →
              hexKey endQ endR ∈ keys (openSet st0) ∨
              ∃ n, n ∈ l ∧ hexKey (hex_q n) (hex_r n) = hexKey endQ endR) as Hfold.
    { induction l as [|n l IH]; intros st0 H0; simpl in H0; [by left|].
      apply IH in H0 as [H0|(n' & ? & ?)]; [|right; exists n'; split; [by right|done]].
      destruct (visit_openSet endQ endR obstacles current st0 n) as [Ho|(f & Ho & _)];
        rewrite Ho in H0; [by left|].
      unfold keys in H0. rewrite fmap_app, elem_of_app in H0.
      destruct H0 as [?|H0%list_elem_of_singleton]; [by left|].
      right. exists n. split; [by left|done]. }
    apply Hfold in Hin as [Hin|(n & Hn & Heq)].
    + simpl in Hin. apply HP. rewrite <- (sortOpen_keys (openSet st)), Hsort. by right.
    + apply elem_of_getNeighbors in Hn as [Hn _]. injection Heq as Hq Hr.
      rewrite Hq, Hr in Hn. congruence.
  - simpl. intros Heq%list_elem_of_singleton. symmetry in Heq. exact (Hne Heq).
  - constructor; simpl.
    + apply NoDup_singleton.
    + intros k ->%list_elem_of_singleton. split; [set_solver|].
      unfold universe, nodeKey. simpl. set_solver.
    + set_solver.
  - unfold unexplored. simpl. rewrite difference_empty_L. lia.
  - done.
  - exfalso. apply HP. rewrite <- (sortOpen_keys (openSet st')), Hsort.
    unfold nodeKey. rewrite <- Hq, <- Hr. by left.
Qed.

(** C3, as amended.  When the goal is off the grid and is not the start,
    [findPath] returns [null], whatever the obstacles and the start. *)
Theorem findPath_goal_outside g startQ startR endQ endR obstacles fuel :
  isValidHex g endQ endR = false →
  ¬ (startQ = endQ ∧ startR = endR) →
  (length (hexes g) + 1 < fuel)%nat →
  findPath fuel g startQ startR endQ endR obstacles = Some None.
Proof.
  intros Hinvalid Hne Hfuel. apply unreachable_goal; [done| |done].
  intros [= -> ->]. by apply Hne.
Qed.

Lemma findPath_goal_outside_witness :
  findPath 10 (HexGrid.new 1) 0 0 2 0 [mkHex 0 1] = Some None.
Proof.
  apply findPath_goal_outside.
  - reflexivity.
  - lia.
  - vm_compute. lia.
Defined.

(** C3 as stated.  On the grid of radius 1 the coordinate (2,0) is off the
    grid; a search that starts there reaches (0,0) through (1,0), and a
    search from (2,0) to itself returns the empty path. *)
Lemma findPath_start_outside_cex :
  isValidHex (HexGrid.new 1) 2 0 = false ∧
  findPath 10 (HexGrid.new 1) 2 0 0 0 [] = Some (Some [mkHex 1 0; mkHex 0 0]) ∧
  findPath 10 (HexGrid.new 1) 2 0 2 0 [] = Some (Some []).
Proof. by vm_compute. Qed.

(** * Path finding around obstacles *)

Section Astar.
Context (g : HexGrid.t) (obstacles : list Hex) (startQ startR endQ endR : Z).

Lemma visit_general current st n :
  (∃ v, gScore st !! nodeKey current = Some v ∧ (v = JS.Fin 0 ∨ v = JS.PInf)) →
  visit endQ endR obstacles current st n =
    if decide (hexKeyOf n ∈ closedSet st ∨
               isBlocked obstacles (hex_q n) (hex_r n) = true ∨
               is_Some (gScore st !! hexKeyOf n)) then st
    else
      mkSearch
        (if existsb (λ x, (node_q x =? hex_q n) && (node_r x =? hex_r n)) (openSet st)
         then openSet st
         else openSet st ++ [mkNode (hex_q n) (hex_r n) JS.PInf])
        (closedSet st)
        (<[hexKeyOf n := mkHex (node_q current) (node_r current)]> (cameFrom st))
        (<[hexKeyOf n := JS.PInf]> (gScore st))
        (<[hexKeyOf n := JS.PInf]> (fScore st)).
Proof.
  intros (v & Hv & Hv'). unfold visit, hexKeyOf. fold (nodeKey current). rewrite Hv.
  assert (JS.add (JS.or_Infinity (Some v)) (JS.Fin 1) = JS.PInf) as ->
    by (destruct Hv' as [-> | ->]; done).
  destruct (decide (hexKey (hex_q n) (hex_r n) ∈ closedSet st)) as [Hc|Hc].
  { rewrite decide_True by auto. done. }
  destruct (isBlocked obstacles (hex_q n) (hex_r n)) eqn:Hb.
  { rewrite decide_True by auto. done. }
  destruct (gScore st !! hexKey (hex_q n) (hex_r n)) as [e|] eqn:He.
  { rewrite decide_True by eauto. by destruct e. }
  rewrite decide_False; [done|]. intros [?|[?|[? ?]]]; done.
Qed.

Lemma visit_astar current seen st n :
  n ∈ getNeighbors g (node_q current) (node_r current) →
  astar_visiting g obstacles startQ startR endQ endR (nodeKey current) seen st →
  astar_visiting g obstacles startQ startR endQ endR (nodeKey current) (n :: seen)
    (visit endQ endR obstacles current st n).
Proof.
  intros Hn (depth & m & Hcore & Hopen & Hclear & Hck & Hm & Hseen).
  pose proof Hcore as [Hsc Hdom (Hst & Hst' & Hst'') Hfrom Hsome Hbound
                         (l1 & l2 & Hl & Hl1 & Hl2) Hclosed Hgoal].
  assert (∀ k, k ∈ dom (gScore st) → (depth k ≤ S m)%nat) as Hall.
  { intros k [Hk|Hk]%Hdom; [specialize (Hclosed k Hk); lia|].
    rewrite Hl in Hk. apply elem_of_app in Hk as [Hk|Hk].
    - rewrite Forall_forall in Hl1. rewrite (Hl1 k Hk). lia.
    - rewrite Forall_forall in Hl2. rewrite (Hl2 k Hk). lia. }
  rewrite visit_general.
  2: { assert (nodeKey current ∈ dom (gScore st)) as [v Hv]%elem_of_dom
         by (apply Hdom; by left).
       exists v. split; [done|]. by apply (Hsc (nodeKey current)). }
  case_decide as Hd.
  { exists depth, m. split_and!; try done.
    intros n' [->|Hn']%elem_of_cons Hb'; [|by apply Hseen].
    assert (hexKeyOf n ∈ dom (gScore st)) as Hnd.
    { destruct Hd as [Hd|[Hd|Hd]]; [apply Hdom; by left|congruence|by apply elem_of_dom]. }
    split; [done|by apply Hall]. }
  assert (hexKeyOf n ∉ closedSet st) as Hnc by (intros ?; apply Hd; by left).
  assert (isBlocked obstacles (hex_q n) (hex_r n) = false) as Hnb
    by (destruct (isBlocked _ _ _); [destruct Hd; auto|done]).
  assert (hexKeyOf n ∉ dom (gScore st)) as Hnd
    by (intros ?%elem_of_dom; apply Hd; auto).
  assert (hexKeyOf n ∉ keys (openSet st)) as Hno by (intros ?; apply Hnd, Hdom; by right).
  destruct (existsb _ (openSet st)) eqn:Hin.
  { apply inOpen_true in Hin. done. }
  assert (hexKeyOf n ≠ hexKey startQ startR) as Hns by (intros Heq; by rewrite Heq in Hnd).
  assert (size (dom (<[hexKeyOf n := JS.PInf]> (gScore st))) = S (size (dom (gScore st))))
    as Hsize.
  { rewrite !size_dom. apply map_size_insert_None. by apply not_elem_of_dom. }
  set (depth' := λ k, if decide (k = hexKeyOf n) then S m else depth k).
  assert (∀ k, k ∈ dom (gScore st) → depth' k = depth k) as Hold.
  { intros k Hk. unfold depth'. case_decide; [by subst|done]. }
  assert (depth' (hexKeyOf n) = S m) as Hnew by (unfold depth'; by rewrite decide_True).
  assert (nodeKey current ∈ dom (gScore st)) as Hckd by (apply Hdom; by left).
  exists depth', m. split_and!; simpl; try done.
  - constructor; simpl.
    + intros k v. rewrite lookup_insert. case_decide; [intros [= <-]; by right|apply Hsc].
    + intros k. unfold keys. rewrite dom_insert, fmap_app, elem_of_app, elem_of_union.
      rewrite Hdom. simpl. rewrite list_elem_of_singleton, elem_of_singleton.
      unfold keys, hexKeyOf, nodeKey. simpl. tauto.
    + split_and!; [rewrite dom_insert; set_solver|by rewrite lookup_insert_ne|].
      by rewrite Hold.
    + intros k p. rewrite lookup_insert. case_decide as Hk.
      * intros [= <-]. subst k. rewrite dom_insert.
        change (hexKeyOf (mkHex (node_q current) (node_r current))) with (nodeKey current).
        split_and!; [set_solver|done|by destruct n|done|].
        rewrite Hnew, Hold by done. by rewrite Hm.
      * intros Hp. destruct (Hfrom k p Hp) as (Hkd & Hpc & ? & ? & Hdp).
        rewrite dom_insert. split_and!; [set_solver|done|done|done|].
        rewrite !Hold; [done|apply Hdom; by left|done].
    + intros k. rewrite dom_insert, elem_of_union, elem_of_singleton, lookup_insert.
      intros Hk Hks. case_decide; [done|]. destruct Hk as [->|Hk]; [done|]. by apply Hsome.
    + intros k. rewrite Hsize, dom_insert, elem_of_union, elem_of_singleton.
      intros [->|Hk].
      * rewrite Hnew. specialize (Hbound _ Hckd). lia.
      * rewrite Hold by done. specialize (Hbound _ Hk). lia.
    + exists l1, (l2 ++ [hexKeyOf n]). unfold keys in *. rewrite fmap_app, Hl, <- app_assoc.
      split_and!; [done| |].
      * rewrite Forall_forall in Hl1 |- *. intros k Hk. rewrite Hold; [by apply Hl1|].
        apply Hdom. right. unfold keys. rewrite Hl. set_solver.
      * apply Forall_app. split; [|by apply Forall_singleton].
        rewrite Forall_forall in Hl2 |- *. intros k Hk. rewrite Hold; [by apply Hl2|].
        apply Hdom. right. unfold keys. rewrite Hl. set_solver.
    + intros c Hc. rewrite Hold; [by apply Hclosed|apply Hdom; by left].
    + done.
  - apply Forall_app. split; [done|]. by apply Forall_singleton.
  - unfold closed_clear. simpl. intros c Hc Hcne n' Hn' Hb'.
    destruct (Hclear c Hc Hcne n' Hn' Hb') as [Hd' Hle].
    rewrite dom_insert. split; [set_solver|].
    rewrite !Hold; [done|apply Hdom; by left|done].
  - by rewrite Hold.
  - intros n' [->|Hn']%elem_of_cons Hb'.
    + rewrite dom_insert, Hnew. split; [set_solver|lia].
    + destruct (Hseen n' Hn' Hb') as [Hd' Hle]. rewrite dom_insert.
      split; [set_solver|]. by rewrite Hold.
Qed.
End Astar.

Section AstarLoop.
Context (g : HexGrid.t) (obstacles : list Hex) (startQ startR endQ endR : Z).

Lemma fold_visit_astar current l seen st :
  (∀ n, n ∈ l → n ∈ getNeighbors g (node_q current) (node_r current)) →
  astar_visiting g obstacles startQ startR endQ endR (nodeKey current) seen st →
  astar_visiting g obstacles startQ startR endQ endR (nodeKey current) (reverse l ++ seen)
    (fold_left (visit endQ endR obstacles current) l st).
Proof.
  revert seen st. induction l as [|x l IH]; intros seen st Hl Hv; simpl; [done|].
  rewrite reverse_cons, <- app_assoc. simpl. apply IH; [intros; apply Hl; by right|].
  apply visit_astar; [|done]. apply Hl. by left.
Qed.

Lemma astar_core_level depth m m' st :
  astar_core g obstacles startQ startR endQ endR depth m st →
  (∃ l1 l2, keys (openSet st) = l1 ++ l2 ∧
     Forall (λ k, depth k = m') l1 ∧ Forall (λ k, depth k = S m') l2) →
  (∀ c, c ∈ closedSet st → (depth c ≤ m')%nat) →
  astar_core g obstacles startQ startR endQ endR depth m' st.
Proof. intros [] ? ?. by constructor. Qed.

Lemma expand_astar current rest st :
  astar g obstacles startQ startR endQ endR st →
  sortOpen (openSet st) = current :: rest →
  (node_q current =? endQ) && (node_r current =? endR) = false →
  astar g obstacles startQ startR endQ endR
    (expand g endQ endR obstacles current rest st).
Proof.
  intros (depth & m & Hcore & Hsorted & Hclear & Hhead) Hsort Hgoal.
  rewrite (sortOpen_fixed _ _ _ Hsorted) in Hsort.
  specialize (Hhead _ _ Hsort).
  set (ck := nodeKey current) in *.
  assert (ck ≠ hexKey endQ endR) as Hne.
  { intros [= Hq Hr]. by rewrite Hq, Hr, !Z.eqb_refl in Hgoal. }
  assert (astar_visiting g obstacles startQ startR endQ endR ck []
            (mkSearch rest ({[ck]} ∪ closedSet st) (cameFrom st) (gScore st) (fScore st)))
    as Hv.
  { exists depth, m.
    destruct Hcore as [Hsc Hdom Hst Hfrom Hsome Hbound (l1 & l2 & Hl & Hl1 & Hl2) Hclosed Hg].
    rewrite Hsort in Hdom, Hl. change (keys (current :: rest)) with (ck :: keys rest) in *.
    split_and!; simpl; [| | |set_solver|done|].
    - constructor; simpl; try done.
      + intros k. rewrite Hdom. set_solver.
      + intros k p Hp. destruct (Hfrom k p Hp) as (? & ? & ? & ? & ?).
        split_and!; [done|set_solver|done|done|done].
      + destruct l1 as [|x l1]; simpl in Hl.
        * subst l2. apply Forall_cons in Hl2 as [? _]. lia.
        * injection Hl as _ Hl. apply Forall_cons in Hl1 as [_ Hl1]. by exists l1, l2.
      + intros c [->%elem_of_singleton|Hc]%elem_of_union; [lia|by apply Hclosed].
      + set_solver.
    - destruct Hsorted as [[z Hz]|H]; rewrite Hsort in *.
      + injection Hz as _ ->. constructor.
      + by apply Forall_cons in H as [_ H].
    - unfold closed_clear. simpl. intros c Hc Hcne. apply Hclear; [set_solver|tauto].
    - intros n Hn. by apply elem_of_nil in Hn. }
  apply (fold_visit_astar current
           (getNeighbors g (node_q current) (node_r current))) in Hv; [|done].
  assert (fold_left (visit endQ endR obstacles current)
            (getNeighbors g (node_q current) (node_r current))
            (mkSearch rest ({[ck]} ∪ closedSet st) (cameFrom st) (gScore st) (fScore st))
          = expand g endQ endR obstacles current rest st) as Hexp by done.
  rewrite Hexp in *. clear Hexp.
  set (st' := expand g endQ endR obstacles current rest st) in *.
  destruct Hv as (depth' & m' & Hcore' & Hopen' & Hclear' & Hck' & Hm' & Hseen').
  assert (closed_clear g obstacles depth' (λ _, False) st') as Hall.
  { intros c Hc _ n Hn Hb. destruct (decide (c = ck)) as [->|Hcne].
    - fold ck in Hm'. rewrite Hm'. apply Hseen'; [|done]. rewrite app_nil_r.
      apply elem_of_reverse. exact Hn.
    - by apply (Hclear' c). }
  pose proof Hcore' as Hcopy.
  destruct Hcopy as [_ Hdom' _ _ _ _ (l1 & l2 & Hl & Hl1 & Hl2) Hclosed' _].
  destruct l1 as [|x l1].
  - exists depth', (S m'). split_and!; [|by right|done|].
    + apply (astar_core_level depth' m'); [done| |].
      * exists l2, []. rewrite app_nil_r. split_and!; [done|done|constructor].
      * intros c Hc. specialize (Hclosed' c Hc). lia.
    + intros c rest' Ho. rewrite Ho in Hl. simpl in Hl. subst l2.
      by apply Forall_cons in Hl2 as [? _].
  - exists depth', m'. split_and!; [done|by right|done|].
    intros c rest' Ho. rewrite Ho in Hl. injection Hl as <- _.
    by apply Forall_cons in Hl1 as [? _].
Qed.

Lemma init_astar z :
  astar g obstacles startQ startR endQ endR
    (mkSearch [mkNode startQ startR (JS.Fin z)] ∅ ∅
       {[hexKey startQ startR := JS.Fin 0]} {[hexKey startQ startR := JS.Fin z]}).
Proof.
  exists (λ _, O), O. split_and!.
  - constructor; simpl.
    + intros k v [_ <-]%lookup_singleton_Some. by left.
    + intros k. rewrite dom_singleton, elem_of_singleton, list_elem_of_singleton.
      unfold nodeKey. simpl. set_solver.
    + split_and!; [rewrite dom_singleton; set_solver|done|done].
    + intros k p. by rewrite lookup_empty.
    + intros k. rewrite dom_singleton, elem_of_singleton. done.
    + intros k _. rewrite dom_singleton_L, size_singleton. lia.
    + exists [hexKey startQ startR], []. split_and!; [done| |constructor].
      by apply Forall_singleton.
    + set_solver.
    + set_solver.
  - left. by exists z.
  - intros c Hc. simpl in Hc. set_solver.
  - done.
Qed.

Lemma clearWalk_snoc a l k :
  clearWalk g obstacles a (l ++ [k]) ↔
  clearWalk g obstacles a l ∧
  k ∈ getNeighbors g (hex_q (List.last l a)) (hex_r (List.last l a)) ∧
  isBlocked obstacles (hex_q k) (hex_r k) = false.
Proof.
  revert a. induction l as [|b l IH]; intros a.
  - simpl. tauto.
  - change (clearWalk g obstacles a ((b :: l) ++ [k]))
      with (b ∈ getNeighbors g (hex_q a) (hex_r a) ∧
            isBlocked obstacles (hex_q b) (hex_r b) = false ∧
            clearWalk g obstacles b (l ++ [k])).
    rewrite IH, last_cons_default. simpl. tauto.
Qed.

Lemma astar_chain depth m st :
  astar_core g obstacles startQ startR endQ endR depth m st →
  ∀ (n : nat) k acc fuel0,
    hexKeyOf k ∈ dom (gScore st) → depth (hexKeyOf k) = n → (n < fuel0)%nat →
    ∃ chain,
      reconstruct fuel0 (cameFrom st) (Some k) acc
      = Some (mkHex startQ startR :: chain ++ acc) ∧
      clearWalk g obstacles (mkHex startQ startR) chain ∧
      List.last chain (mkHex startQ startR) = k ∧
      (depth ∘ hexKeyOf) <$> chain = seq 1 n.
Proof.
  intros [Hsc Hdom (Hst & Hst' & Hst'') Hfrom Hsome _ _ _ _].
  induction n as [|n IH]; intros k acc fuel0 Hk Hd Hfuel;
    (destruct fuel0 as [|fuel0]; [lia|]); simpl.
  - assert (hexKeyOf k = hexKey startQ startR) as Hks.
    { destruct (decide (hexKeyOf k = hexKey startQ startR)) as [|Hne]; [done|].
      destruct (Hsome _ Hk Hne) as [p Hp].
      destruct (Hfrom _ _ Hp) as (_ & _ & _ & _ & Hdp). lia. }
    assert (k = mkHex startQ startR) as -> by (destruct k; by injection Hks as -> ->).
    unfold hexKey in *. simpl. rewrite Hst'. exists []. by destruct fuel0.
  - assert (hexKeyOf k ≠ hexKey startQ startR) as Hne.
    { intros Heq. rewrite Heq in Hd. lia. }
    destruct (Hsome _ Hk Hne) as [p Hp].
    fold (hexKeyOf k). rewrite Hp.
    destruct (Hfrom _ _ Hp) as (_ & Hpc & Hadj & Hb & Hdp).
    destruct (IH p (k :: acc) fuel0) as (chain & Hrec & Hwalk & Hlast & Hdepths);
      [apply Hdom; by left|lia|lia|].
    exists (chain ++ [k]). split_and!.
    + by rewrite Hrec, <- app_assoc.
    + apply clearWalk_snoc. rewrite Hlast. split_and!; [done| |done]. by destruct k.
    + apply last_last.
    + rewrite fmap_app, Hdepths. simpl. rewrite Hd.
      change (seq 1 n ++ [S n] = seq 1 (S n)). by rewrite (seq_S n 1).
Qed.
End AstarLoop.

Lemma reconstruct_mono fuel fuel' cf curr acc p :
  reconstruct fuel cf curr acc = Some p → (fuel ≤ fuel')%nat →
  reconstruct fuel' cf curr acc = Some p.
Proof.
  revert fuel' curr acc. induction fuel as [|fuel IH]; intros fuel' curr acc Hr Hle.
  - destruct curr; [done|]. simpl in Hr. by destruct fuel'.
  - destruct curr as [c|]; [|by destruct fuel'].
    destruct fuel' as [|fuel']; [lia|]. simpl in *. apply IH; [done|lia].
Qed.

Lemma search_mono fuel0 fuel0' fuel fuel' g endQ endR obstacles st res :
  search fuel0 fuel g endQ endR obstacles st = Some res →
  (fuel0 ≤ fuel0')%nat → (fuel ≤ fuel')%nat →
  search fuel0' fuel' g endQ endR obstacles st = Some res.
Proof.
  intros Hs H0. revert fuel' st Hs.
  induction fuel as [|fuel IH]; intros fuel' st Hs Hle; [done|].
  destruct fuel' as [|fuel']; [lia|]. simpl in *.
  destruct (sortOpen (openSet st)) as [|current rest]; [done|].
  destruct ((node_q current =? endQ) && (node_r current =? endR)).
  - destruct (reconstruct fuel0 _ _ _) as [p|] eqn:Hr; [|done].
    by rewrite (reconstruct_mono _ fuel0' _ _ _ _ Hr H0).
  - apply IH; [done|lia].
Qed.

Section SearchStops.
Context (g : HexGrid.t) (start : Z * Z) (endQ endR : Z) (obstacles : list Hex).

(** Whatever the fuel, an invariant of the loop body holds in the state in
    which the loop stopped, if it did. *)
Lemma search_stops (P : Search → Prop) fuel0 :
  (∀ st current rest,
     P st → frame g start st → sortOpen (openSet st) = current :: rest →
     (node_q current =? endQ) && (node_r current =? endR) = false →
     P (expand g endQ endR obstacles current rest st)) →
  ∀ fuel st res, P st → frame g start st →
  search fuel0 fuel g endQ endR obstacles st = Some res →
  ∃ st', P st' ∧ frame g start st' ∧
    ((sortOpen (openSet st') = [] ∧ res = None) ∨
     (∃ current rest path,
        sortOpen (openSet st') = current :: rest ∧
        node_q current = endQ ∧ node_r current = endR ∧
        reconstruct fuel0 (cameFrom st') (Some (mkHex endQ endR)) [] = Some path ∧
        res = Some (tail path))).
Proof.
  intros Hstep. induction fuel as [|fuel IH]; intros st res HP Hf Hs; [done|].
  simpl in Hs. destruct (sortOpen (openSet st)) as [|current rest] eqn:Hsort.
  { exists st. split_and!; [done|done|]. left. split; [done|congruence]. }
  destruct ((node_q current =? endQ) && (node_r current =? endR)) eqn:Hgoal.
  { exists st. split_and!; [done|done|]. right.
    destruct (reconstruct fuel0 _ _ _) as [path|] eqn:Hr; [|done].
    exists current, rest, path.
    apply andb_true_iff in Hgoal as [?%Z.eqb_eq ?%Z.eqb_eq].
    split_and!; [done|done|done|done|]. simpl in Hs. congruence. }
  destruct (expand_frame g start endQ endR obstacles current rest st Hf Hsort) as [Hf' _].
  apply (IH (expand g endQ endR obstacles current rest st) res);
    [by apply Hstep|done|done].
Qed.
End SearchStops.

Lemma init_frame_any g startQ startR z fs :
  frame g (hexKey startQ startR)
    (mkSearch [mkNode startQ startR (JS.Fin z)] ∅ ∅ {[hexKey startQ startR := JS.Fin 0]} fs).
Proof.
  constructor; simpl.
  - apply NoDup_singleton.
  - intros k ->%list_elem_of_singleton. split; [set_solver|].
    unfold universe, nodeKey. simpl. set_solver.
  - set_solver.
Qed.

Lemma sortOpen_nil l : sortOpen l = [] → l = [].
Proof.
  intros H.
  pose proof (sort_Permutation (λ a b, JS.sub (node_f a) (node_f b)) l) as Hp.
  unfold sortOpen in H. rewrite H in Hp. by apply Permutation_nil in Hp.
Qed.

Section AstarResult.
Context (g : HexGrid.t) (obstacles : list Hex) (startQ startR endQ endR : Z).

(** Once the queue is empty, no obstacle-free walk leaves the closed set. *)
Lemma closed_walk depth m st :
  astar_core g obstacles startQ startR endQ endR depth m st →
  closed_clear g obstacles depth (λ _, False) st →
  openSet st = [] →
  ∀ path a, hexKeyOf a ∈ closedSet st → clearWalk g obstacles a path →
    hexKeyOf (List.last path a) ∈ closedSet st.
Proof.
  intros Hcore Hclear Hopen.
  induction path as [|b path IH]; intros a Ha Hw; [done|].
  destruct Hw as (Hb & Hnb & Hw). rewrite last_cons_default. apply IH; [|done].
  destruct (Hclear _ Ha (λ x, x) b Hb Hnb) as [Hd _].
  apply (as_dom _ _ _ _ _ _ _ _ _ Hcore) in Hd as [?|Hd]; [done|].
  rewrite Hopen in Hd. by apply elem_of_nil in Hd.
Qed.

(** An obstacle-free walk of [length path] steps ends no deeper than that,
    unless it is as long as the depth of the front of the queue. *)
Lemma walk_depth depth m st :
  astar_core g obstacles startQ startR endQ endR depth m st →
  closed_clear g obstacles depth (λ _, False) st →
  ∀ path a (d : nat), hexKeyOf a ∈ dom (gScore st) → (depth (hexKeyOf a) ≤ d)%nat →
    clearWalk g obstacles a path →
    (hexKeyOf (List.last path a) ∈ dom (gScore st) ∧
     (depth (hexKeyOf (List.last path a)) ≤ d + length path)%nat) ∨
    (m ≤ d + length path)%nat.
Proof.
  intros Hcore Hclear.
  induction path as [|b path IH]; intros a d Ha Hd Hw.
  { left. simpl. split; [done|lia]. }
  destruct Hw as (Hb & Hnb & Hw). rewrite last_cons_default. simpl.
  destruct (decide (depth (hexKeyOf a) < m)%nat) as [Hlt|Hge]; [|right; lia].
  assert (hexKeyOf a ∈ closedSet st) as Hc.
  { apply (as_dom _ _ _ _ _ _ _ _ _ Hcore) in Ha as [?|Hk]; [done|]. exfalso.
    destruct (as_levels _ _ _ _ _ _ _ _ _ Hcore) as (l1 & l2 & Hl & Hl1 & Hl2).
    rewrite Hl, elem_of_app in Hk. rewrite Forall_forall in Hl1, Hl2.
    destruct Hk as [Hk|Hk]; [apply Hl1 in Hk|apply Hl2 in Hk]; lia. }
  destruct (Hclear _ Hc (λ x, x) b Hb Hnb) as [Hbd Hbdepth].
  destruct (IH b (S d) Hbd ltac:(lia) Hw) as [[? ?]|?]; [left; split; [done|lia]|right; lia].
Qed.

(** What [findPath] returns is right, whatever the fuel. *)
Lemma findPath_spec fuel res :
  findPath fuel g startQ startR endQ endR obstacles = Some res →
  match res with
  | None =>
      ∀ other, clearWalk g obstacles (mkHex startQ startR) other →
               List.last other (mkHex startQ startR) ≠ mkHex endQ endR
  | Some path =>
      clearWalk g obstacles (mkHex startQ startR) path ∧
      List.last path (mkHex startQ startR) = mkHex endQ endR ∧
      NoDup (mkHex startQ startR :: path) ∧
      ∀ other, clearWalk g obstacles (mkHex startQ startR) other →
               List.last other (mkHex startQ startR) = mkHex endQ endR →
               (length path ≤ length other)%nat
  end.
Proof.
  unfold findPath. intros Hs.
  destruct (search_stops g (hexKey startQ startR) endQ endR obstacles
              (astar g obstacles startQ startR endQ endR) fuel
              (λ st c rest HP _ Hsort Hg,
                 expand_astar g obstacles startQ startR endQ endR c rest st HP Hsort Hg)
              fuel _ res
              (init_astar g obstacles startQ startR endQ endR
                 (getDistance startQ startR endQ endR))
              (init_frame_any g startQ startR _ _) Hs)
    as (st' & (depth & m & Hcore & Hsorted & Hclear & Hhead) & Hframe &
        [[Hempty ->]|(current & rest & path & Hsort & Hq & Hr & Hrec & ->)]).
  - apply sortOpen_nil in Hempty. intros other Hw Hlast.
    apply (as_goal _ _ _ _ _ _ _ _ _ Hcore).
    change (hexKey endQ endR) with (hexKeyOf (mkHex endQ endR)). rewrite <- Hlast.
    apply (closed_walk depth m st' Hcore Hclear Hempty); [|done].
    destruct (as_start _ _ _ _ _ _ _ _ _ Hcore) as (Hst & _).
    apply (as_dom _ _ _ _ _ _ _ _ _ Hcore) in Hst as [?|Hk]; [done|].
    rewrite Hempty in Hk. by apply elem_of_nil in Hk.
  - rewrite (sortOpen_fixed _ _ _ Hsorted) in Hsort.
    specialize (Hhead _ _ Hsort).
    assert (nodeKey current = hexKeyOf (mkHex endQ endR)) as Hkey.
    { unfold nodeKey, hexKeyOf. simpl. by rewrite Hq, Hr. }
    rewrite Hkey in Hhead.
    assert (hexKeyOf (mkHex endQ endR) ∈ dom (gScore st')) as Hdom.
    { apply (as_dom _ _ _ _ _ _ _ _ _ Hcore). right. rewrite Hsort, <- Hkey. by left. }
    destruct (astar_chain g obstacles startQ startR endQ endR depth m st' Hcore m
                (mkHex endQ endR) [] (fuel + S m) Hdom Hhead ltac:(lia))
      as (chain & Hrec' & Hwalk & Hlast & Hdepths).
    rewrite (reconstruct_mono _ (fuel + S m) _ _ _ _ Hrec ltac:(lia)) in Hrec'.
    injection Hrec' as ->. rewrite app_nil_r. simpl.
    assert (length chain = m) as Hlen.
    { apply (f_equal length) in Hdepths. by rewrite length_fmap, length_seq in Hdepths. }
    split_and!; [done|done| |].
    + apply NoDup_cons. split.
      * intros Hin. apply (list_elem_of_fmap_2 (depth ∘ hexKeyOf)) in Hin.
        rewrite Hdepths in Hin. simpl in Hin.
        destruct (as_start _ _ _ _ _ _ _ _ _ Hcore) as (_ & _ & Hd0).
        unfold hexKeyOf in Hin. simpl in Hin. rewrite Hd0 in Hin.
        apply list_elem_of_In, in_seq in Hin. lia.
      * apply (NoDup_fmap_1 (depth ∘ hexKeyOf)). rewrite Hdepths.
        apply NoDup_ListNoDup, seq_NoDup.
    + intros other Hw Hlast'.
      destruct (as_start _ _ _ _ _ _ _ _ _ Hcore) as (Hst & _ & Hd0).
      destruct (walk_depth depth m st' Hcore Hclear other (mkHex startQ startR) 0
                  Hst ltac:(unfold hexKeyOf; simpl; lia) Hw) as [[_ Hle]|Hle].
      * rewrite Hlast', Hhead in Hle. lia.
      * lia.
Qed.

(** With fuel beyond the size of the grid, [findPath] returns. *)
Lemma findPath_returns fuel :
  (length (hexes g) + 1 < fuel)%nat →
  ∃ res, findPath fuel g startQ startR endQ endR obstacles = Some res.
Proof.
  intros Hfuel. unfold findPath.
  pose proof (universe_size g (hexKey startQ startR)) as Hsize.
  destruct (search_inv g (hexKey startQ startR) endQ endR obstacles
              (astar g obstacles startQ startR endQ endR) fuel
              (λ st c rest HP _ Hsort Hg,
                 expand_astar g obstacles startQ startR endQ endR c rest st HP Hsort Hg)
              fuel _
              (init_astar g obstacles startQ startR endQ endR
                 (getDistance startQ startR endQ endR))
              (init_frame_any g startQ startR _ _))
    as (st' & (depth & m & Hcore & Hsorted & Hclear & Hhead) & Hframe &
        [[_ ->]|(current & rest & Hsort & Hq & Hr & ->)]).
  { unfold unexplored. simpl. rewrite difference_empty_L. lia. }
  { by eexists. }
  rewrite (sortOpen_fixed _ _ _ Hsorted) in Hsort.
  specialize (Hhead _ _ Hsort).
  assert (nodeKey current = hexKeyOf (mkHex endQ endR)) as Hkey.
  { unfold nodeKey, hexKeyOf. simpl. by rewrite Hq, Hr. }
  rewrite Hkey in Hhead.
  assert (hexKeyOf (mkHex endQ endR) ∈ dom (gScore st')) as Hdom.
  { apply (as_dom _ _ _ _ _ _ _ _ _ Hcore). right. rewrite Hsort, <- Hkey. by left. }
  assert (dom (gScore st') ⊆ universe g (hexKey startQ startR)) as Hsub.
  { intros k Hk. apply (as_dom _ _ _ _ _ _ _ _ _ Hcore) in Hk as [Hk|Hk].
    - by apply (frame_closed _ _ _ Hframe).
    - by apply (frame_open _ _ _ Hframe). }
  apply subseteq_size in Hsub.
  pose proof (as_bound _ _ _ _ _ _ _ _ _ Hcore _ Hdom) as Hb. rewrite Hhead in Hb.
  destruct (astar_chain g obstacles startQ startR endQ endR depth m st' Hcore m
              (mkHex endQ endR) [] fuel Hdom Hhead ltac:(lia))
    as (chain & -> & _).
  by eexists.
Qed.
End AstarResult.

(** X1.  Whatever the grid, the obstacles, the start and the goal,
    [findPath] returns once the fuel exceeds the number of grid coordinates
    by more than one, and more fuel does not change what it returns: every
    round of the [while] loop closes a coordinate that is never opened
    again. *)
Theorem findPath_terminates g startQ startR endQ endR obstacles fuel :
  (length (hexes g) + 1 < fuel)%nat →
  ∃ res,
    findPath fuel g startQ startR endQ endR obstacles = Some res ∧
    ∀ fuel', (fuel ≤ fuel')%nat →
      findPath fuel' g startQ startR endQ endR obstacles = Some res.
Proof.
  intros Hfuel.
  destruct (findPath_returns g obstacles startQ startR endQ endR fuel Hfuel) as [res Hres].
  exists res. split; [done|]. intros fuel' Hle. unfold findPath in *.
  by apply (search_mono fuel fuel' fuel fuel').
Qed.

Lemma findPath_terminates_witness :
  ∃ res,
    findPath 9 (HexGrid.new 1) (-1) 0 1 0 [mkHex 0 0] = Some res ∧
    ∀ fuel', (9 ≤ fuel')%nat →
      findPath fuel' (HexGrid.new 1) (-1) 0 1 0 [mkHex 0 0] = Some res.
Proof. apply findPath_terminates. vm_compute. lia. Defined.

(** X2.  A path that [findPath] returns leads from the start through
    neighboring grid coordinates, none of them an obstacle, ends at the
    goal, and passes neither twice through a coordinate nor through the
    start. *)
Theorem findPath_path_clear g startQ startR endQ endR obstacles fuel path :
  findPath fuel g startQ startR endQ endR obstacles = Some (Some path) →
  clearWalk g obstacles (mkHex startQ startR) path ∧
  List.last path (mkHex startQ startR) = mkHex endQ endR ∧
  NoDup (mkHex startQ startR :: path).
Proof.
  intros H. apply findPath_spec in H. tauto.
Qed.

Lemma findPath_path_clear_witness :
  clearWalk (HexGrid.new 1) [mkHex 0 0] (mkHex (-1) 0) [mkHex 0 (-1); mkHex 1 (-1); mkHex 1 0] ∧
  List.last [mkHex 0 (-1); mkHex 1 (-1); mkHex 1 0] (mkHex (-1) 0) = mkHex 1 0 ∧
  NoDup [mkHex (-1) 0; mkHex 0 (-1); mkHex 1 (-1); mkHex 1 0].
Proof. apply (findPath_path_clear _ _ _ _ _ _ 9). reflexivity. Defined.

(** X3.  No walk from the start to the goal through neighboring grid
    coordinates that are not obstacles is shorter than the path that
    [findPath] returns, obstacles or not. *)
Theorem findPath_path_shortest g startQ startR endQ endR obstacles fuel path other :
  findPath fuel g startQ startR endQ endR obstacles = Some (Some path) →
  clearWalk g obstacles (mkHex startQ startR) other →
  List.last other (mkHex startQ startR) = mkHex endQ endR →
  (length path ≤ length other)%nat.
Proof.
  intros H. apply findPath_spec in H. destruct H as (_ & _ & _ & H). apply H.
Qed.

Lemma findPath_path_shortest_witness :
  (length [mkHex 0 (-1); mkHex 1 (-1); mkHex 1 0]
   ≤ length [mkHex (-1) 1; mkHex 0 1; mkHex 1 0])%nat.
Proof.
  apply (findPath_path_shortest (HexGrid.new 1) (-1) 0 1 0 [mkHex 0 0] 9).
  - reflexivity.
  - simpl. split_and!; try done; apply list_elem_of_In; vm_compute; tauto.
  - reflexivity.
Defined.

(** X4.  With fuel beyond the size of the grid, [findPath] returns [null]
    exactly when no walk through neighboring grid coordinates that are not
    obstacles leads from the start to the goal. *)
Theorem findPath_null_iff_unreachable g startQ startR endQ endR obstacles fuel :
  (length (hexes g) + 1 < fuel)%nat →
  findPath fuel g startQ startR endQ endR obstacles = Some None ↔
  ∀ other, clearWalk g obstacles (mkHex startQ startR) other →
           List.last other (mkHex startQ startR) ≠ mkHex endQ endR.
Proof.
  intros Hfuel. split.
  - intros H. by apply findPath_spec in H.
  - intros Hun.
    destruct (findPath_returns g obstacles startQ startR endQ endR fuel Hfuel)
      as [[path|] Hres]; [|done].
    apply findPath_spec in Hres as (Hw & Hlast & _). by destruct (Hun path Hw).
Qed.

Lemma findPath_null_iff_unreachable_witness :
  findPath 9 (HexGrid.new 1) (-1) 0 1 0 [mkHex 0 0; mkHex 0 (-1); mkHex 0 1] = Some None ↔
  ∀ other,
    clearWalk (HexGrid.new 1) [mkHex 0 0; mkHex 0 (-1); mkHex 0 1] (mkHex (-1) 0) other →
    List.last other (mkHex (-1) 0) ≠ mkHex 1 0.
Proof. apply findPath_null_iff_unreachable. vm_compute. lia. Defined.

Lemma clearWalk_last_clear g obstacles a path :
  clearWalk g obstacles a path → path ≠ [] →
  isBlocked obstacles (hex_q (List.last path a)) (hex_r (List.last path a)) = false.
Proof.
  revert a. induction path as [|b path IH]; intros a Hw Hne; [done|].
  destruct Hw as (_ & Hb & Hw). rewrite last_cons_default.
  destruct path as [|c path]; [done|]. by apply IH.
Qed.

(** X5.  A goal that is itself an obstacle, and is not the start, is not
    reached: [findPath] returns [null]. *)
Theorem findPath_blocked_goal g startQ startR endQ endR obstacles fuel :
  isBlocked obstacles endQ endR = true →
  ¬ (startQ = endQ ∧ startR = endR) →
  (length (hexes g) + 1 < fuel)%nat →
  findPath fuel g startQ startR endQ endR obstacles = Some None.
Proof.
  intros Hb Hne Hfuel.
  destruct (findPath_returns g obstacles startQ startR endQ endR fuel Hfuel)
    as [[path|] Hres]; [|done].
  apply findPath_spec in Hres as (Hw & Hlast & _).
  destruct path as [|b path]; [injection Hlast as ? ?; tauto|].
  apply clearWalk_last_clear in Hw; [|done]. rewrite Hlast in Hw. simpl in Hw. congruence.
Qed.

Lemma findPath_blocked_goal_witness :
  findPath 9 (HexGrid.new 1) (-1) 0 1 0 [mkHex 1 0] = Some None.
Proof. apply findPath_blocked_goal; [reflexivity|lia|vm_compute; lia]. Defined.

(** * More on the grid *)

Lemma length_bind_singleton {A B} (f : A → B) (l : list A) :
  length (l ≫= λ x, [f x]) = length l.
Proof. induction l as [|x l IH]; [done|]. rewrite bind_cons. simpl. by rewrite IH. Qed.

(** The length of a list built by a loop whose round [q] adds [a + b * q]
    elements. *)
Lemma length_bind_seqZ {A} (f : Z → list A) (a b m : Z) (n : nat) :
  (∀ q, m ≤ q < m + Z.of_nat n → Z.of_nat (length (f q)) = a + b * q) →
  2 * Z.of_nat (length (seqZ m (Z.of_nat n) ≫= f))
  = Z.of_nat n * (2 * a + b * (2 * m + Z.of_nat n - 1)).
Proof.
  induction n as [|n IH]; intros Hf; [done|].
  rewrite seqZ_S, bind_app, length_app, Nat2Z.inj_add.
  rewrite Z.mul_add_distr_l, IH by (intros; apply Hf; lia).
  rewrite bind_cons. simpl. rewrite app_nil_r, Hf by lia. lia.
Qed.

Lemma generateHexGrid_length R :
  0 ≤ R → Z.of_nat (length (generateHexGrid R)) = 3 * R * R + 3 * R + 1.
Proof.
  intros HR. unfold generateHexGrid.
  match goal with |- context [seqZ _ _ ≫= ?f] => set (row := f) end.
  assert (∀ q, - R ≤ q ≤ R → Z.of_nat (length (row q)) = 2 * R + 1 - Z.abs q) as Hrow.
  { intros q Hq. unfold row. rewrite length_bind_singleton, length_seqZ. lia. }
  replace (R - - R + 1) with (R + (R + 1)) by lia.
  rewrite seqZ_app, bind_app, length_app, Nat2Z.inj_add by lia.
  replace (- R + R) with 0 by lia.
  pose proof (length_bind_seqZ row (2 * R + 1) 1 (- R) (Z.to_nat R)) as H1.
  pose proof (length_bind_seqZ row (2 * R + 1) (- 1) 0 (Z.to_nat (R + 1))) as H2.
  rewrite !Z2Nat.id in H1, H2 by lia.
  specialize (H1 ltac:(intros; rewrite Hrow; lia)).
  specialize (H2 ltac:(intros; rewrite Hrow; lia)).
  lia.
Qed.

Lemma generateHexGrid_NoDup R :
  NoDup ((λ c, mkHex (cube_q c) (cube_r c)) <$> generateHexGrid R).
Proof.
  apply NoDup_fmap_2_strong.
  - intros [q1 r1 s1] [q2 r2 s2] [H1 _]%elem_of_generateHexGrid
      [H2 _]%elem_of_generateHexGrid [= -> ->]. simpl in *. by subst.
  - unfold generateHexGrid. apply NoDup_bind; [| |apply NoDup_seqZ].
    + intros q1 q2 c _ _ (r1 & ->%list_elem_of_singleton & _)%list_elem_of_bind
        (r2 & [= -> _]%list_elem_of_singleton & _)%list_elem_of_bind. done.
    + intros q _. apply NoDup_bind; [| |apply NoDup_seqZ].
      * intros r1 r2 c _ _ ->%list_elem_of_singleton [= ->]%list_elem_of_singleton. done.
      * intros r _. apply NoDup_singleton.
Qed.

(** X6.  The grid of radius [R] has [3 R^2 + 3 R + 1] cells, no two of
    them with the same [q] and [r], each with [q + r + s = 0]; and
    [isValidHex] holds exactly of the coordinates at distance [R] at most
    from the origin. *)
Theorem generateHexGrid_cells R :
  0 ≤ R →
  Z.of_nat (length (generateHexGrid R)) = 3 * R * R + 3 * R + 1 ∧
  NoDup ((λ c, mkHex (cube_q c) (cube_r c)) <$> generateHexGrid R) ∧
  (∀ c, c ∈ generateHexGrid R → cube_q c + cube_r c + cube_s c = 0) ∧
  (∀ q r, isValidHex (HexGrid.new R) q r = true ↔ getDistance 0 0 q r ≤ R).
Proof.
  intros HR. split_and!.
  - by apply generateHexGrid_length.
  - apply generateHexGrid_NoDup.
  - intros c Hc%elem_of_generateHexGrid. lia.
  - intros q r. rewrite isValidHex_spec, getDistance_max. unfold inGrid. lia.
Qed.

Lemma generateHexGrid_cells_witness :
  Z.of_nat (length (generateHexGrid 5)) = 3 * 5 * 5 + 3 * 5 + 1 ∧
  NoDup ((λ c, mkHex (cube_q c) (cube_r c)) <$> generateHexGrid 5) ∧
  (∀ c, c ∈ generateHexGrid 5 → cube_q c + cube_r c + cube_s c = 0) ∧
  (∀ q r, isValidHex (HexGrid.new 5) q r = true ↔ getDistance 0 0 q r ≤ 5).
Proof. apply generateHexGrid_cells. lia. Defined.

(** X7.  [getNeighbors] returns at most six coordinates, all different,
    never the coordinate itself; and a grid coordinate is a neighbor of each
    of its neighbors. *)
Theorem getNeighbors_facts g q r :
  NoDup (getNeighbors g q r) ∧
  (length (getNeighbors g q r) ≤ 6)%nat ∧
  (mkHex q r ∉ getNeighbors g q r) ∧
  (∀ h, h ∈ getNeighbors g q r → isValidHex g q r = true →
        mkHex q r ∈ getNeighbors g (hex_q h) (hex_r h)).
Proof.
  split_and!.
  - unfold getNeighbors. apply NoDup_ListNoDup, List.NoDup_filter, NoDup_ListNoDup.
    simpl. repeat (apply NoDup_cons; split); [..|apply NoDup_nil_2];
      set_unfold; intros H; destruct_or?; try done; injection H; lia.
  - unfold getNeighbors.
    etransitivity; [apply List.filter_length_le|]. by rewrite length_map.
  - intros [_ H]%elem_of_getNeighbors. unfold adjacent in H. simpl in H. lia.
  - intros h [_ H]%elem_of_getNeighbors Hv. apply elem_of_getNeighbors.
    split; [done|]. unfold adjacent in *. simpl. lia.
Qed.

Lemma filter_length_all {A} (f : A → bool) (l : list A) :
  length (List.filter f l) = length l ↔ ∀ x, x ∈ l → f x = true.
Proof.
  induction l as [|x l IH]; simpl.
  - split; [|done]. intros _ x Hx. by apply elem_of_nil in Hx.
  - pose proof (List.filter_length_le f l) as Hle. destruct (f x) eqn:Hx; simpl.
    + split.
      * intros Hl y [->|Hy]%elem_of_cons; [done|]. apply IH; [lia|done].
      * intros Hall. f_equal. apply IH. intros y Hy. apply Hall. by right.
    + split; [lia|]. intros Hall. rewrite Hall in Hx; [done|by left].
Qed.

(** X8.  A grid coordinate has fewer than six neighbors, which is how
    the scene tells an edge cell, exactly when it lies at distance [R] from
    the origin. *)
Theorem getNeighbors_interior R q r :
  isValidHex (HexGrid.new R) q r = true →
  (length (getNeighbors (HexGrid.new R) q r) < 6)%nat ↔ getDistance q r 0 0 = R.
Proof.
  intros Hv%isValidHex_spec.
  assert (length (getNeighbors (HexGrid.new R) q r) ≤ 6)%nat as Hle.
  { unfold getNeighbors. etransitivity; [apply List.filter_length_le|].
    by rewrite length_map. }
  assert (length (getNeighbors (HexGrid.new R) q r) = 6%nat ↔ getDistance q r 0 0 < R)
    as Hsix.
  { unfold getNeighbors.
    replace 6%nat with
      (length (map (λ dir, mkHex (q + hex_q dir) (r + hex_r dir)) directions)) at 1
      by by rewrite length_map.
    rewrite filter_length_all, getDistance_max. unfold inGrid in Hv. split.
    - intros Hall.
      assert (∀ dq dr, mkHex dq dr ∈ directions → inGrid R (q + dq) (r + dr)) as Hin.
      { intros dq dr Hd. apply isValidHex_spec.
        apply (Hall (mkHex (q + dq) (r + dr))).
        apply list_elem_of_fmap. by exists (mkHex dq dr). }
      pose proof (Hin 1 0 ltac:(set_solver)). pose proof (Hin 1 (-1) ltac:(set_solver)).
      pose proof (Hin 0 (-1) ltac:(set_solver)). pose proof (Hin (-1) 0 ltac:(set_solver)).
      pose proof (Hin (-1) 1 ltac:(set_solver)). pose proof (Hin 0 1 ltac:(set_solver)).
      unfold inGrid in *. lia.
    - intros Hd h (d & -> & Hdir)%list_elem_of_fmap. simpl.
      apply isValidHex_spec. unfold inGrid.
      assert (-1 ≤ hex_q d ≤ 1 ∧ -1 ≤ hex_r d ≤ 1 ∧ -1 ≤ hex_q d + hex_r d ≤ 1) as Hb.
      { unfold directions in Hdir. set_unfold. destruct_or!; subst; simpl; lia. }
      lia. }
  assert (getDistance q r 0 0 ≤ R) by (rewrite getDistance_max; unfold inGrid in Hv; lia).
  lia.
Qed.

Lemma getNeighbors_interior_witness :
  (length (getNeighbors (HexGrid.new 5) 5 (-2)) < 6)%nat ↔ getDistance 5 (-2) 0 0 = 5.
Proof. apply getNeighbors_interior. reflexivity. Defined.

Lemma getDistance_triangle q1 r1 q2 r2 q3 r3 :
  getDistance q1 r1 q3 r3 ≤ getDistance q1 r1 q2 r2 + getDistance q2 r2 q3 r3.
Proof.
  pose proof (getDistance_even q1 r1 q3 r3). pose proof (getDistance_even q1 r1 q2 r2).
  pose proof (getDistance_even q2 r2 q3 r3).
  lia.
Qed.

Lemma getDistance_translate q1 r1 q2 r2 dq dr :
  getDistance (q1 + dq) (r1 + dr) (q2 + dq) (r2 + dr) = getDistance q1 r1 q2 r2.
Proof.
  unfold getDistance. f_equal. f_equal; [f_equal|]; f_equal; lia.
Qed.

(** X9.  [getDistance] is a metric on the coordinates that translations
    keep: it is never negative, zero only between a coordinate and itself,
    it obeys the triangle inequality, and it is the largest of the three
    cube coordinate differences. *)
Theorem getDistance_metric q1 r1 q2 r2 q3 r3 :
  0 ≤ getDistance q1 r1 q2 r2 ∧
  (getDistance q1 r1 q2 r2 = 0 ↔ q1 = q2 ∧ r1 = r2) ∧
  getDistance q1 r1 q3 r3 ≤ getDistance q1 r1 q2 r2 + getDistance q2 r2 q3 r3 ∧
  getDistance (q1 + q3) (r1 + r3) (q2 + q3) (r2 + r3) = getDistance q1 r1 q2 r2 ∧
  getDistance q1 r1 q2 r2 =
    Z.max (Z.abs (q1 - q2)) (Z.max (Z.abs (r1 - r2)) (Z.abs (- q1 - r1 - (- q2 - r2)))).
Proof.
  split_and!.
  - apply getDistance_nonneg.
  - apply getDistance_0.
  - apply getDistance_triangle.
  - apply getDistance_translate.
  - rewrite getDistance_max. lia.
Qed.

(** X10.  [getHexesInRange] lists, each once, exactly the grid
    coordinates at distance [range] at most. *)
Theorem getHexesInRange_spec g q r range :
  NoDup (getHexesInRange g q r range) ∧
  ∀ h, h ∈ getHexesInRange g q r range ↔
       isValidHex g (hex_q h) (hex_r h) = true ∧
       getDistance q r (hex_q h) (hex_r h) ≤ range.
Proof.
  split.
  - unfold getHexesInRange. apply NoDup_bind; [| |apply NoDup_seqZ].
    + intros dq1 dq2 h _ _ (dr1 & H1 & _)%list_elem_of_bind (dr2 & H2 & _)%list_elem_of_bind.
      simpl in H1, H2.
      destruct (isValidHex g (q + dq1) (r + dr1)); [|by apply elem_of_nil in H1].
      destruct (isValidHex g (q + dq2) (r + dr2)); [|by apply elem_of_nil in H2].
      apply list_elem_of_singleton in H1, H2. subst h. injection H2 as ? ?. lia.
    + intros dq _. apply NoDup_bind; [| |apply NoDup_seqZ].
      * intros dr1 dr2 h _ _ H1 H2. simpl in H1, H2.
        destruct (isValidHex g (q + dq) (r + dr1)); [|by apply elem_of_nil in H1].
        destruct (isValidHex g (q + dq) (r + dr2)); [|by apply elem_of_nil in H2].
        apply list_elem_of_singleton in H1, H2. subst h. injection H2 as ?. lia.
      * intros dr _. simpl. destruct (isValidHex _ _ _); [apply NoDup_singleton|constructor].
  - intros h. unfold getHexesInRange. rewrite list_elem_of_bind, getDistance_max. split.
    + intros (dq & (dr & Hh & Hdr%elem_of_seqZ)%list_elem_of_bind & Hdq%elem_of_seqZ).
      simpl in Hh. destruct (isValidHex g (q + dq) (r + dr)) eqn:Hv;
        [|by apply elem_of_nil in Hh].
      apply list_elem_of_singleton in Hh as ->. simpl. split; [done|lia].
    + intros [Hv Hd]. exists (hex_q h - q). split; [|apply elem_of_seqZ; lia].
      apply list_elem_of_bind. exists (hex_r h - r). split; [|apply elem_of_seqZ; lia].
      simpl. replace (q + (hex_q h - q)) with (hex_q h) by lia.
      replace (r + (hex_r h - r)) with (hex_r h) by lia.
      rewrite Hv. destruct h. by apply list_elem_of_singleton.
Qed.

(** * The samples of a line *)

Lemma Math_round_unique x z :
  (inject_Z z - (1 # 2) <= x)%Q → (x < inject_Z z + (1 # 2))%Q → JS.Math_round x = z.
Proof.
  intros H1 H2. destruct (Math_round_bounds x) as [H3 H4].
  assert (inject_Z (JS.Math_round x) < inject_Z (z + 1))%Q as H5
    by (rewrite inject_Z_plus; change (inject_Z 1) with 1%Q; lra).
  assert (inject_Z z < inject_Z (JS.Math_round x + 1))%Q as H6
    by (rewrite inject_Z_plus; change (inject_Z 1) with 1%Q; lra).
  rewrite <- Zlt_Qlt in H5, H6. lia.
Qed.

Lemma Math_round_plus x z : JS.Math_round (x + inject_Z z) = JS.Math_round x + z.
Proof.
  destruct (Math_round_bounds x) as [H1 H2].
  apply Math_round_unique; rewrite inject_Z_plus; lra.
Qed.

(** Two numbers whose sum is an integer are rounded with the same error. *)
Lemma roundingError_sum x y k :
  (x + y == inject_Z k)%Q → (roundingError x == roundingError y)%Q.
Proof.
  intros Hsum. unfold roundingError, JS.Math_abs.
  destruct (Math_round_bounds x) as [Hx1 Hx2].
  destruct (Math_round_bounds y) as [Hy1 Hy2].
  set (n := JS.Math_round x + JS.Math_round y - k).
  assert (inject_Z n == inject_Z (JS.Math_round x) - x + (inject_Z (JS.Math_round y) - y))%Q
    as Hn.
  { unfold n, Z.sub. rewrite !inject_Z_plus, inject_Z_opp. lra. }
  assert (inject_Z (-1) < inject_Z n)%Q as Hlo
    by (change (inject_Z (-1)) with (- (1))%Q; lra).
  assert (inject_Z n < inject_Z 2)%Q as Hhi by (change (inject_Z 2) with 2%Q; lra).
  rewrite <- Zlt_Qlt in Hlo, Hhi.
  assert (n = 0 ∨ n = 1) as [Hz|Hz] by lia; rewrite Hz in Hn.
  - change (inject_Z 0) with 0%Q in Hn.
    assert (inject_Z (JS.Math_round x) - x == - (inject_Z (JS.Math_round y) - y))%Q as ->
      by lra.
    apply Qabs_opp.
  - change (inject_Z 1) with 1%Q in Hn.
    assert (inject_Z (JS.Math_round x) - x == 1 # 2)%Q as -> by lra.
    assert (inject_Z (JS.Math_round y) - y == 1 # 2)%Q as -> by lra.
    reflexivity.
Qed.

Lemma roundingError_nonneg x : (0 <= roundingError x)%Q.
Proof. apply Qabs_nonneg. Qed.

(** The rounding of a cube coordinate triple that sums to zero and has an
    integer among its coordinates. *)
Lemma roundCube_integral_q q r s K :
  (q == inject_Z K)%Q → (q + r + s == 0)%Q →
  roundCube q r s = mkHex K (JS.Math_round r).
Proof.
  intros Hq Hsum. unfold roundCube.
  fold (roundingError q) (roundingError r) (roundingError s).
  pose proof (roundingError_inject q K Hq) as Heq.
  pose proof (roundingError_sum r s (- K)) as Hrs.
  rewrite inject_Z_opp in Hrs. specialize (Hrs ltac:(lra)).
  pose proof (roundingError_nonneg r) as Hr0.
  destruct (JS.gtb (roundingError q) (roundingError r)) eqn:H1.
  { apply gtb_true in H1. lra. }
  destruct (JS.gtb (roundingError r) (roundingError s)) eqn:H2.
  { apply gtb_true in H2. lra. }
  simpl. by rewrite (Math_round_inject q K Hq).
Qed.

Lemma roundCube_integral_r q r s K :
  (r == inject_Z K)%Q → (q + r + s == 0)%Q →
  roundCube q r s = mkHex (JS.Math_round q) K.
Proof.
  intros Hr Hsum. unfold roundCube.
  fold (roundingError q) (roundingError r) (roundingError s).
  pose proof (roundingError_inject r K Hr) as Her.
  pose proof (roundingError_sum q s (- K)) as Hqs.
  rewrite inject_Z_opp in Hqs. specialize (Hqs ltac:(lra)).
  pose proof (roundingError_nonneg s) as Hs0.
  destruct (JS.gtb (roundingError q) (roundingError s)) eqn:H1.
  { apply gtb_true in H1. lra. }
  destruct (JS.gtb (roundingError r) (roundingError s)) eqn:H2.
  { apply gtb_true in H2. lra. }
  rewrite andb_false_r. by rewrite (Math_round_inject r K Hr).
Qed.

Lemma roundCube_integral_s q r s K :
  (s == inject_Z K)%Q → (q + r + s == 0)%Q →
  roundCube q r s = mkHex (JS.Math_round q) (- JS.Math_round q - K).
Proof.
  intros Hs Hsum. unfold roundCube.
  fold (roundingError q) (roundingError r) (roundingError s).
  pose proof (roundingError_inject s K Hs) as Hes.
  pose proof (roundingError_sum q r (- K)) as Hqr.
  rewrite inject_Z_opp in Hqr. specialize (Hqr ltac:(lra)).
  rewrite (Math_round_inject s K Hs).
  destruct (JS.gtb (roundingError q) (roundingError r)) eqn:H1.
  { apply gtb_true in H1. lra. }
  simpl. destruct (JS.gtb (roundingError r) (roundingError s)) eqn:H2; [done|].
  apply gtb_false in H2. f_equal.
  assert (roundingError r <= 0)%Q as Hr0 by lra.
  assert (roundingError q <= 0)%Q as Hq0 by lra.
  apply roundingError_zero in Hr0, Hq0.
  apply inject_Z_injective. unfold Z.sub. rewrite inject_Z_plus, !inject_Z_opp. lra.
Qed.

Lemma Math_round_interp (a d N i : Z) :
  0 < N →
  JS.Math_round (inject_Z a + inject_Z d * (inject_Z i / inject_Z N)) = a + rnd N d i.
Proof.
  intros HN. unfold rnd.
  assert (0 < inject_Z N)%Q as HNQ by (change 0%Q with (inject_Z 0); by rewrite <- Zlt_Qlt).
  assert (¬ inject_Z N == 0)%Q as HN0 by lra.
  pose proof (Z.div_mod (2 * d * i + N) (2 * N) ltac:(lia)) as Hdm.
  pose proof (Z.mod_pos_bound (2 * d * i + N) (2 * N) ltac:(lia)) as Hmod.
  set (k := (2 * d * i + N) / (2 * N)) in *.
  assert (inject_Z (2 * N * k) <= inject_Z (2 * d * i + N))%Q as H1
    by (rewrite <- Zle_Qle; lia).
  assert (inject_Z (2 * d * i + N) < inject_Z (2 * N * k + 2 * N))%Q as H2
    by (rewrite <- Zlt_Qlt; lia).
  repeat (rewrite ?inject_Z_plus, ?inject_Z_mult in H1).
  repeat (rewrite ?inject_Z_plus, ?inject_Z_mult in H2).
  change (inject_Z 2) with 2%Q in *.
  set (t := (inject_Z d * (inject_Z i / inject_Z N))%Q).
  assert (t * inject_Z N == inject_Z d * inject_Z i)%Q as Ht by (unfold t; field; done).
  assert (inject_Z k - (1 # 2) <= t)%Q as Hlo.
  { apply (Qmult_le_r _ _ (inject_Z N)); [done|]. rewrite Ht. lra. }
  assert (t < inject_Z k + (1 # 2))%Q as Hhi.
  { apply (Qmult_lt_r _ _ (inject_Z N)); [done|]. rewrite Ht. lra. }
  apply Math_round_unique; rewrite inject_Z_plus; lra.
Qed.

Lemma rnd_bounds N d i :
  0 < N → 0 ≤ i ≤ N → - N ≤ d ≤ N →
  (d = N → rnd N d i = i) ∧ (d = - N → rnd N d i = - i) ∧
  (0 ≤ d → 0 ≤ rnd N d i ≤ i ∧ d - (N - i) ≤ rnd N d i ≤ d) ∧
  (d ≤ 0 → - i ≤ rnd N d i ≤ 0 ∧ d ≤ rnd N d i ≤ d + (N - i)).
Proof.
  intros HN Hi Hd. unfold rnd.
  pose proof (Z.div_mod (2 * d * i + N) (2 * N) ltac:(lia)) as Hdm.
  pose proof (Z.mod_pos_bound (2 * d * i + N) (2 * N) ltac:(lia)) as Hmod.
  set (k := (2 * d * i + N) / (2 * N)) in *.
  set (m := (2 * d * i + N) mod (2 * N)) in *.
  split_and!.
  - intros ->. nia.
  - intros ->. nia.
  - intros Hd0. split_and!; nia.
  - intros Hd0. split_and!; nia.
Qed.

Lemma rnd_step N d i :
  0 < N → 0 ≤ i < N → - N ≤ d ≤ N →
  (0 ≤ d → rnd N d i ≤ rnd N d (i + 1) ≤ rnd N d i + 1) ∧
  (d ≤ 0 → rnd N d i - 1 ≤ rnd N d (i + 1) ≤ rnd N d i).
Proof.
  intros HN Hi Hd. unfold rnd.
  pose proof (Z.div_mod (2 * d * i + N) (2 * N) ltac:(lia)) as Hdm.
  pose proof (Z.mod_pos_bound (2 * d * i + N) (2 * N) ltac:(lia)) as Hmod.
  pose proof (Z.div_mod (2 * d * (i + 1) + N) (2 * N) ltac:(lia)) as Hdm'.
  pose proof (Z.mod_pos_bound (2 * d * (i + 1) + N) (2 * N) ltac:(lia)) as Hmod'.
  set (k := (2 * d * i + N) / (2 * N)) in *.
  set (m := (2 * d * i + N) mod (2 * N)) in *.
  set (k' := (2 * d * (i + 1) + N) / (2 * N)) in *.
  set (m' := (2 * d * (i + 1) + N) mod (2 * N)) in *.
  split; intros Hd0; split; nia.
Qed.

Lemma rnd_pos N d i :
  0 < N → 0 ≤ i ≤ N → 0 ≤ d ≤ N →
  0 ≤ rnd N d i ≤ i ∧ d - (N - i) ≤ rnd N d i ≤ d.
Proof.
  intros HN Hi Hd. destruct (rnd_bounds N d i HN Hi ltac:(lia)) as (_ & _ & H & _).
  apply H. lia.
Qed.

Lemma rnd_neg N d i :
  0 < N → 0 ≤ i ≤ N → - N ≤ d ≤ 0 →
  - i ≤ rnd N d i ≤ 0 ∧ d ≤ rnd N d i ≤ d + (N - i).
Proof.
  intros HN Hi Hd. destruct (rnd_bounds N d i HN Hi ltac:(lia)) as (_ & _ & _ & H).
  apply H. lia.
Qed.

Lemma rnd_step_pos N d i :
  0 < N → 0 ≤ i < N → 0 ≤ d ≤ N → rnd N d i ≤ rnd N d (i + 1) ≤ rnd N d i + 1.
Proof.
  intros HN Hi Hd. destruct (rnd_step N d i HN Hi ltac:(lia)) as [H _]. apply H. lia.
Qed.

Lemma rnd_step_neg N d i :
  0 < N → 0 ≤ i < N → - N ≤ d ≤ 0 → rnd N d i - 1 ≤ rnd N d (i + 1) ≤ rnd N d i.
Proof.
  intros HN Hi Hd. destruct (rnd_step N d i HN Hi ltac:(lia)) as [_ H]. apply H. lia.
Qed.

Lemma getDistance_shift q r x y x' y' :
  getDistance (q + x) (r + y) (q + x') (r + y') = getDistance x y x' y'.
Proof. unfold getDistance. f_equal. f_equal; [f_equal|]; f_equal; lia. Qed.

Lemma interp_sum_delta (q1 r1 dq dr : Z) (t : Q) :
  (inject_Z q1 + inject_Z dq * t
   + (inject_Z r1 + inject_Z dr * t)
   + (inject_Z (- q1 - r1) + inject_Z (- dq - dr) * t) == 0)%Q.
Proof. unfold Z.sub. repeat (rewrite ?inject_Z_plus, ?inject_Z_opp). ring. Qed.

(** The samples of a line, relative to its start: sample [i] is [i] steps
    from the start and [N - i] steps from the end, and the next sample is a
    neighbor. *)
Lemma line_shape (q1 r1 dq dr N : Z) :
  0 < N →
  - N ≤ dq ≤ N → - N ≤ dr ≤ N → - N ≤ dq + dr ≤ N →
  dq = N ∨ dq = - N ∨ dr = N ∨ dr = - N ∨ - dq - dr = N ∨ - dq - dr = - N →
  ∃ fx fy : Z → Z,
    (∀ i, 0 ≤ i ≤ N →
       roundCube
         (inject_Z q1 + inject_Z dq * (inject_Z i / inject_Z N))
         (inject_Z r1 + inject_Z dr * (inject_Z i / inject_Z N))
         (inject_Z (- q1 - r1) + inject_Z (- dq - dr) * (inject_Z i / inject_Z N))
       = mkHex (q1 + fx i) (r1 + fy i)) ∧
    (∀ i, 0 ≤ i ≤ N →
       getDistance 0 0 (fx i) (fy i) = i ∧
       getDistance (fx i) (fy i) dq dr = N - i) ∧
    (∀ i, 0 ≤ i < N → adjacent (fx i) (fy i) (fx (i + 1)) (fy (i + 1))).
Proof.
  intros HN Hbq Hbr Hbs Hd.
  assert (N ≠ 0) as HN0 by lia.
  destruct Hd as [Hd|[Hd|[Hd|[Hd|[Hd|Hd]]]]].
  - exists (λ i, i), (rnd N dr). split_and!.
    + intros i Hi. subst.
      rewrite (roundCube_integral_q _ _ _ (q1 + i));
        [|by apply interp_pos|apply interp_sum_delta].
      by rewrite Math_round_interp.
    + intros i Hi. pose proof (rnd_neg N dr i HN Hi ltac:(lia)).
      rewrite !getDistance_max. lia.
    + intros i Hi. pose proof (rnd_step_neg N dr i HN Hi ltac:(lia)).
      unfold adjacent. lia.
  - exists (λ i, - i), (rnd N dr). split_and!.
    + intros i Hi. subst.
      rewrite (roundCube_integral_q _ _ _ (q1 - i));
        [|by apply interp_neg|apply interp_sum_delta].
      rewrite Math_round_interp by done. f_equal; lia.
    + intros i Hi. pose proof (rnd_pos N dr i HN Hi ltac:(lia)).
      rewrite !getDistance_max. lia.
    + intros i Hi. pose proof (rnd_step_pos N dr i HN Hi ltac:(lia)).
      unfold adjacent. lia.
  - exists (rnd N dq), (λ i, i). split_and!.
    + intros i Hi. subst.
      rewrite (roundCube_integral_r _ _ _ (r1 + i));
        [|by apply interp_pos|apply interp_sum_delta].
      by rewrite Math_round_interp.
    + intros i Hi. pose proof (rnd_neg N dq i HN Hi ltac:(lia)).
      rewrite !getDistance_max. lia.
    + intros i Hi. pose proof (rnd_step_neg N dq i HN Hi ltac:(lia)).
      unfold adjacent. lia.
  - exists (rnd N dq), (λ i, - i). split_and!.
    + intros i Hi. subst.
      rewrite (roundCube_integral_r _ _ _ (r1 - i));
        [|by apply interp_neg|apply interp_sum_delta].
      rewrite Math_round_interp by done. f_equal; lia.
    + intros i Hi. pose proof (rnd_pos N dq i HN Hi ltac:(lia)).
      rewrite !getDistance_max. lia.
    + intros i Hi. pose proof (rnd_step_pos N dq i HN Hi ltac:(lia)).
      unfold adjacent. lia.
  - exists (rnd N dq), (λ i, - rnd N dq i - i). split_and!.
    + intros i Hi.
      rewrite (roundCube_integral_s _ _ _ (- q1 - r1 + i));
        [|rewrite Hd; by apply interp_pos|apply interp_sum_delta].
      rewrite Math_round_interp by done. f_equal; lia.
    + intros i Hi. pose proof (rnd_neg N dq i HN Hi ltac:(lia)).
      rewrite !getDistance_max. lia.
    + intros i Hi. pose proof (rnd_step_neg N dq i HN ltac:(lia) ltac:(lia)).
      unfold adjacent. lia.
  - exists (rnd N dq), (λ i, - rnd N dq i + i). split_and!.
    + intros i Hi.
      rewrite (roundCube_integral_s _ _ _ (- q1 - r1 - i));
        [|rewrite Hd; by apply interp_neg|apply interp_sum_delta].
      rewrite Math_round_interp by done. f_equal; lia.
    + intros i Hi. pose proof (rnd_pos N dq i HN Hi ltac:(lia)).
      rewrite !getDistance_max. lia.
    + intros i Hi. pose proof (rnd_step_pos N dq i HN ltac:(lia) ltac:(lia)).
      unfold adjacent. lia.
Qed.

Lemma getHexLine_lookup q1 r1 q2 r2 (i : nat) h :
  let N := getDistance q1 r1 q2 r2 in
  0 < N →
  getHexLine q1 r1 q2 r2 !! i = Some h ↔
  Z.of_nat i ≤ N ∧
  h = roundCube
        (inject_Z q1 + inject_Z (q2 - q1) * (inject_Z (Z.of_nat i) / inject_Z N))
        (inject_Z r1 + inject_Z (r2 - r1) * (inject_Z (Z.of_nat i) / inject_Z N))
        (inject_Z (- q1 - r1)
         + inject_Z (- (q2 - q1) - (r2 - r1)) * (inject_Z (Z.of_nat i) / inject_Z N)).
Proof.
  intros N HN. unfold getHexLine. fold N.
  destruct (Z.eqb_spec N 0) as [|_]; [lia|].
  replace (- q2 - r2 - (- q1 - r1)) with (- (q2 - q1) - (r2 - r1)) by lia.
  rewrite list_lookup_fmap. split.
  - destruct (seqZ 0 (N + 1) !! i) as [j|] eqn:Hj; [|done].
    apply lookup_seqZ in Hj as [-> Hi]. rewrite Z.add_0_l. simpl.
    intros [= <-]. split; [lia|done].
  - intros [Hi ->].
    assert (seqZ 0 (N + 1) !! i = Some (Z.of_nat i)) as ->.
    { apply lookup_seqZ. lia. }
    done.
Qed.

(** The samples of a line walk from its start to its end by the shortest
    way. *)
Lemma getHexLine_walk q1 r1 q2 r2 :
  let N := getDistance q1 r1 q2 r2 in
  length (getHexLine q1 r1 q2 r2) = S (Z.to_nat N) ∧
  (∀ (i : nat) h, getHexLine q1 r1 q2 r2 !! i = Some h →
     getDistance q1 r1 (hex_q h) (hex_r h) = Z.of_nat i ∧
     getDistance (hex_q h) (hex_r h) q2 r2 = N - Z.of_nat i) ∧
  (∀ (i : nat) h h',
     getHexLine q1 r1 q2 r2 !! i = Some h →
     getHexLine q1 r1 q2 r2 !! S i = Some h' →
     adjacent (hex_q h) (hex_r h) (hex_q h') (hex_r h')).
Proof.
  intros N. pose proof (getDistance_nonneg q1 r1 q2 r2) as Hnn. fold N in Hnn.
  split; [rewrite length_getHexLine; fold N; lia|].
  destruct (decide (N = 0)) as [HN|HN].
  { assert (getHexLine q1 r1 q2 r2 = [mkHex q1 r1]) as ->.
    { unfold getHexLine. fold N. by rewrite HN. }
    pose proof HN as HN'. apply getDistance_0 in HN' as [<- <-]. split.
    - intros [|i] h [= <-]; simpl. rewrite getDistance_self. lia.
    - intros [|i] h h' _ [=]. }
  pose proof (getDistance_max q1 r1 q2 r2) as Hmax. fold N in Hmax.
  destruct (line_shape q1 r1 (q2 - q1) (r2 - r1) N) as (fx & fy & Hform & Hdist & Hadj);
    [lia..|].
  clear Hmax.
  assert (∀ (i : nat) h, getHexLine q1 r1 q2 r2 !! i = Some h →
            Z.of_nat i ≤ N ∧ h = mkHex (q1 + fx (Z.of_nat i)) (r1 + fy (Z.of_nat i))) as Hat.
  { intros i h [Hi ->]%getHexLine_lookup; [|fold N; lia]. fold N in Hi |- *.
    split; [done|]. apply Hform. lia. }
  split.
  - intros i h [Hi ->]%Hat. simpl.
    destruct (Hdist (Z.of_nat i) ltac:(lia)) as [H1 H2]. split.
    + rewrite <- (Z.add_0_r q1) at 1. rewrite <- (Z.add_0_r r1) at 1.
      by rewrite getDistance_shift.
    + replace q2 with (q1 + (q2 - q1)) at 1 by lia.
      replace r2 with (r1 + (r2 - r1)) at 1 by lia.
      by rewrite getDistance_shift.
  - intros i h h' [Hi ->]%Hat [Hi' ->]%Hat. simpl.
    specialize (Hadj (Z.of_nat i) ltac:(lia)).
    replace (Z.of_nat i + 1) with (Z.of_nat (S i)) in Hadj by lia.
    clear -Hadj. unfold adjacent in *. lia.
Qed.

(** X11.  The line that [getHexLine] draws between two coordinates at
    distance [N] has [N + 1] samples; sample [i] lies [i] steps from the
    start and [N - i] steps from the end, so the line starts at the one and
    ends at the other, and each sample is adjacent to the next. *)
Theorem getHexLine_shortest_walk q1 r1 q2 r2 :
  let N := getDistance q1 r1 q2 r2 in
  length (getHexLine q1 r1 q2 r2) = S (Z.to_nat N) ∧
  (∀ (i : nat) h, getHexLine q1 r1 q2 r2 !! i = Some h →
     getDistance q1 r1 (hex_q h) (hex_r h) = Z.of_nat i ∧
     getDistance (hex_q h) (hex_r h) q2 r2 = N - Z.of_nat i) ∧
  (∀ (i : nat) h h',
     getHexLine q1 r1 q2 r2 !! i = Some h →
     getHexLine q1 r1 q2 r2 !! S i = Some h' →
     adjacent (hex_q h) (hex_r h) (hex_q h') (hex_r h')).
Proof. apply getHexLine_walk. Qed.

(** * More on the line of sight and on rounding *)

(** X12.  Between two coordinates at distance one at most there is a
    line of sight, whatever the blockers. *)
Theorem hasLineOfSight_adjacent q1 r1 q2 r2 blockers :
  getDistance q1 r1 q2 r2 ≤ 1 → hasLineOfSight q1 r1 q2 r2 blockers = true.
Proof.
  intros Hd. apply hasLineOfSight_true. right.
  intros i hex Hi1 Hi2. rewrite length_getHexLine in Hi2. lia.
Qed.

Lemma hasLineOfSight_adjacent_witness :
  hasLineOfSight 0 0 1 (-1) [mkHex 0 0; mkHex 1 (-1); mkHex 1 0] = true.
Proof. apply hasLineOfSight_adjacent. vm_compute. discriminate. Defined.

(** X13.  Only a blocker that lies strictly between the two ends, on a
    shortest way from the one to the other, can block the line of sight. *)
Theorem hasLineOfSight_between q1 r1 q2 r2 blockers :
  (∀ h, h ∈ blockers →
     ¬ (0 < getDistance q1 r1 (hex_q h) (hex_r h) < getDistance q1 r1 q2 r2 ∧
        getDistance q1 r1 (hex_q h) (hex_r h) + getDistance (hex_q h) (hex_r h) q2 r2
        = getDistance q1 r1 q2 r2)) →
  hasLineOfSight q1 r1 q2 r2 blockers = true.
Proof.
  intros Hb. apply hasLineOfSight_true. right.
  intros i hex Hi1 Hi2 Hlook Hin. rewrite length_getHexLine in Hi2.
  destruct (getHexLine_walk q1 r1 q2 r2) as (_ & Hdist & _).
  destruct (Hdist i hex Hlook) as [H1 H2].
  apply (Hb hex Hin). lia.
Qed.

Lemma hasLineOfSight_between_witness :
  hasLineOfSight 0 0 3 0 [mkHex 1 1; mkHex 4 0; mkHex (-1) 0; mkHex 3 0] = true.
Proof.
  apply hasLineOfSight_between. intros h Hh.
  repeat (apply elem_of_cons in Hh as [->|Hh]); [rewrite !getDistance_max; simpl; lia..|].
  by apply elem_of_nil in Hh.
Defined.

(** X14.  Taking blockers away never blocks a line of sight. *)
Theorem hasLineOfSight_monotone q1 r1 q2 r2 blockers blockers' :
  (∀ h, h ∈ blockers → h ∈ blockers') →
  hasLineOfSight q1 r1 q2 r2 blockers' = true →
  hasLineOfSight q1 r1 q2 r2 blockers = true.
Proof.
  intros Hsub. rewrite !hasLineOfSight_true.
  intros [?|H]; [by left|right]. intros i hex Hi1 Hi2 Hlook Hin.
  by apply (H i hex Hi1 Hi2 Hlook), Hsub.
Qed.

Lemma hasLineOfSight_monotone_witness :
  hasLineOfSight 0 0 3 0 [mkHex 1 1] = true.
Proof.
  apply (hasLineOfSight_monotone 0 0 3 0 [mkHex 1 1] [mkHex 1 1; mkHex 2 2]).
  - intros h Hh. by apply elem_of_cons; left; apply list_elem_of_singleton.
  - reflexivity.
Defined.

Lemma gtb_proper a a' b b' : (a == a')%Q → (b == b')%Q → JS.gtb a b = JS.gtb a' b'.
Proof.
  intros Ha Hb. destruct (JS.gtb a b) eqn:H1; destruct (JS.gtb a' b') eqn:H2; try done;
    rewrite ?gtb_true, ?gtb_false in *; lra.
Qed.

Lemma roundingError_plus x z : (roundingError (x + inject_Z z) == roundingError x)%Q.
Proof.
  unfold roundingError, JS.Math_abs. rewrite Math_round_plus, inject_Z_plus.
  apply Qabs_wd. ring.
Qed.

(** X15.  [roundCube] commutes with the translations of the cube by
    whole numbers that sum to zero, whatever the triple, and it leaves a
    triple of whole numbers where it is. *)
Theorem roundCube_translate q r s a b c :
  (a + b + c = 0 →
   roundCube (q + inject_Z a) (r + inject_Z b) (s + inject_Z c)
   = mkHex (hex_q (roundCube q r s) + a) (hex_r (roundCube q r s) + b)) ∧
  roundCube (inject_Z a) (inject_Z b) (inject_Z c) = mkHex a b.
Proof.
  split.
  - intros Hsum. unfold roundCube.
    fold (roundingError (q + inject_Z a)) (roundingError (r + inject_Z b))
      (roundingError (s + inject_Z c))
      (roundingError q) (roundingError r) (roundingError s).
    pose proof (roundingError_plus q a) as Eq.
    pose proof (roundingError_plus r b) as Er.
    pose proof (roundingError_plus s c) as Es.
    rewrite (gtb_proper _ _ _ _ Eq Er), (gtb_proper _ _ _ _ Eq Es), (gtb_proper _ _ _ _ Er Es).
    rewrite !Math_round_plus.
    destruct (JS.gtb (roundingError q) (roundingError r) &&
              JS.gtb (roundingError q) (roundingError s)); simpl; [f_equal; lia|].
    destruct (JS.gtb (roundingError r) (roundingError s)); simpl; f_equal; lia.
  - unfold roundCube.
    fold (roundingError (inject_Z a)) (roundingError (inject_Z b))
      (roundingError (inject_Z c)).
    assert (∀ x y, JS.gtb (roundingError (inject_Z x)) (roundingError (inject_Z y)) = false)
      as Hno.
    { intros x y. apply gtb_false.
      rewrite (roundingError_inject _ x (Qeq_refl _)), (roundingError_inject _ y (Qeq_refl _)).
      lra. }
    rewrite !Hno. simpl.
    by rewrite (Math_round_inject _ a (Qeq_refl _)), (Math_round_inject _ b (Qeq_refl _)).
Qed.

Lemma roundCube_translate_witness :
  roundCube ((7 # 10) + inject_Z 2) (- (2 # 10) + inject_Z (-3)) (- (5 # 10) + inject_Z 1)
  = mkHex (hex_q (roundCube (7 # 10) (- (2 # 10)) (- (5 # 10))) + 2)
      (hex_r (roundCube (7 # 10) (- (2 # 10)) (- (5 # 10))) + -3).
Proof. apply (proj1 (roundCube_translate _ _ _ 2 (-3) 1)). reflexivity. Defined.

(** * Enemy turns *)

Import Enemy.


Lemma canAttack_false e :
  canAttack e = false ↔ maxAttacksPerTurn e ≤ attacksThisTurn e ∨ ap e < 1.
Proof. unfold canAttack. rewrite andb_false_iff, Z.ltb_ge, Z.leb_gt. done. Qed.

Lemma takeDamage_dead amount e :
  hp (takeDamage amount e) = 0 → isAlive (takeDamage amount e) = false.
Proof.
  unfold takeDamage. simpl. destruct (Z.leb_spec (Z.max 0 (hp e - amount)) 0); simpl; [done|lia].
Qed.

Lemma takeDamage_stays_dead amount e :
  isAlive e = false → isAlive (takeDamage amount e) = false.
Proof. unfold takeDamage. simpl. by destruct (_ <=? 0). Qed.

Lemma takeDamages_stays_dead amounts e :
  isAlive e = false → isAlive (takeDamages amounts e) = false.
Proof.
  revert e. induction amounts as [|a l IH]; intros e He; simpl; [done|].
  by apply IH, takeDamage_stays_dead.
Qed.

Lemma takeDamages_invariant amounts e :
  (hp e = 0 → isAlive e = false) →
  hp (takeDamages amounts e) = 0 → isAlive (takeDamages amounts e) = false.
Proof.
  revert e. induction amounts as [|a l IH]; intros e He; simpl; [done|].
  apply IH, takeDamage_dead.
Qed.

Lemma filter_isAlive_dead l1 d l2 :
  isAlive d = false → List.filter isAlive (l1 ++ d :: l2) = List.filter isAlive (l1 ++ l2).
Proof. intros Hd. rewrite !List.filter_app. simpl. by rewrite Hd. Qed.

Lemma getObstacles_dead w l1 d l2 :
  enemies (scene w) = l1 ++ d :: l2 → isAlive d = false →
  getObstacles w = getObstacles (withEnemies w (l1 ++ l2)).
Proof.
  intros Hl Hd. unfold getObstacles. simpl. by rewrite Hl, filter_isAlive_dead.
Qed.

Lemma playerPathObstacles_dead obstacles l1 d l2 hex :
  isAlive d = false →
  playerPathObstacles obstacles (l1 ++ d :: l2) hex = playerPathObstacles obstacles (l1 ++ l2) hex.
Proof. intros Hd. unfold playerPathObstacles. by rewrite filter_isAlive_dead. Qed.


(** C10.  When the attack is not permitted, [attackPlayer] changes
    nothing: not the action points, not the attack counter, not the
    player's hit points. *)
Theorem attackPlayer_not_permitted w :
  maxAttacksPerTurn (this w) ≤ attacksThisTurn (this w) ∨ ap (this w) < 1 →
  attackPlayer w = w ∧
  ap (this (attackPlayer w)) = ap (this w) ∧
  attacksThisTurn (this (attackPlayer w)) = attacksThisTurn (this w) ∧
  playerHP (scene (attackPlayer w)) = playerHP (scene w).
Proof.
  intros H%canAttack_false. unfold attackPlayer. rewrite H. done.
Qed.

Lemma attackPlayer_not_permitted_witness :
  let w := mkWorld (Enemy.mk (mkHex 1 0) 7 7 2 1 0 3 2 1 melee 1 true false)
             initScene [] in
  attackPlayer w = w ∧
  ap (this (attackPlayer w)) = ap (this w) ∧
  attacksThisTurn (this (attackPlayer w)) = attacksThisTurn (this w) ∧
  playerHP (scene (attackPlayer w)) = playerHP (scene w).
Proof. apply attackPlayer_not_permitted. right. simpl. lia. Defined.

(** C9.  Starting from an enemy whose flag agrees with its hit points, when
    a sequence of damage brings the hit points to 0 the enemy is not alive;
    it stays so under any later damage, and the obstacle lists assembled for
    another enemy's movement and for the player's path are the ones of the
    scene without it. *)
Theorem dead_enemy_excluded (e : Enemy.t) (amounts : list Z) :
  (hp e = 0 → isAlive e = false) →
  let e' := takeDamages amounts e in
  hp e' = 0 →
  isAlive e' = false ∧
  ∀ later, let d := takeDamages later e' in
    isAlive d = false ∧
    (∀ w l1 l2, enemies (scene w) = l1 ++ d :: l2 →
       getObstacles w = getObstacles (withEnemies w (l1 ++ l2))) ∧
    (∀ obstacles l1 l2 hex,
       playerPathObstacles obstacles (l1 ++ d :: l2) hex =
       playerPathObstacles obstacles (l1 ++ l2) hex).
Proof.
  intros He e' Hhp.
  assert (isAlive e' = false) as Hdead by by apply takeDamages_invariant.
  split; [done|]. intros later d.
  assert (isAlive d = false) as Hd by by apply takeDamages_stays_dead.
  split; [done|]. split.
  - intros w l1 l2 Hl. by apply (getObstacles_dead w l1 d l2).
  - intros obstacles l1 l2 hex. by apply playerPathObstacles_dead.
Qed.

Lemma dead_enemy_excluded_witness :
  let e' := takeDamages [2; 2; 2] (Enemy.new turret 1 0) in
  isAlive e' = false ∧
  ∀ later, let d := takeDamages later e' in
    isAlive d = false ∧
    (∀ w l1 l2, enemies (scene w) = l1 ++ d :: l2 →
       getObstacles w = getObstacles (withEnemies w (l1 ++ l2))) ∧
    (∀ obstacles l1 l2 hex,
       playerPathObstacles obstacles (l1 ++ d :: l2) hex =
       playerPathObstacles obstacles (l1 ++ l2) hex).
Proof.
  apply (dead_enemy_excluded (Enemy.new turret 1 0) [2; 2; 2]).
  - simpl. lia.
  - reflexivity.
Defined.

Lemma attackPlayer_permitted w :
  canAttack (this w) = true →
  attackPlayer w =
    mkWorld
      (mk (pos (this w)) (hp (this w)) (maxHP (this w)) (damage (this w)) (range (this w))
          (ap (this w) - 1) (maxAP (this w)) (maxAttacksPerTurn (this w))
          (attacksThisTurn (this w) + 1) (aiType (this w)) (preferredDistance (this w))
          (isAlive (this w)) (isMoving (this w)))
      (damagePlayer (damage (this w)) (scene w))
      (trace w ++ [Attack (damage (this w))]).
Proof. intros H. unfold attackPlayer. by rewrite H. Qed.

Lemma damagePlayer_fields amount sc :
  hexGrid (damagePlayer amount sc) = hexGrid sc ∧
  playerPos (damagePlayer amount sc) = playerPos sc ∧
  playerHP (damagePlayer amount sc) = Z.max 0 (playerHP sc - amount) ∧
  obstacles (damagePlayer amount sc) = obstacles sc ∧
  enemies (damagePlayer amount sc) = enemies sc ∧
  battleOver (damagePlayer amount sc) =
    battleOver sc || (Z.max 0 (playerHP sc - amount) <=? 0).
Proof.
  unfold damagePlayer, endBattle. simpl.
  destruct (Z.max 0 (playerHP sc - amount) <=? 0), (battleOver sc) eqn:Hb; simpl;
    rewrite ?Hb; done.
Qed.

(** C6.  A live ranged enemy with range 3 and preferred distance 3, at
    distance 3 from the player with line of sight, 3 action points and no
    attack made yet, takes no step in the approach phase, attacks once in the
    attack phase, takes no step in the retreat phase, and ends its turn with
    2 action points, whatever number of attacks per turn (at least one) it is
    allowed. *)
Theorem ranged_turn_at_preferred_distance pf fuel w :
  aiType (this w) = ranged →
  isAlive (this w) = true →
  battleOver (scene w) = false →
  ap (this w) = 3 →
  attacksThisTurn (this w) = 0 →
  1 ≤ maxAttacksPerTurn (this w) →
  range (this w) = 3 →
  preferredDistance (this w) = 3 →
  getDistanceToPlayer w = 3 →
  hasLineOfSightToPlayer w = true →
  let w' := attackPlayer w in
  approach pf fuel w 3 true = Some (w, 3, true) ∧
  attackPhase w 3 true = (w', 3) ∧
  retreat fuel w' 3 = Some w' ∧
  executeTurn pf fuel w = Some w' ∧
  trace w' = trace w ++ [Attack (damage (this w))] ∧
  attacksThisTurn (this w') = 1 ∧
  ap (this w') = 2 ∧
  pos (this w') = pos (this w) ∧
  playerHP (scene w') = Z.max 0 (playerHP (scene w) - damage (this w)).
Proof.
  intros Hai Halive Hover Hap Hatt Hmax Hrange Hpref Hdist Hlos w'.
  assert (canAttack (this w) = true) as Hcan.
  { unfold canAttack. rewrite Hatt, Hap. apply andb_true_iff. split; [|done].
    apply Z.ltb_lt. lia. }
  pose proof (attackPlayer_permitted w Hcan) as Hw'. fold w' in Hw'.
  assert (getDistanceToPlayer w' = 3) as Hdist'.
  { rewrite <- Hdist. rewrite Hw'. unfold getDistanceToPlayer. simpl.
    by rewrite (proj1 (proj2 (damagePlayer_fields _ _))). }
  assert (approach pf fuel w 3 true = Some (w, 3, true)) as Happ.
  { destruct fuel; simpl; rewrite Hrange; done. }
  assert (attackPhase w 3 true = (w', 3)) as Hatk.
  { unfold attackPhase. rewrite Hcan, Hrange, Halive, Hover. simpl.
    fold w'. by rewrite Hdist'. }
  assert (retreat fuel w' 3 = Some w') as Hret.
  { assert (preferredDistance (this w') = 3) as Hp by (by rewrite Hw').
    destruct fuel; simpl; rewrite Hp; done. }
  split_and!; try done.
  - unfold executeTurn, executeRangedTurn. rewrite Halive, Hai, Hdist, Hlos. simpl.
    rewrite Happ. simpl. rewrite Hatk. done.
  - by rewrite Hw'.
  - rewrite Hw'. simpl. lia.
  - rewrite Hw'. simpl. lia.
  - by rewrite Hw'.
  - rewrite Hw'. simpl. apply damagePlayer_fields.
Qed.

Lemma ranged_turn_at_preferred_distance_witness :
  let w := mkWorld (Enemy.new turret 3 0) initScene [] in
  let w' := attackPlayer w in
  approach 100 10 w 3 true = Some (w, 3, true) ∧
  attackPhase w 3 true = (w', 3) ∧
  retreat 10 w' 3 = Some w' ∧
  executeTurn 100 10 w = Some w' ∧
  trace w' = trace w ++ [Attack (damage (this w))] ∧
  attacksThisTurn (this w') = 1 ∧
  ap (this w') = 2 ∧
  pos (this w') = pos (this w) ∧
  playerHP (scene w') = Z.max 0 (playerHP (scene w) - damage (this w)).
Proof.
  apply (ranged_turn_at_preferred_distance 100 10
           (mkWorld (Enemy.new turret 3 0) initScene []));
    solve [reflexivity | simpl; lia].
Defined.

Lemma fold_better p l best bd :
  (fold_left (better p) l (best, bd) = (best, bd) ∧ Forall (λ m, distTo p m ≤ bd) l) ∨
  (∃ n l1 l2, l = l1 ++ n :: l2 ∧
     fold_left (better p) l (best, bd) = (Some n, distTo p n) ∧ bd < distTo p n ∧
     Forall (λ m, distTo p m < distTo p n) l1 ∧ Forall (λ m, distTo p m ≤ distTo p n) l2).
Proof.
  revert best bd. induction l as [|x l IH]; intros best bd; simpl.
  { left. split; [done|constructor]. }
  assert (better p (best, bd) x =
          if bd <? distTo p x then (Some x, distTo p x) else (best, bd)) as -> by done.
  destruct (Z.ltb_spec bd (distTo p x)) as [Hlt|Hge].
  - right. destruct (IH (Some x) (distTo p x)) as [[Hres Hall]|(n & l1 & l2 & -> & Hres & Hn & H1 & H2)].
    + exists x, [], l. split_and!; [done|done|lia|constructor|done].
    + exists n, (x :: l1), l2. split_and!; [done|done|lia| |done].
      constructor; [lia|done].
  - destruct (IH best bd) as [[Hres Hall]|(n & l1 & l2 & -> & Hres & Hn & H1 & H2)].
    + left. split; [done|]. constructor; [lia|done].
    + right. exists n, (x :: l1), l2. split_and!; [done|done|lia| |done].
      constructor; [lia|done].
Qed.

Lemma elem_of_validNeighbors w n :
  n ∈ validNeighbors w ↔
  n ∈ getNeighbors (hexGrid (scene w)) (hex_q (pos (this w))) (hex_r (pos (this w))) ∧
  isValidHex (hexGrid (scene w)) (hex_q n) (hex_r n) = true ∧
  unobstructed w n.
Proof.
  unfold validNeighbors. rewrite list_elem_of_In, filter_In, <- list_elem_of_In.
  assert (existsb (λ o, (obs_q o =? hex_q n) && (obs_r o =? hex_r n)) (getObstacles w) = false
          ↔ unobstructed w n) as Hb.
  { rewrite <- not_true_iff_false, existsb_exists. unfold unobstructed. split.
    - intros H o Ho [Hq Hr]. apply H. exists o. split; [by apply list_elem_of_In|].
      apply andb_true_iff. by rewrite !Z.eqb_eq.
    - intros H (o & Ho%list_elem_of_In & Hqr). apply (H o Ho).
      apply andb_true_iff in Hqr. by rewrite !Z.eqb_eq in Hqr. }
  rewrite <- Hb.
  destruct (isValidHex _ _ _); simpl; [|intuition congruence].
  destruct (existsb _ _); intuition congruence.
Qed.

Lemma moveAwayFromPlayer_cases w :
  (moveAwayFromPlayer w = (false, w) ∧
   Forall (λ m, distToPlayer w m ≤ getDistanceToPlayer w) (validNeighbors w)) ∨
  (∃ n l1 l2, validNeighbors w = l1 ++ n :: l2 ∧
     moveAwayFromPlayer w = (true, moveTo (hex_q n) (hex_r n) w) ∧
     getDistanceToPlayer w < distToPlayer w n ∧
     Forall (λ m, distToPlayer w m < distToPlayer w n) l1 ∧
     Forall (λ m, distToPlayer w m ≤ distToPlayer w n) l2).
Proof.
  unfold moveAwayFromPlayer.
  pose proof (fold_better (playerPos (scene w)) (validNeighbors w) None
                (getDistanceToPlayer w)) as H.
  destruct (validNeighbors w) as [|v vn]; [left; split; [done|constructor]|].
  destruct H as [[Hres Hall]|(n & l1 & l2 & Hl & Hres & Hn & H1 & H2)].
  - left. split; [|done]. by rewrite Hres.
  - right. exists n, l1, l2. split_and!; try done. by rewrite Hres.
Qed.






Lemma filter_isAlive_all_dead l :
  Forall (λ e, isAlive e = false) l → List.filter isAlive l = [].
Proof. induction 1 as [|e l He _ IH]; simpl; [done|]. by rewrite He. Qed.

Lemma occupied_all_dead l q r :
  Forall (λ e, isAlive e = false) l →
  existsb (λ e, isAlive e && (hex_q (pos e) =? q) && (hex_r (pos e) =? r)) l = false.
Proof. induction 1 as [|e l He _ IH]; simpl; [done|]. by rewrite He. Qed.

(** With no wall, no trap and no other live enemy, the step towards the
    player follows a shortest walk. *)
Lemma moveTowardPlayer_unobstructed R pf w :
  hexGrid (scene w) = HexGrid.new R →
  obstacles (scene w) = [] →
  Forall (λ e, isAlive e = false) (enemies (scene w)) →
  inGrid R (hex_q (pos (this w))) (hex_r (pos (this w))) →
  inGrid R (hex_q (playerPos (scene w))) (hex_r (playerPos (scene w))) →
  (length (hexes (HexGrid.new R)) + 1 + Z.to_nat (getDistanceToPlayer w) < pf)%nat →
  ∃ path,
    Z.of_nat (length path) = getDistanceToPlayer w ∧
    walk (HexGrid.new R) (pos (this w)) path ∧
    List.last path (pos (this w)) = playerPos (scene w) ∧
    moveTowardPlayer pf w =
      Some (match path with
            | nextHex :: _ :: _ => (true, moveTo (hex_q nextHex) (hex_r nextHex) w)
            | _ => (false, w)
            end).
Proof.
  intros Hg Hobs Hdead Hpos Hplayer Hfuel.
  destruct (findPath_unobstructed R _ _ _ _ Hpos pf Hplayer Hfuel)
    as (path & Hfind & Hlen & Hwalk & Hlast).
  exists path. split_and!; [done|by destruct (pos (this w))|
                            by destruct (pos (this w)), (playerPos (scene w))|].
  unfold moveTowardPlayer, getObstacles.
  rewrite Hg, Hobs, (filter_isAlive_all_dead _ Hdead). simpl.
  rewrite Hfind. simpl.
  destruct path as [|nextHex [|? ?]]; [done|done|].
  by rewrite occupied_all_dead.
Qed.

Lemma executeMeleeTurn_unfold pf fuel w :
  executeMeleeTurn pf (S fuel) w =
    if (0 <? ap (this w)) && isAlive (this w) && negb (battleOver (scene w)) then
      if (getDistanceToPlayer w =? 1) && canAttack (this w) then
        executeMeleeTurn pf fuel (attackPlayer w)
      else if 1 <=? ap (this w) then
        '(moved, w') ← moveTowardPlayer pf w;
        if negb moved then Some w' else executeMeleeTurn pf fuel w'
      else Some w
    else Some w.
Proof. done. Qed.

Lemma executeMeleeTurn_done pf fuel w :
  (0 <? ap (this w)) && isAlive (this w) && negb (battleOver (scene w)) = false →
  executeMeleeTurn pf fuel w = Some w.
Proof. intros H. destruct fuel; simpl; by rewrite H. Qed.

#[local] Arguments executeMeleeTurn : simpl never.

(** C7, as amended.  A live melee enemy at (2,0) with 3 action points and
    at least one attack per turn, the player at (0,0), on a grid of radius at
    least 2 without obstacle or other live enemy: the turn makes one move, to
    (1,0), which is next to the player, and then attacks.  It attacks twice
    and ends with 0 action points when two attacks per turn are allowed and
    the player survives the first one; otherwise it attacks once and ends
    with 1 action point. *)
Theorem melee_turn_two_hexes_away R pf fuel w :
  2 ≤ R →
  hexGrid (scene w) = HexGrid.new R →
  obstacles (scene w) = [] →
  Forall (λ e, isAlive e = false) (enemies (scene w)) →
  playerPos (scene w) = mkHex 0 0 →
  pos (this w) = mkHex 2 0 →
  aiType (this w) = melee →
  isAlive (this w) = true →
  battleOver (scene w) = false →
  ap (this w) = 3 →
  attacksThisTurn (this w) = 0 →
  1 ≤ maxAttacksPerTurn (this w) →
  (length (hexes (HexGrid.new R)) + 3 < pf)%nat →
  (3 ≤ fuel)%nat →
  ∃ w',
    executeTurn pf fuel w = Some w' ∧
    pos (this w') = mkHex 1 0 ∧
    if (2 <=? maxAttacksPerTurn (this w)) && (damage (this w) <? playerHP (scene w)) then
      trace w' = trace w ++ [MoveTo 1 0; Attack (damage (this w)); Attack (damage (this w))] ∧
      ap (this w') = 0
    else
      trace w' = trace w ++ [MoveTo 1 0; Attack (damage (this w))] ∧
      ap (this w') = 1.
Proof.
  intros HR Hg Hobs Hdead Hpp Hpos Hai Halive Hover Hap Hatt Hmax Hpf Hfuel.
  destruct fuel as [|[|[|fuel]]]; [lia..|].
  unfold executeTurn. rewrite Halive, Hai. simpl negb. cbv iota.
  (* first step: the move to (1,0) *)
  rewrite executeMeleeTurn_unfold, Hap, Halive, Hover.
  assert (getDistanceToPlayer w = 2) as Hd0
    by (unfold getDistanceToPlayer; by rewrite Hpos, Hpp).
  rewrite Hd0. simpl.
  destruct (moveTowardPlayer_unobstructed R pf w Hg Hobs Hdead)
    as (path & Hlen & Hwalk & Hlast & ->).
  { rewrite Hpos. unfold inGrid. simpl. lia. }
  { rewrite Hpp. unfold inGrid. simpl. lia. }
  { rewrite Hd0. change (Z.to_nat 2) with 2%nat. lia. }
  rewrite Hd0, Hpos, Hpp in *.
  destruct path as [|p0 [|p1 [|? ?]]]; simpl in Hlen; try lia.
  simpl in Hlast. subst p1.
  destruct Hwalk as ([_ Ha0]%elem_of_getNeighbors & [_ Ha1]%elem_of_getNeighbors & _).
  assert (p0 = mkHex 1 0) as ->.
  { destruct p0 as [q r]. unfold adjacent in *. simpl in *. f_equal; lia. }
  simpl.
  set (w1 := moveTo 1 0 w).
  (* second step: the first attack *)
  rewrite executeMeleeTurn_unfold.
  assert (getDistanceToPlayer w1 = 1) as Hd1 by (unfold getDistanceToPlayer; simpl; by rewrite Hpp).
  assert (canAttack (this w1) = true) as Hcan1.
  { unfold canAttack. simpl. rewrite Hatt, Hap. apply andb_true_iff.
    split; [apply Z.ltb_lt; lia|done]. }
  assert (ap (this w1) = 2) as Hap1 by (simpl; lia).
  assert (isAlive (this w1) = true) as Halive1 by done.
  assert (battleOver (scene w1) = false) as Hover1 by done.
  rewrite Hd1, Hcan1, Hap1, Halive1, Hover1. simpl.
  pose proof (attackPlayer_permitted w1 Hcan1) as Hw2.
  set (w2 := attackPlayer w1) in *.
  assert (trace w2 = trace w ++ [MoveTo 1 0; Attack (damage (this w))]) as Htr2
    by (rewrite Hw2; simpl; by rewrite <- app_assoc).
  assert (ap (this w2) = 1) as Hap2 by (rewrite Hw2; simpl; lia).
  assert (pos (this w2) = mkHex 1 0) as Hpos2 by by rewrite Hw2.
  assert (battleOver (scene w2) = (playerHP (scene w) <=? damage (this w))) as Hover2.
  { rewrite Hw2. simpl. rewrite (proj2 (proj2 (proj2 (proj2 (proj2
      (damagePlayer_fields _ _)))))), Hover. simpl.
    destruct (Z.leb_spec (Z.max 0 (playerHP (scene w) - damage (this w))) 0),
             (Z.leb_spec (playerHP (scene w)) (damage (this w))); lia. }
  (* third step *)
  destruct (Z.ltb_spec (damage (this w)) (playerHP (scene w))) as [Hsurv|Hdies].
  2: { (* the player is defeated: the battle is over *)
    rewrite andb_false_r.
    exists w2. split_and!; [|done|done|done].
    apply executeMeleeTurn_done. rewrite Hover2.
    destruct (Z.leb_spec (playerHP (scene w)) (damage (this w))); [|lia].
    by rewrite andb_false_r. }
  rewrite andb_true_r.
  assert (battleOver (scene w2) = false) as Hover2'.
  { rewrite Hover2. apply Z.leb_gt. lia. }
  rewrite executeMeleeTurn_unfold, Hap2, Hover2'.
  assert (isAlive (this w2) = true) as Halive2 by (rewrite Hw2; simpl; done).
  assert (getDistanceToPlayer w2 = 1) as Hd2.
  { unfold getDistanceToPlayer. rewrite Hpos2. rewrite Hw2. simpl.
    rewrite (proj1 (proj2 (damagePlayer_fields _ _))), Hpp. done. }
  rewrite Halive2, Hd2. simpl.
  assert (canAttack (this w2) = (2 <=? maxAttacksPerTurn (this w))) as Hcan2.
  { unfold canAttack. rewrite Hap2. rewrite Hw2. simpl. rewrite Hatt, andb_true_r.
    destruct (Z.ltb_spec (0 + 1) (maxAttacksPerTurn (this w))),
             (Z.leb_spec 2 (maxAttacksPerTurn (this w))); lia. }
  rewrite Hcan2.
  destruct (Z.leb_spec 2 (maxAttacksPerTurn (this w))) as [Hmax2|Hmax1].
  - (* a second attack *)
    pose proof Hcan2 as Hcan2'.
    pose proof (attackPlayer_permitted w2 Hcan2') as Hw3.
    set (w3 := attackPlayer w2) in *.
    exists w3. split_and!.
    + apply executeMeleeTurn_done. rewrite Hw3. simpl. by rewrite Hap2.
    + rewrite Hw3. simpl. done.
    + rewrite Hw3. simpl. rewrite Htr2, <- app_assoc. simpl.
      by assert (damage (this w2) = damage (this w)) as -> by by rewrite Hw2.
    + rewrite Hw3. simpl. lia.
  - (* no attack left and the next step would enter the player's hex *)
    exists w2.
    destruct (moveTowardPlayer_unobstructed R pf w2) as (path & Hlen2 & _ & _ & ->).
    { rewrite Hw2. simpl. by rewrite (proj1 (damagePlayer_fields _ _)). }
    { rewrite Hw2. simpl. by rewrite (proj1 (proj2 (proj2 (proj2 (damagePlayer_fields _ _))))). }
    { rewrite Hw2. simpl.
      by rewrite (proj1 (proj2 (proj2 (proj2 (proj2 (damagePlayer_fields _ _)))))). }
    { rewrite Hpos2. unfold inGrid. simpl. lia. }
    { rewrite Hw2. simpl. rewrite (proj1 (proj2 (damagePlayer_fields _ _))), Hpp.
      unfold inGrid. simpl. lia. }
    { rewrite Hd2. change (Z.to_nat 1) with 1%nat. lia. }
    rewrite Hd2 in Hlen2. destruct path as [|? [|? ?]]; simpl in Hlen2; try lia.
    simpl. done.
Qed.

Lemma melee_turn_two_hexes_away_witness :
  ∃ w',
    executeTurn 200 10 (mkWorld (Enemy.new scrapper 2 0) initScene []) = Some w' ∧
    pos (this w') = mkHex 1 0 ∧
    trace w' = [MoveTo 1 0; Attack 2; Attack 2] ∧
    ap (this w') = 0.
Proof.
  apply (melee_turn_two_hexes_away 5 200 10 (mkWorld (Enemy.new scrapper 2 0) initScene []));
    solve [reflexivity | simpl; lia | constructor | vm_compute; lia].
Defined.

(** C7 as stated.  The scrapper of the configuration table, at (2,0) on the
    initial scene, makes one move and two attacks, not two moves and one
    attack. *)
Lemma melee_turn_two_moves_cex :
  executeTurn 200 10 (mkWorld (Enemy.new scrapper 2 0) initScene [])
  = Some (mkWorld (Enemy.mk (mkHex 1 0) 7 7 2 1 0 3 2 2 melee 1 true false)
            (mkScene (HexGrid.new 5) (mkHex 0 0) 16 false [] [])
            [MoveTo 1 0; Attack 2; Attack 2]) ∧
  ¬ (∃ w' q1 r1 q2 r2 amount,
       executeTurn 200 10 (mkWorld (Enemy.new scrapper 2 0) initScene []) = Some w' ∧
       trace w' = [MoveTo q1 r1; MoveTo q2 r2; Attack amount]).
Proof.
  assert (executeTurn 200 10 (mkWorld (Enemy.new scrapper 2 0) initScene [])
          = Some (mkWorld (Enemy.mk (mkHex 1 0) 7 7 2 1 0 3 2 2 melee 1 true false)
                    (mkScene (HexGrid.new 5) (mkHex 0 0) 16 false [] [])
                    [MoveTo 1 0; Attack 2; Attack 2])) as Hrun by (vm_compute; reflexivity).
  split; [done|].
  intros (w' & q1 & r1 & q2 & r2 & amount & Hw' & Htrace).
  rewrite Hrun in Hw'. injection Hw' as <-. simpl in Htrace. discriminate.
Qed.

(** * The actions of a turn *)

Lemma isBlocked_false l q r : isBlocked l q r = false ↔ mkHex q r ∉ l.
Proof.
  unfold isBlocked. rewrite <- not_true_iff_false, existsb_exists. split.
  - intros H Hin. apply H. exists (mkHex q r). split; [by apply list_elem_of_In|].
    simpl. by rewrite !Z.eqb_refl.
  - intros H (o & Ho%list_elem_of_In & Hqr).
    apply andb_true_iff in Hqr as [Hq%Z.eqb_eq Hr%Z.eqb_eq].
    apply H. destruct o. simpl in *. by subst.
Qed.

Lemma elem_of_pathObstacles w h :
  h ∈ pathObstacles w ↔
  (∃ o, o ∈ obstacles (scene w) ∧ obs_type o ≠ player ∧ obstacle_hex o = h) ∨
  (∃ e, e ∈ enemies (scene w) ∧ isAlive e = true ∧ pos e = h).
Proof.
  unfold pathObstacles, getObstacles.
  rewrite !List.filter_app, !map_app, !elem_of_app. simpl.
  rewrite elem_of_nil.
  rewrite !list_elem_of_In, !in_map_iff.
  split.
  - intros [(o & <- & Ho)|[(o & <- & Ho)|[]]].
    + apply filter_In in Ho as [Ho Ht]. left. exists o.
      split_and!; [by apply list_elem_of_In| |done].
      apply negb_true_iff, bool_decide_eq_false in Ht. done.
    + apply filter_In in Ho as [Ho _]. apply in_map_iff in Ho as (e & <- & He).
      apply filter_In in He as [He Ha]. right. exists e.
      split_and!; [by apply list_elem_of_In|done|]. by destruct (pos e).
  - intros [(o & Ho & Ht & <-)|(e & He & Ha & <-)].
    + left. exists o. split; [done|]. apply filter_In. split; [by apply list_elem_of_In|].
      by apply negb_true_iff, bool_decide_eq_false.
    + right. left. exists (mkObstacle (hex_q (pos e)) (hex_r (pos e)) enemy).
      split; [by destruct (pos e)|]. apply filter_In. split; [|done].
      apply in_map_iff. exists e. split; [done|].
      apply filter_In. split; [by apply list_elem_of_In|done].
Qed.

Lemma moveTowardPlayer_inv pf w moved w' :
  moveTowardPlayer pf w = Some (moved, w') →
  if moved then
    ∃ n rest,
      findPath pf (hexGrid (scene w)) (hex_q (pos (this w))) (hex_r (pos (this w)))
        (hex_q (playerPos (scene w))) (hex_r (playerPos (scene w))) (pathObstacles w)
      = Some (Some (n :: rest)) ∧
      rest ≠ [] ∧ w' = moveTo (hex_q n) (hex_r n) w
  else w' = w.
Proof.
  unfold moveTowardPlayer. fold (pathObstacles w).
  destruct (findPath _ _ _ _ _ _ _) as [[[|n [|m rest]]|]|]; simpl; try by intros [= <- <-].
  destruct (existsb _ _); simpl; intros [= <- <-]; [done|].
  exists n, (m :: rest). done.
Qed.

Lemma last_in_tail {A} (a b : A) l : List.last (b :: l) a ∈ b :: l.
Proof.
  revert a b. induction l as [|c l IH]; intros a b; [by left|].
  rewrite last_cons_default. right. apply IH.
Qed.

(** The step of [moveTowardPlayer] is the first step of a shortest walk
    to the player that avoids the obstacles, and it is free. *)
Lemma moveTowardPlayer_walk pf w w' :
  moveTowardPlayer pf w = Some (true, w') →
  ∃ n rest,
    w' = moveTo (hex_q n) (hex_r n) w ∧
    n ∈ getNeighbors (hexGrid (scene w)) (hex_q (pos (this w))) (hex_r (pos (this w))) ∧
    free w n ∧ rest ≠ [] ∧
    clearWalk (hexGrid (scene w)) (pathObstacles w) (pos (this w)) (n :: rest) ∧
    List.last (n :: rest) (pos (this w)) = playerPos (scene w) ∧
    ∀ other,
      clearWalk (hexGrid (scene w)) (pathObstacles w) (pos (this w)) other →
      List.last other (pos (this w)) = playerPos (scene w) →
      (length (n :: rest) ≤ length other)%nat.
Proof.
  intros H. apply moveTowardPlayer_inv in H as (n & rest & Hfind & Hrest & ->).
  apply findPath_spec in Hfind as (Hwalk & Hlast & Hnd & Hshort).
  assert (mkHex (hex_q (pos (this w))) (hex_r (pos (this w))) = pos (this w)) as Hpos
    by by destruct (pos (this w)).
  assert (mkHex (hex_q (playerPos (scene w))) (hex_r (playerPos (scene w)))
          = playerPos (scene w)) as Hpl by by destruct (playerPos (scene w)).
  rewrite Hpos, Hpl in *.
  exists n, rest. split_and!; try done.
  - by destruct Hwalk.
  - destruct Hwalk as (_ & Hb & _). apply isBlocked_false in Hb.
    assert (mkHex (hex_q n) (hex_r n) = n) as Hn by by destruct n. rewrite Hn in Hb.
    split_and!.
    + intros o Ho Ht Heq. apply Hb, elem_of_pathObstacles. left. by exists o.
    + intros e He Ha Heq. apply Hb, elem_of_pathObstacles. right. by exists e.
    + intros Heq. apply NoDup_cons in Hnd as [_ Hnd].
      apply NoDup_cons in Hnd as [Hn' _]. apply Hn'.
      destruct rest as [|m rest]; [done|].
      rewrite last_cons_default in Hlast. rewrite Heq, <- Hlast. apply last_in_tail.
Qed.

(** X16.  When [moveTowardPlayer] moves, it moves to a neighboring grid
    coordinate on which no obstacle of the scene, no other living enemy and
    not the player stands, the first coordinate of a shortest walk to the
    player around the obstacles and the other living enemies; when it does
    not move, it changes nothing. *)
Theorem moveTowardPlayer_step pf w moved w' :
  moveTowardPlayer pf w = Some (moved, w') →
  if moved then
    ∃ n rest,
      w' = moveTo (hex_q n) (hex_r n) w ∧
      n ∈ getNeighbors (hexGrid (scene w)) (hex_q (pos (this w))) (hex_r (pos (this w))) ∧
      free w n ∧ rest ≠ [] ∧
      clearWalk (hexGrid (scene w)) (pathObstacles w) (pos (this w)) (n :: rest) ∧
      List.last (n :: rest) (pos (this w)) = playerPos (scene w) ∧
      ∀ other,
        clearWalk (hexGrid (scene w)) (pathObstacles w) (pos (this w)) other →
        List.last other (pos (this w)) = playerPos (scene w) →
        (length (n :: rest) ≤ length other)%nat
  else w' = w.
Proof.
  destruct moved.
  - apply moveTowardPlayer_walk.
  - apply moveTowardPlayer_inv.
Qed.

Lemma moveTowardPlayer_step_witness :
  let w := mkWorld (Enemy.new scrapper 2 0) initScene [] in
  ∃ n rest,
    moveTo 1 0 w = moveTo (hex_q n) (hex_r n) w ∧
    n ∈ getNeighbors (hexGrid (Enemy.scene w)) (hex_q (pos (this w))) (hex_r (pos (this w))) ∧
    free w n ∧ rest ≠ [] ∧
    clearWalk (hexGrid (Enemy.scene w)) (pathObstacles w) (pos (this w)) (n :: rest) ∧
    List.last (n :: rest) (pos (this w)) = playerPos (Enemy.scene w) ∧
    ∀ other,
      clearWalk (hexGrid (Enemy.scene w)) (pathObstacles w) (pos (this w)) other →
      List.last other (pos (this w)) = playerPos (Enemy.scene w) →
      (length (n :: rest) ≤ length other)%nat.
Proof.
  apply (moveTowardPlayer_step 200 (mkWorld (Enemy.new scrapper 2 0) initScene []) true).
  by vm_compute.
Defined.

Lemma loop_guard_true (c : bool) w :
  c && isAlive (this w) && negb (battleOver (scene w)) = true →
  c = true ∧ active w.
Proof.
  intros H. apply andb_true_iff in H as [H Hb]. apply andb_true_iff in H as [Hc Ha].
  apply negb_true_iff in Hb. done.
Qed.

Lemma unobstructed_free w n : unobstructed w n → free w n.
Proof.
  intros H. unfold free, unobstructed, getObstacles in *. split_and!.
  - intros o Ho _ <-. apply (H o); [|done]. apply elem_of_app. by left.
  - intros e He Ha <-.
    apply (H (mkObstacle (hex_q (pos e)) (hex_r (pos e)) enemy)); [|done].
    apply elem_of_app. right. apply elem_of_app. left.
    apply list_elem_of_In, in_map_iff. exists e. split; [done|].
    apply filter_In. split; [by apply list_elem_of_In|done].
  - intros ->.
    apply (H (mkObstacle (hex_q (playerPos (scene w))) (hex_r (playerPos (scene w))) player));
      [|done].
    apply elem_of_app. right. apply elem_of_app. right. by left.
Qed.

Lemma moveTowardPlayer_move_step pf w w' :
  active w → 1 ≤ ap (this w) →
  moveTowardPlayer pf w = Some (true, w') → move_step w w'.
Proof.
  intros Ha Hap H. apply moveTowardPlayer_walk in H as (n & rest & -> & Hn & Hfree & _).
  split_and!; [done|done|]. by exists n.
Qed.

Lemma moveAwayFromPlayer_away_step w w' :
  active w → 1 ≤ ap (this w) →
  moveAwayFromPlayer w = (true, w') →
  move_step w w' ∧ getDistanceToPlayer w < getDistanceToPlayer w'.
Proof.
  intros Ha Hap H.
  destruct (moveAwayFromPlayer_cases w) as [[Hno _]|(n & l1 & l2 & Hv & Hmove & Hd & _)];
    [congruence|].
  rewrite Hmove in H. injection H as <-.
  assert (n ∈ validNeighbors w) as Hn by (rewrite Hv; set_solver).
  apply elem_of_validNeighbors in Hn as (Hn & _ & Hfree).
  split; [|exact Hd].
  split_and!; [done|done|]. exists n. split_and!; [done|by apply unobstructed_free|done].
Qed.

Lemma executeMeleeTurn_0 pf w :
  executeMeleeTurn pf 0 w =
    if (0 <? ap (this w)) && isAlive (this w) && negb (battleOver (scene w))
    then None else Some w.
Proof. done. Qed.

Lemma attackPlayer_this_static w :
  aiType (this (attackPlayer w)) = aiType (this w) ∧
  pos (this (attackPlayer w)) = pos (this w) ∧
  hexGrid (scene (attackPlayer w)) = hexGrid (scene w) ∧
  playerPos (scene (attackPlayer w)) = playerPos (scene w) ∧
  obstacles (scene (attackPlayer w)) = obstacles (scene w).
Proof.
  unfold attackPlayer. destruct (canAttack (this w)); simpl; [|done].
  destruct (damagePlayer_fields (damage (this w)) (scene w)) as (-> & -> & _ & -> & _).
  done.
Qed.

Lemma executeMeleeTurn_actions pf fuel w w' :
  aiType (this w) = melee →
  executeMeleeTurn pf fuel w = Some w' → rtc action w w'.
Proof.
  revert w. induction fuel as [|fuel IH]; intros w Hai.
  { rewrite executeMeleeTurn_0. destruct (_ && _); [done|]. by intros [= ->]. }
  rewrite executeMeleeTurn_unfold.
  destruct ((0 <? ap (this w)) && isAlive (this w) && negb (battleOver (scene w)))
    eqn:Hguard; [|by intros [= ->]].
  apply loop_guard_true in Hguard as [Hap%Z.ltb_lt Hact].
  destruct ((getDistanceToPlayer w =? 1) && canAttack (this w)) eqn:Hatt.
  - apply andb_true_iff in Hatt as [Hd%Z.eqb_eq Hcan]. intros H.
    apply (rtc_l _ _ (attackPlayer w)).
    + left. split_and!; try done. unfold inReach. by rewrite Hai.
    + apply IH; [|done]. by rewrite (proj1 (attackPlayer_this_static w)).
  - destruct (1 <=? ap (this w)) eqn:H1; [|by intros [= ->]].
    destruct (moveTowardPlayer pf w) as [[[|] w1]|] eqn:Hmove; simpl; [| |done].
    + intros H. apply (rtc_l _ _ w1).
      * right. apply (moveTowardPlayer_move_step pf); [done|lia|done].
      * apply IH; [|done]. apply moveTowardPlayer_inv in Hmove as (n & rest & _ & _ & ->).
        done.
    + intros [= <-]. apply moveTowardPlayer_inv in Hmove as ->. done.
Qed.

Lemma approach_steps pf fuel w w' d' l' :
  approach pf fuel w (getDistanceToPlayer w) (hasLineOfSightToPlayer w) = Some (w', d', l') →
  rtc toward_step w w' ∧
  d' = getDistanceToPlayer w' ∧ l' = hasLineOfSightToPlayer w'.
Proof.
  revert w. induction fuel as [|fuel IH]; intros w; simpl.
  { destruct (_ && _); [done|]. by intros [= <- <- <-]. }
  destruct (((range (this w) <? getDistanceToPlayer w) || negb (hasLineOfSightToPlayer w))
            && (1 <=? ap (this w)) && isAlive (this w) && negb (battleOver (scene w)))
    eqn:Hguard; [|by intros [= <- <- <-]].
  apply loop_guard_true in Hguard as [Hc Hact].
  apply andb_true_iff in Hc as [Hout Hap%Z.leb_le].
  destruct (moveTowardPlayer pf w) as [[[|] w1]|] eqn:Hmove; simpl; [| |done].
  - intros H. apply IH in H as (Hsteps & -> & ->). split_and!; [|done|done].
    apply (rtc_l _ _ w1); [|done]. split.
    + by apply (moveTowardPlayer_move_step pf).
    + apply orb_true_iff in Hout as [?%Z.ltb_lt|?%negb_true_iff]; [by left|by right].
  - intros [= <- <- <-]. apply moveTowardPlayer_inv in Hmove as ->. done.
Qed.

Lemma attackPhase_step w w' d' :
  aiType (this w) = ranged →
  attackPhase w (getDistanceToPlayer w) (hasLineOfSightToPlayer w) = (w', d') →
  (w' = w ∨ attack_step w w') ∧ d' = getDistanceToPlayer w'.
Proof.
  intros Hai. unfold attackPhase.
  destruct (canAttack (this w) && (getDistanceToPlayer w <=? range (this w))
            && hasLineOfSightToPlayer w && isAlive (this w) && negb (battleOver (scene w)))
    eqn:Hguard; intros [= <- <-]; [|by split; [left|]].
  split; [|done]. right.
  apply loop_guard_true in Hguard as [Hc Hact].
  apply andb_true_iff in Hc as [Hc Hlos]. apply andb_true_iff in Hc as [Hcan Hd%Z.leb_le].
  split_and!; try done. unfold inReach. by rewrite Hai.
Qed.

Lemma retreat_steps fuel w w' :
  retreat fuel w (getDistanceToPlayer w) = Some w' → rtc away_step w w'.
Proof.
  revert w. induction fuel as [|fuel IH]; intros w; simpl.
  { destruct (_ && _); [done|]. by intros [= <-]. }
  destruct ((getDistanceToPlayer w <? preferredDistance (this w)) && (1 <=? ap (this w))
            && isAlive (this w) && negb (battleOver (scene w))) eqn:Hguard;
    [|by intros [= <-]].
  apply loop_guard_true in Hguard as [Hc Hact].
  apply andb_true_iff in Hc as [Hclose%Z.ltb_lt Hap%Z.leb_le].
  destruct (moveAwayFromPlayer w) as [[|] w1] eqn:Hmove; simpl.
  - intros H. apply IH in H. apply (rtc_l _ _ w1); [|done].
    destruct (moveAwayFromPlayer_away_step w w1 Hact Hap Hmove). by split_and!.
  - intros [= <-].
    destruct (moveAwayFromPlayer_cases w) as [[Hno _]|(n & l1 & l2 & _ & Hm & _)];
      [|congruence].
    rewrite Hno in Hmove. by injection Hmove as <-.
Qed.

(** The three phases of a ranged turn. *)
Lemma executeRangedTurn_phases pf fuel w w' :
  aiType (this w) = ranged →
  executeRangedTurn pf fuel w = Some w' →
  ∃ w1 w2, rtc toward_step w w1 ∧ (w2 = w1 ∨ attack_step w1 w2) ∧ rtc away_step w2 w'.
Proof.
  intros Hai. unfold executeRangedTurn.
  destruct (approach pf fuel w _ _) as [[[w1 d1] l1]|] eqn:Happ; simpl; [|done].
  apply approach_steps in Happ as (Hsteps & -> & ->).
  assert (aiType (this w1) = ranged) as Hai1.
  { clear -Hsteps Hai. induction Hsteps as [|w w1 w2 [(_ & _ & n & _ & _ & ->) _] _ IH];
      [done|]. by apply IH. }
  destruct (attackPhase w1 _ _) as [w2 d2] eqn:Hatt.
  apply attackPhase_step in Hatt as [Hatt ->]; [|done].
  intros H%retreat_steps. by exists w1, w2.
Qed.

Lemma action_effect w w' :
  action w w' →
  same_setting w w' ∧ active w ∧ 1 ≤ ap (this w) ∧ ap (this w') = ap (this w) - 1 ∧
  ((trace w' = trace w ++ [Attack (damage (this w))] ∧
    attacksThisTurn (this w) < maxAttacksPerTurn (this w) ∧
    attacksThisTurn (this w') = attacksThisTurn (this w) + 1 ∧
    pos (this w') = pos (this w) ∧
    playerHP (scene w') = Z.max 0 (playerHP (scene w) - damage (this w)) ∧
    battleOver (scene w') = (playerHP (scene w') <=? 0)) ∨
   (∃ q r, trace w' = trace w ++ [MoveTo q r] ∧
    attacksThisTurn (this w') = attacksThisTurn (this w) ∧
    pos (this w') = mkHex q r ∧ scene w' = scene w)).
Proof.
  intros [(Hact & Hcan & _ & ->)|(Hact & Hap & n & _ & _ & ->)].
  - rewrite (attackPlayer_permitted w Hcan). simpl.
    destruct (damagePlayer_fields (damage (this w)) (scene w))
      as (Hg & Hp & Hhp & Ho & He & Hb).
    unfold canAttack in Hcan.
    apply andb_true_iff in Hcan as [Hatt%Z.ltb_lt Hap%Z.leb_le].
    split_and!; try done. left. split_and!; try done.
    rewrite Hb, Hhp. destruct Hact as [_ ->]. done.
  - simpl. split_and!; try done. right. by exists (hex_q n), (hex_r n).
Qed.

Lemma attacksIn_nonneg acts : 0 ≤ attacksIn acts.
Proof. unfold attacksIn. lia. Qed.

Lemma attacksIn_cons a acts :
  attacksIn (a :: acts) = (if isAttack a then 1 else 0) + attacksIn acts.
Proof. unfold attacksIn. simpl. destruct (isAttack a); simpl; lia. Qed.

(** What a run of actions adds up to. *)
Lemma actions_account w w' :
  rtc action w w' →
  0 ≤ damage (this w) → 0 ≤ playerHP (scene w) →
  ∃ acts,
    trace w' = trace w ++ acts ∧
    same_setting w w' ∧
    ap (this w') = ap (this w) - Z.of_nat (length acts) ∧
    (0 ≤ ap (this w) → 0 ≤ ap (this w')) ∧
    attacksThisTurn (this w') = attacksThisTurn (this w) + attacksIn acts ∧
    (attacksIn acts = 0 ∨ attacksThisTurn (this w') ≤ maxAttacksPerTurn (this w)) ∧
    playerHP (scene w') = Z.max 0 (playerHP (scene w) - damage (this w) * attacksIn acts) ∧
    Forall (λ a, a = Attack (damage (this w)) ∨ ∃ q r, a = MoveTo q r) acts.
Proof.
  induction 1 as [w|w w1 w' Hstep _ IH]; intros Hd Hhp.
  { exists []. rewrite app_nil_r. unfold attacksIn. simpl.
    split_and!; try done; try lia. }
  apply action_effect in Hstep
    as (Hset & _ & Hap & Hap1 &
        [(Htr & Hlt & Hatt & _ & Hhp1 & _)|(q & r & Htr & Hatt & _ & Hsc)]).
  - pose proof Hset as (? & ? & Hdmg & ? & ? & Hmax & ? & ? & ? & ? & ? & ? & ?).
    destruct IH as (acts & Htr' & Hset' & Hap' & Hnn & Hatt' & Hle & Hhp' & Hall);
      [lia|lia|].
    exists (Attack (damage (this w)) :: acts).
    pose proof (attacksIn_nonneg acts) as Hk.
    rewrite attacksIn_cons. simpl.
    rewrite Hdmg in *. rewrite Hmax in *.
    split_and!.
    + by rewrite Htr', Htr, <- app_assoc.
    + unfold same_setting in *. destruct_and!. split_and!; congruence.
    + lia.
    + lia.
    + lia.
    + lia.
    + rewrite Hhp', Hhp1. nia.
    + constructor; [by left|done].
  - pose proof Hset as (? & ? & Hdmg & ? & ? & Hmax & ? & ? & ? & ? & ? & ? & ?).
    destruct IH as (acts & Htr' & Hset' & Hap' & Hnn & Hatt' & Hle & Hhp' & Hall);
      [lia|by rewrite Hsc|].
    exists (MoveTo q r :: acts).
    rewrite attacksIn_cons. simpl.
    rewrite Hdmg in *. rewrite Hmax in *. rewrite Hsc in *.
    split_and!.
    + by rewrite Htr', Htr, <- app_assoc.
    + unfold same_setting in *. destruct_and!. split_and!; congruence.
    + lia.
    + lia.
    + lia.
    + lia.
    + done.
    + constructor; [right; by exists q, r|done].
Qed.

Lemma toward_steps_actions w w' : rtc toward_step w w' → rtc action w w'.
Proof. induction 1 as [|w w1 w2 [H _] _ IH]; [done|]. apply (rtc_l _ _ w1); [by right|done]. Qed.

Lemma away_steps_actions w w' : rtc away_step w w' → rtc action w w'.
Proof. induction 1 as [|w w1 w2 [H _] _ IH]; [done|]. apply (rtc_l _ _ w1); [by right|done]. Qed.

(** Every turn is a run of actions. *)
Lemma executeTurn_run pf fuel w w' : executeTurn pf fuel w = Some w' → rtc action w w'.
Proof.
  unfold executeTurn. destruct (isAlive (this w)); simpl; [|by intros [= ->]].
  destruct (aiType (this w)) eqn:Hai.
  - by apply executeMeleeTurn_actions.
  - intros (w1 & w2 & H1 & H2 & H3)%executeRangedTurn_phases; [|done].
    etransitivity; [by apply toward_steps_actions|].
    etransitivity; [|by apply away_steps_actions].
    destruct H2 as [->|H2]; [done|]. apply rtc_once. by left.
Qed.

(** X17.  A turn is a run of actions, each of them either an attack that
    [canAttack] permits, from where the player is in reach, or a step to a
    free neighboring coordinate paid with an action point, and each by an
    enemy that is alive in a battle that is not over.  An enemy that is
    dead, or has no action point, or whose battle is over, does nothing. *)
Theorem executeTurn_legal pf fuel w w' :
  executeTurn pf fuel w = Some w' →
  rtc action w w' ∧
  (isAlive (this w) = false ∨ battleOver (scene w) = true ∨ ap (this w) < 1 → w' = w).
Proof.
  intros H%executeTurn_run. split; [done|].
  intros Hidle. destruct H as [|w w1 w' Hstep%action_effect _]; [done|].
  destruct Hstep as (_ & [Ha Hb] & Hap & _). destruct Hidle as [?|[?|?]]; [congruence..|lia].
Qed.

Lemma executeTurn_legal_witness :
  let w := mkWorld (Enemy.new scrapper 2 0) initScene [] in
  let w' := mkWorld (Enemy.mk (mkHex 1 0) 7 7 2 1 0 3 2 2 melee 1 true false)
              (mkScene (HexGrid.new 5) (mkHex 0 0) 16 false [] [])
              [MoveTo 1 0; Attack 2; Attack 2] in
  rtc action w w' ∧
  (isAlive (this w) = false ∨ battleOver (Enemy.scene w) = true ∨ ap (this w) < 1 → w' = w).
Proof. apply (executeTurn_legal 200 10). by vm_compute. Defined.

(** X19.  A turn spends one action point for each action and never goes
    below zero; it attacks at most as often as [maxAttacksPerTurn] lets it,
    always with the enemy's own damage, and the player loses that damage for
    every attack, down to zero; the enemy's other statistics and the layout
    of the scene stay as they are. *)
Theorem executeTurn_accounting pf fuel w w' :
  executeTurn pf fuel w = Some w' →
  0 ≤ damage (this w) → 0 ≤ playerHP (scene w) →
  ∃ acts,
    trace w' = trace w ++ acts ∧
    same_setting w w' ∧
    ap (this w') = ap (this w) - Z.of_nat (length acts) ∧
    (0 ≤ ap (this w) → 0 ≤ ap (this w')) ∧
    attacksThisTurn (this w') = attacksThisTurn (this w) + attacksIn acts ∧
    (attacksIn acts = 0 ∨ attacksThisTurn (this w') ≤ maxAttacksPerTurn (this w)) ∧
    playerHP (scene w') = Z.max 0 (playerHP (scene w) - damage (this w) * attacksIn acts) ∧
    Forall (λ a, a = Attack (damage (this w)) ∨ ∃ q r, a = MoveTo q r) acts.
Proof. intros H%executeTurn_run. by apply actions_account. Qed.

Lemma executeTurn_accounting_witness :
  let w := mkWorld (Enemy.new scrapper 2 0) initScene [] in
  let w' := mkWorld (Enemy.mk (mkHex 1 0) 7 7 2 1 0 3 2 2 melee 1 true false)
              (mkScene (HexGrid.new 5) (mkHex 0 0) 16 false [] [])
              [MoveTo 1 0; Attack 2; Attack 2] in
  ∃ acts,
    trace w' = trace w ++ acts ∧
    same_setting w w' ∧
    ap (this w') = ap (this w) - Z.of_nat (length acts) ∧
    (0 ≤ ap (this w) → 0 ≤ ap (this w')) ∧
    attacksThisTurn (this w') = attacksThisTurn (this w) + attacksIn acts ∧
    (attacksIn acts = 0 ∨ attacksThisTurn (this w') ≤ maxAttacksPerTurn (this w)) ∧
    playerHP (Enemy.scene w')
    = Z.max 0 (playerHP (Enemy.scene w) - damage (this w) * attacksIn acts) ∧
    Forall (λ a, a = Attack (damage (this w)) ∨ ∃ q r, a = MoveTo q r) acts.
Proof.
  apply (executeTurn_accounting 200 10); [by vm_compute|simpl; lia|simpl; lia].
Defined.

Lemma move_steps_attacks (R : World → World → Prop) w w' :
  (∀ a b, R a b → move_step a b) → rtc R w w' →
  attacksThisTurn (this w') = attacksThisTurn (this w) ∧
  aiType (this w') = aiType (this w).
Proof.
  intros HR. induction 1 as [|w w1 w2 (_ & _ & n & _ & _ & ->)%HR _ IH]; [done|]. done.
Qed.

(** X20.  The turn of a ranged enemy is a run of steps made while the
    player is out of reach, then at most one attack, then a run of steps
    that each lead farther from a player who is closer than preferred. *)
Theorem ranged_turn_phases pf fuel w w' :
  aiType (this w) = ranged →
  executeTurn pf fuel w = Some w' →
  (∃ w1 w2, rtc toward_step w w1 ∧ (w2 = w1 ∨ attack_step w1 w2) ∧ rtc away_step w2 w') ∧
  attacksThisTurn (this w') ≤ attacksThisTurn (this w) + 1.
Proof.
  intros Hai. unfold executeTurn. rewrite Hai.
  destruct (isAlive (this w)); simpl.
  - intros (w1 & w2 & H1 & H2 & H3)%executeRangedTurn_phases; [|done].
    split; [by exists w1, w2|].
    destruct (move_steps_attacks toward_step w w1 ltac:(by intros ?? [? _]) H1) as [E1 _].
    destruct (move_steps_attacks away_step w2 w' ltac:(by intros ?? [? _]) H3) as [E3 _].
    destruct H2 as [->|(_ & Hcan & _ & ->)]; [lia|].
    rewrite (attackPlayer_permitted w1 Hcan) in E3. simpl in E3. lia.
  - intros [= <-]. split; [|lia]. exists w, w. split_and!; [done|by left|done].
Qed.

Lemma ranged_turn_phases_witness :
  let w := mkWorld (Enemy.new turret 3 0) initScene [] in
  let w' := attackPlayer w in
  (∃ w1 w2, rtc toward_step w w1 ∧ (w2 = w1 ∨ attack_step w1 w2) ∧ rtc away_step w2 w') ∧
  attacksThisTurn (this w') ≤ attacksThisTurn (this w) + 1.
Proof. apply (ranged_turn_phases 100 10); [reflexivity|by vm_compute]. Defined.

(** X21.  A melee enemy ends its turn only when it has no action point
    left, or the battle is over, or it can neither attack nor move
    closer. *)
Theorem melee_turn_end pf fuel w w' :
  aiType (this w) = melee → isAlive (this w) = true →
  executeTurn pf fuel w = Some w' →
  ap (this w') ≤ 0 ∨ battleOver (scene w') = true ∨
  (moveTowardPlayer pf w' = Some (false, w') ∧
   ¬ (getDistanceToPlayer w' = 1 ∧ canAttack (this w') = true)).
Proof.
  intros Hai Halive. unfold executeTurn. rewrite Hai, Halive. simpl.
  revert w Hai Halive. induction fuel as [|fuel IH]; intros w Hai Halive.
  { rewrite executeMeleeTurn_0.
    destruct (_ && _) eqn:Hguard; [done|]. intros [= <-].
    rewrite Halive, andb_true_r in Hguard.
    apply andb_false_iff in Hguard as [?%Z.ltb_ge|?%negb_false_iff]; [left; lia|by right; left]. }
  rewrite executeMeleeTurn_unfold.
  destruct ((0 <? ap (this w)) && isAlive (this w) && negb (battleOver (scene w)))
    eqn:Hguard.
  2:{ intros [= <-]. rewrite Halive, andb_true_r in Hguard.
      apply andb_false_iff in Hguard as [?%Z.ltb_ge|?%negb_false_iff];
        [left; lia|by right; left]. }
  apply loop_guard_true in Hguard as [Hap%Z.ltb_lt Hact].
  destruct ((getDistanceToPlayer w =? 1) && canAttack (this w)) eqn:Hatt.
  - apply IH.
    + by rewrite (proj1 (attackPlayer_this_static w)).
    + rewrite (attackPlayer_permitted w); [done|].
      by apply andb_true_iff in Hatt as [_ ?].
  - destruct (1 <=? ap (this w)) eqn:H1; [|apply Z.leb_gt in H1; lia].
    destruct (moveTowardPlayer pf w) as [[[|] w1]|] eqn:Hmove; simpl; [| |done].
    + apply moveTowardPlayer_inv in Hmove as (n & rest & _ & _ & ->). by apply IH.
    + intros [= <-]. pose proof Hmove as ->%moveTowardPlayer_inv.
      right; right. split; [done|].
      intros [Hd%Z.eqb_eq Hcan]. by rewrite Hd, Hcan in Hatt.
Qed.

Lemma melee_turn_end_witness :
  let w' := mkWorld (Enemy.mk (mkHex 1 0) 7 7 2 1 0 3 2 2 melee 1 true false)
              (mkScene (HexGrid.new 5) (mkHex 0 0) 16 false [] [])
              [MoveTo 1 0; Attack 2; Attack 2] in
  ap (this w') ≤ 0 ∨ battleOver (Enemy.scene w') = true ∨
  (moveTowardPlayer 200 w' = Some (false, w') ∧
   ¬ (getDistanceToPlayer w' = 1 ∧ canAttack (this w') = true)).
Proof.
  apply (melee_turn_end 200 10 (mkWorld (Enemy.new scrapper 2 0) initScene []));
    [reflexivity|reflexivity|by vm_compute].
Defined.

Lemma moveTowardPlayer_total pf w :
  (length (hexes (hexGrid (scene w))) + 1 < pf)%nat →
  ∃ moved w', moveTowardPlayer pf w = Some (moved, w').
Proof.
  intros Hpf. unfold moveTowardPlayer.
  destruct (findPath_returns (hexGrid (scene w))
              (map obstacle_hex
                 (List.filter (λ o, negb (bool_decide (obs_type o = player))) (getObstacles w)))
              (hex_q (pos (this w))) (hex_r (pos (this w)))
              (hex_q (playerPos (scene w))) (hex_r (playerPos (scene w))) pf Hpf)
    as [res ->]. simpl.
  destruct res as [[|n [|m rest]]|]; try by eexists _, _.
  destruct (negb _); by eexists _, _.
Qed.

Lemma actions_ap w w' :
  rtc action w w' →
  ap (this w') ≤ ap (this w) ∧ hexGrid (scene w') = hexGrid (scene w).
Proof.
  induction 1 as [|w w1 w2 (Hset & _ & _ & Hap & _)%action_effect _ IH]; [done|].
  destruct Hset as (_ & _ & _ & _ & _ & _ & _ & _ & _ & Hg & _).
  destruct IH as [IH1 IH2]. split; [lia|congruence].
Qed.

Lemma executeMeleeTurn_total pf g fuel w :
  (length (hexes g) + 1 < pf)%nat →
  hexGrid (scene w) = g → (Z.to_nat (ap (this w)) ≤ fuel)%nat →
  ∃ w', executeMeleeTurn pf fuel w = Some w'.
Proof.
  intros Hpf. revert w. induction fuel as [|fuel IH]; intros w Hg Hfuel.
  { rewrite executeMeleeTurn_0.
    destruct (Z.ltb_spec 0 (ap (this w))); [lia|]. by eexists. }
  rewrite executeMeleeTurn_unfold.
  destruct ((0 <? ap (this w)) && isAlive (this w) && negb (battleOver (scene w)));
    [|by eexists].
  destruct ((getDistanceToPlayer w =? 1) && canAttack (this w)) eqn:Hatt.
  - apply andb_true_iff in Hatt as [_ Hcan]. apply IH.
    + by rewrite (proj1 (proj2 (proj2 (attackPlayer_this_static w)))).
    + rewrite (attackPlayer_permitted w Hcan). simpl. lia.
  - destruct (1 <=? ap (this w)); [|by eexists].
    destruct (moveTowardPlayer_total pf w) as (moved & w1 & Hmove); [by rewrite Hg|].
    rewrite Hmove. simpl. apply moveTowardPlayer_inv in Hmove.
    destruct moved; simpl; [|by eexists].
    destruct Hmove as (n & rest & _ & _ & ->). apply IH; [done|]. simpl. lia.
Qed.

Lemma approach_total pf g fuel w d l :
  (length (hexes g) + 1 < pf)%nat →
  hexGrid (scene w) = g → (Z.to_nat (ap (this w)) ≤ fuel)%nat →
  ∃ res, approach pf fuel w d l = Some res.
Proof.
  intros Hpf. revert w d l. induction fuel as [|fuel IH]; intros w d l Hg Hfuel; simpl.
  { destruct (Z.leb_spec 1 (ap (this w))); [lia|].
    rewrite andb_false_r. by eexists. }
  destruct (_ && _ && _ && _) eqn:Hguard; [|by eexists].
  destruct (moveTowardPlayer_total pf w) as (moved & w1 & Hmove); [by rewrite Hg|].
  rewrite Hmove. simpl. apply moveTowardPlayer_inv in Hmove.
  destruct moved; simpl; [|by eexists].
  destruct Hmove as (n & rest & _ & _ & ->). apply IH; [done|]. simpl. lia.
Qed.

Lemma retreat_total fuel w d :
  (Z.to_nat (ap (this w)) ≤ fuel)%nat → ∃ w', retreat fuel w d = Some w'.
Proof.
  revert w d. induction fuel as [|fuel IH]; intros w d Hfuel; simpl.
  { destruct (Z.leb_spec 1 (ap (this w))); [lia|].
    rewrite andb_false_r. by eexists. }
  destruct (_ && _ && _ && _) eqn:Hguard; [|by eexists].
  destruct (moveAwayFromPlayer_cases w) as [[-> _]|(n & l1 & l2 & _ & -> & _)]; simpl;
    [by eexists|].
  apply IH. simpl. lia.
Qed.

(** With fuel for every action point, and fuel beyond the size of the grid
    for the path search, a turn runs to its end. *)
Lemma executeTurn_total pf fuel w :
  (length (hexes (hexGrid (scene w))) + 1 < pf)%nat →
  (Z.to_nat (ap (this w)) ≤ fuel)%nat →
  ∃ w', executeTurn pf fuel w = Some w'.
Proof.
  intros Hpf Hfuel. unfold executeTurn.
  destruct (isAlive (this w)); simpl; [|by eexists].
  destruct (aiType (this w)) eqn:Hai.
  - by apply (executeMeleeTurn_total pf (hexGrid (scene w))).
  - unfold executeRangedTurn.
    destruct (approach_total pf (hexGrid (scene w)) fuel w (getDistanceToPlayer w)
                (hasLineOfSightToPlayer w) Hpf eq_refl Hfuel) as [[[w1 d1] l1] Happ].
    rewrite Happ. simpl.
    apply approach_steps in Happ as (H1%toward_steps_actions%actions_ap & -> & ->).
    destruct (attackPhase w1 _ _) as [w2 d2] eqn:Hatt.
    assert (ap (this w2) ≤ ap (this w1)) as Hap2.
    { unfold attackPhase in Hatt. destruct (_ && _ && _ && _ && _) eqn:Hguard.
      - injection Hatt as <- _. unfold attackPlayer.
        destruct (negb (canAttack (this w1))); simpl; lia.
      - injection Hatt as <- _. lia. }
    apply retreat_total. lia.
Qed.

(** X18.  A turn runs to its end, given fuel for every action point and,
    for the path search, fuel beyond the size of the grid. *)
Theorem executeTurn_terminates pf fuel w :
  (length (hexes (hexGrid (scene w))) + 1 < pf)%nat →
  (Z.to_nat (ap (this w)) ≤ fuel)%nat →
  ∃ w', executeTurn pf fuel w = Some w'.
Proof. apply executeTurn_total. Qed.

Lemma executeTurn_terminates_witness :
  ∃ w', executeTurn 200 10 (mkWorld (Enemy.new scrapper 2 0) initScene []) = Some w'.
Proof. apply executeTurn_terminates; [vm_compute; lia|simpl; lia]. Defined.

Lemma takeDamage_fields amount e :
  hp (takeDamage amount e) = Z.max 0 (hp e - amount) ∧
  isAlive (takeDamage amount e) = isAlive e && (0 <? Z.max 0 (hp e - amount)) ∧
  pos (takeDamage amount e) = pos e ∧ maxHP (takeDamage amount e) = maxHP e ∧
  damage (takeDamage amount e) = damage e ∧ range (takeDamage amount e) = range e ∧
  ap (takeDamage amount e) = ap e ∧
  attacksThisTurn (takeDamage amount e) = attacksThisTurn e.
Proof.
  unfold takeDamage. simpl.
  destruct (Z.leb_spec (Z.max 0 (hp e - amount)) 0);
    destruct (Z.ltb_spec 0 (Z.max 0 (hp e - amount))); simpl; try lia;
    split_and!; try done; by destruct (isAlive e).
Qed.

(** X22.  Damage adds up: after a sequence of hits, none of them
    negative, the hit points are the initial ones less the sum of the hits,
    zero at least; the enemy is alive exactly if it was and hit points
    remain; and nothing else about it has changed. *)
Theorem takeDamages_sum amounts e :
  Forall (λ a, 0 ≤ a) amounts → 0 ≤ hp e → (hp e = 0 → isAlive e = false) →
  let e' := takeDamages amounts e in
  hp e' = Z.max 0 (hp e - foldr Z.add 0 amounts) ∧
  isAlive e' = isAlive e && (0 <? hp e') ∧
  pos e' = pos e ∧ maxHP e' = maxHP e ∧ damage e' = damage e ∧ range e' = range e ∧
  ap e' = ap e ∧ attacksThisTurn e' = attacksThisTurn e.
Proof.
  intros Hall. revert e. induction Hall as [|a amounts Ha Htail IH]; intros e Hhp Hcons; simpl.
  { split_and!; try done; [lia|].
    destruct (Z.ltb_spec 0 (hp e)); [by rewrite andb_true_r|].
    rewrite Hcons by lia. done. }
  destruct (takeDamage_fields a e) as (H1 & H2 & H3 & H4 & H5 & H6 & H7 & H8).
  destruct (IH (takeDamage a e)) as (I1 & I2 & I3 & I4 & I5 & I6 & I7 & I8).
  { rewrite H1. lia. }
  { rewrite H1, H2. intros Hz. destruct (Z.ltb_spec 0 (Z.max 0 (hp e - a))); [lia|].
    by rewrite andb_false_r. }
  unfold takeDamages in *. simpl in *.
  split_and!; try congruence.
  - rewrite I1, H1.
    assert (0 ≤ foldr Z.add 0 amounts) as Hs.
    { clear -Htail. induction Htail; simpl; lia. }
    lia.
  - rewrite I2, H2.
    destruct (Z.ltb_spec 0 (Z.max 0 (hp e - a))); [by rewrite andb_true_r|].
    rewrite andb_false_r. simpl. rewrite I1, H1.
    assert (0 ≤ foldr Z.add 0 amounts) as Hs.
    { clear -Htail. induction Htail; simpl; lia. }
    destruct (Z.ltb_spec 0 (Z.max 0 (Z.max 0 (hp e - a) - foldr Z.add 0 amounts))); [lia|].
    by rewrite andb_false_r.
Qed.

Lemma takeDamages_sum_witness :
  let e' := takeDamages [2; 2; 2] (Enemy.new scrapper 2 0) in
  hp e' = Z.max 0 (7 - foldr Z.add 0 [2; 2; 2]) ∧
  isAlive e' = true && (0 <? hp e') ∧
  pos e' = mkHex 2 0 ∧ maxHP e' = 7 ∧ damage e' = 2 ∧ range e' = 1 ∧
  ap e' = 3 ∧ attacksThisTurn e' = 0.
Proof.
  apply (takeDamages_sum [2; 2; 2] (Enemy.new scrapper 2 0)).
  - repeat constructor; lia.
  - simpl. lia.
  - simpl. lia.
Defined.

Import BattleScene.

(** * The enemy phase *)

(** An invariant of the loop over the enemies holds when it ends. *)
Lemma enemyTurns_inv (I : list Enemy.t → list Enemy.t → Scene → Prop) pf fuel :
  (∀ before e rest sc,
     I before (e :: rest) sc → isAlive e = false ∨ battleOver sc = true →
     I (before ++ [e]) rest sc) →
  (∀ before e rest sc w',
     I before (e :: rest) sc → isAlive e = true → battleOver sc = false →
     executeTurn pf fuel (mkWorld (resetTurn e) (setEnemies sc (before ++ rest)) [])
     = Some w' →
     I (before ++ [this w']) rest (Enemy.scene w')) →
  ∀ todo before sc sc',
    I before todo sc → enemyTurns pf fuel before todo sc = Some sc' →
    ∃ l sc1, I l [] sc1 ∧ sc' = setEnemies sc1 l.
Proof.
  intros Hskip Hturn. induction todo as [|e rest IH]; intros before sc sc' HI; simpl.
  { intros [= <-]. by exists before, sc. }
  destruct (isAlive e) eqn:Ha; simpl.
  - destruct (battleOver sc) eqn:Hb.
    + apply IH. apply Hskip; [done|by right].
    + destruct (executeTurn _ _ _) as [w'|] eqn:Hw; simpl; [|done].
      apply IH. by apply (Hturn before e rest sc w').
  - apply IH. apply Hskip; [done|by left].
Qed.

Lemma actions_placed w w' :
  rtc action w w' →
  isValidHex (hexGrid (Enemy.scene w)) (hex_q (pos (this w))) (hex_r (pos (this w))) = true ∧
  free w (pos (this w)) →
  isValidHex (hexGrid (Enemy.scene w')) (hex_q (pos (this w'))) (hex_r (pos (this w'))) = true ∧
  free w' (pos (this w')).
Proof.
  induction 1 as [|w w1 w2 Hstep _ IH]; [done|]. intros [Hv Hfree]. apply IH. clear IH.
  destruct Hstep as [(_ & Hcan & _ & ->)|(_ & _ & n & Hn & Hfn & ->)].
  - rewrite (attackPlayer_permitted w Hcan). unfold free in *. simpl.
    destruct (damagePlayer_fields (damage (this w)) (Enemy.scene w))
      as (-> & -> & _ & -> & -> & _). done.
  - apply elem_of_getNeighbors in Hn as [Hn _]. unfold free in *. simpl.
    assert (mkHex (hex_q n) (hex_r n) = n) as -> by by destruct n. done.
Qed.

Lemma filter_isAlive_middle before (e : Enemy.t) rest :
  Enemy.pos <$> List.filter isAlive (before ++ e :: rest)
  = (Enemy.pos <$> List.filter isAlive before)
    ++ (if isAlive e then [pos e] else [])
    ++ (Enemy.pos <$> List.filter isAlive rest).
Proof.
  rewrite List.filter_app, fmap_app. simpl. destruct (isAlive e); done.
Qed.

Lemma elem_of_alive_pos (l : list Enemy.t) p :
  p ∈ Enemy.pos <$> List.filter isAlive l ↔ ∃ x, x ∈ l ∧ isAlive x = true ∧ pos x = p.
Proof.
  rewrite list_elem_of_fmap. split.
  - intros (x & -> & Hx). apply list_elem_of_In, filter_In in Hx as [Hx Ha].
    exists x. by rewrite list_elem_of_In.
  - intros (x & Hx & Ha & <-). exists x. split; [done|].
    apply list_elem_of_In, filter_In. by rewrite <- list_elem_of_In.
Qed.

(** The enemy about to act stands on a free coordinate. *)
Lemma wellPlaced_acting before e rest sc :
  wellPlaced (setEnemies sc (before ++ e :: rest)) → isAlive e = true →
  isValidHex (hexGrid sc) (hex_q (pos e)) (hex_r (pos e)) = true ∧
  free (mkWorld (resetTurn e) (setEnemies sc (before ++ rest)) []) (pos e).
Proof.
  intros [Hnd Hall] Ha. simpl in Hnd, Hall.
  destruct (Hall e) as (Hv & Hp & Ho); [set_solver|done|].
  split; [done|]. unfold free. simpl. split_and!; [done| |done].
  intros x Hx Hxa Heq.
  rewrite filter_isAlive_middle, Ha in Hnd.
  apply NoDup_app in Hnd as (_ & Hdisj & Hnd). simpl in Hnd.
  apply NoDup_cons in Hnd as [Hnot _].
  apply elem_of_app in Hx as [Hx|Hx].
  - apply (Hdisj (pos e)); [|by left]. apply elem_of_alive_pos. by exists x.
  - apply Hnot. apply elem_of_alive_pos. by exists x.
Qed.

(** After its turn, the enemies are still well placed. *)
Lemma wellPlaced_acted before e e' rest sc sc' :
  wellPlaced (setEnemies sc (before ++ e :: rest)) →
  isAlive e = true → isAlive e' = true → same_layout sc sc' →
  isValidHex (hexGrid sc') (hex_q (pos e')) (hex_r (pos e')) = true ∧
  free (mkWorld e' (setEnemies sc' (before ++ rest)) []) (pos e') →
  wellPlaced (setEnemies sc' ((before ++ [e']) ++ rest)).
Proof.
  intros [Hnd Hall] Ha Ha' (Hg & Hp & Ho) [Hv (Hfo & Hfe & Hfp)].
  simpl in *. rewrite <- app_assoc. simpl. split; simpl.
  - rewrite filter_isAlive_middle, Ha in Hnd. rewrite filter_isAlive_middle, Ha'.
    apply NoDup_app in Hnd as (Hnd1 & Hdisj & Hnd2). simpl in Hnd2.
    apply NoDup_cons in Hnd2 as [Hnot Hnd2].
    apply NoDup_app. split_and!; [done| |].
    + intros p Hp1 [->|Hp2]%elem_of_cons.
      * apply elem_of_alive_pos in Hp1 as (x & Hx & Hxa & Heq).
        apply (Hfe x); [set_solver|done|done].
      * apply (Hdisj p Hp1). by right.
    + simpl. apply NoDup_cons. split; [|done].
      intros (x & Hx & Hxa & Heq)%elem_of_alive_pos. apply (Hfe x); [set_solver|done|done].
  - rewrite Hg, Hp, Ho. rewrite Hg in Hv. rewrite Ho in Hfo. rewrite Hp in Hfp.
    intros x Hx Hxa.
    apply elem_of_app in Hx as [Hx|[->|Hx]%elem_of_cons].
    + apply Hall; [set_solver|done].
    + done.
    + apply Hall; [set_solver|done].
Qed.

Lemma run_same_layout w w' :
  rtc action w w' →
  same_layout (Enemy.scene w) (Enemy.scene w') ∧
  enemies (Enemy.scene w') = enemies (Enemy.scene w) ∧
  same_setting w w'.
Proof.
  induction 1 as [|w w1 w2 (Hset & _)%action_effect _ (IH1 & IH2 & IH3)].
  { unfold same_layout, same_setting. done. }
  unfold same_layout, same_setting in *. destruct_and!. split_and!; congruence.
Qed.

Lemma enemyTurns_wellPlaced pf fuel todo before sc sc' :
  wellPlaced (setEnemies sc (before ++ todo)) →
  enemyTurns pf fuel before todo sc = Some sc' →
  wellPlaced sc'.
Proof.
  intros HI Hrun.
  destruct (enemyTurns_inv (λ before todo sc, wellPlaced (setEnemies sc (before ++ todo)))
              pf fuel) with (todo := todo) (before := before) (sc := sc) (sc' := sc')
    as (l & sc1 & Hwp & ->); try done.
  - clear. intros before e rest sc Hwp _. by rewrite <- app_assoc.
  - clear. intros before e rest sc w' Hwp Ha Hb Hturn.
    apply executeTurn_run in Hturn.
    destruct (run_same_layout _ _ Hturn) as (Hlay & Hen & Hset). simpl in Hlay, Hen.
    pose proof (actions_placed _ _ Hturn) as Hpl. simpl in Hpl.
    specialize (Hpl (wellPlaced_acting before e rest sc Hwp Ha)).
    apply (wellPlaced_acted before e (this w') rest sc (Enemy.scene w')); try done.
    + destruct Hset as (_ & _ & _ & _ & _ & _ & _ & _ & -> & _). done.
    + destruct Hpl as [Hv Hfree]. split; [done|].
      unfold free in *. simpl. by rewrite Hen in Hfree.
  - by rewrite app_nil_r in Hwp.
Qed.

Lemma checkWinCondition_fields sc :
  same_layout sc (checkWinCondition sc) ∧
  enemies (checkWinCondition sc) = enemies sc ∧
  playerHP (checkWinCondition sc) = playerHP sc ∧
  battleOver (checkWinCondition sc)
  = battleOver sc || forallb (λ e, negb (isAlive e)) (enemies sc).
Proof.
  unfold checkWinCondition, endBattle, same_layout.
  destruct (forallb _ _); destruct (battleOver sc) eqn:Hb; simpl; by rewrite ?Hb.
Qed.

Lemma startEnemyPhase_inv pf fuel b b' :
  startEnemyPhase pf fuel b = Some b' →
  ∃ sc,
    enemyTurns pf fuel [] (enemies (BattleScene.scene b)) (BattleScene.scene b) = Some sc ∧
    same_layout sc (BattleScene.scene b') ∧
    enemies (BattleScene.scene b') = enemies sc ∧
    playerHP (BattleScene.scene b') = playerHP sc ∧
    battleOver (BattleScene.scene b')
    = battleOver sc || forallb (λ e, negb (isAlive e)) (enemies sc) ∧
    maxActionPoints b' = maxActionPoints b ∧
    playerDamage b' = playerDamage b ∧ playerAttackCost b' = playerAttackCost b ∧
    actionPoints b' =
      (if battleOver (BattleScene.scene b') then actionPoints b else maxActionPoints b) ∧
    (battleOver (BattleScene.scene b') = false → 0 ≤ maxActionPoints b).
Proof.
  unfold startEnemyPhase.
  destruct (enemyTurns _ _ _ _ _) as [sc|]; simpl; [|done].
  intros H. exists sc. split; [done|].
  destruct (checkWinCondition_fields sc) as (Hlay & Hen & Hhp & Hbo).
  cbv zeta in H.
  destruct (battleOver sc) eqn:Hb; simpl in H.
  - rewrite Hb in H. simpl in H. injection H as <-. simpl. rewrite Hb.
    unfold same_layout. done.
  - simpl in Hbo. rewrite Hbo in H. simpl.
    destruct (forallb _ _) eqn:Hdead; simpl in H.
    + injection H as <-. simpl. rewrite Hbo. done.
    + unfold startPlayerPhase, updateAPDisplay in H. simpl in H.
      destruct (Z.leb_spec 0 (maxActionPoints b)); simpl in H; [|done].
      rewrite Z.sub_diag in H. simpl in H. injection H as <-. simpl.
      rewrite Hbo. done.
Qed.

(** X24.  The enemy phase keeps the living enemies on pairwise different
    grid coordinates, away from the player and from the obstacles. *)
Theorem startEnemyPhase_wellPlaced pf fuel b b' :
  wellPlaced (BattleScene.scene b) →
  startEnemyPhase pf fuel b = Some b' →
  wellPlaced (BattleScene.scene b').
Proof.
  intros Hwp (sc & Hturns & (Hg & Hp & Ho) & Hen & _)%startEnemyPhase_inv.
  apply enemyTurns_wellPlaced in Hturns.
  - destruct Hturns as [Hnd Hall]. split; [by rewrite Hen|].
    rewrite Hen, Hg, Hp, Ho. done.
  - simpl. by destruct (BattleScene.scene b).
Qed.

Lemma startEnemyPhase_wellPlaced_witness :
  wellPlaced
    (mkScene (HexGrid.new 5) (mkHex 0 0) 15 false
       [mkObstacle 1 (-1) wall; mkObstacle 0 (-2) trap]
       [Enemy.mk (mkHex 1 0) 7 7 2 1 0 3 2 2 melee 1 true false;
        Enemy.mk (mkHex 0 3) 5 5 1 3 1 3 2 1 ranged 3 true false]).
Proof.
  apply (startEnemyPhase_wellPlaced 200 10
           (BattleScene.mk
              (mkScene (HexGrid.new 5) (mkHex 0 0) 20 false
                 [mkObstacle 1 (-1) wall; mkObstacle 0 (-2) trap]
                 [Enemy.new scrapper 2 0; Enemy.new turret 0 4]) 3 3 2 1)
           (BattleScene.mk
              (mkScene (HexGrid.new 5) (mkHex 0 0) 15 false
                 [mkObstacle 1 (-1) wall; mkObstacle 0 (-2) trap]
                 [Enemy.mk (mkHex 1 0) 7 7 2 1 0 3 2 2 melee 1 true false;
                  Enemy.mk (mkHex 0 3) 5 5 1 3 1 3 2 1 ranged 3 true false]) 3 3 2 1)).
  - split.
    + simpl. repeat (apply NoDup_cons; split); [..|apply NoDup_nil_2];
        set_unfold; intros H; destruct_or?; done.
    + intros e He _. simpl in He.
      repeat (apply elem_of_cons in He as [->|He]); [..|by apply elem_of_nil in He].
      * split_and!; [by vm_compute|done|]. intros o Ho _. simpl in Ho.
        repeat (apply elem_of_cons in Ho as [->|Ho]); [done..|by apply elem_of_nil in Ho].
      * split_and!; [by vm_compute|done|]. intros o Ho _. simpl in Ho.
        repeat (apply elem_of_cons in Ho as [->|Ho]); [done..|by apply elem_of_nil in Ho].
  - by vm_compute.
Defined.

Lemma enemyTurns_total pf fuel todo before sc :
  (length (hexes (hexGrid sc)) + 1 < pf)%nat →
  (∀ e, e ∈ todo → (Z.to_nat (maxAP e) ≤ fuel)%nat) →
  ∃ sc', enemyTurns pf fuel before todo sc = Some sc'.
Proof.
  revert before sc. induction todo as [|e rest IH]; intros before sc Hpf Hfuel; simpl.
  { by eexists. }
  destruct (negb (isAlive e) || battleOver sc).
  { apply IH; [done|]. intros x Hx. apply Hfuel. by right. }
  destruct (executeTurn_total pf fuel
              (mkWorld (resetTurn e) (setEnemies sc (before ++ rest)) []))
    as [w' Hw]; [done|simpl; apply Hfuel; by left|].
  rewrite Hw. simpl. apply IH.
  - apply executeTurn_run, actions_ap in Hw as [_ Hg]. by rewrite Hg.
  - intros x Hx. apply Hfuel. by right.
Qed.

(** X23.  The enemy phase runs to its end, given fuel for the action
    points of every enemy and, for the path search, fuel beyond the size of
    the grid. *)
Theorem startEnemyPhase_terminates pf fuel b :
  (length (hexes (hexGrid (BattleScene.scene b))) + 1 < pf)%nat →
  (∀ e, e ∈ enemies (BattleScene.scene b) → (Z.to_nat (maxAP e) ≤ fuel)%nat) →
  0 ≤ maxActionPoints b →
  ∃ b', startEnemyPhase pf fuel b = Some b'.
Proof.
  intros Hpf Hfuel Hmax. unfold startEnemyPhase.
  destruct (enemyTurns_total pf fuel (enemies (BattleScene.scene b)) []
              (BattleScene.scene b) Hpf Hfuel) as [sc ->].
  simpl. destruct (negb (battleOver _)); [|by eexists].
  unfold startPlayerPhase, updateAPDisplay. simpl.
  destruct (Z.leb_spec 0 (maxActionPoints b)); [|lia].
  rewrite Z.sub_diag. simpl. by eexists.
Qed.

Lemma startEnemyPhase_terminates_witness :
  ∃ b',
    startEnemyPhase 200 10
      (BattleScene.mk
         (mkScene (HexGrid.new 5) (mkHex 0 0) 20 false
            [mkObstacle 1 (-1) wall; mkObstacle 0 (-2) trap]
            [Enemy.new scrapper 2 0; Enemy.new turret 0 4]) 3 3 2 1) = Some b'.
Proof.
  apply startEnemyPhase_terminates.
  - vm_compute. lia.
  - intros e He. simpl in He.
    repeat (apply elem_of_cons in He as [->|He]); [simpl; lia..|by apply elem_of_nil in He].
  - simpl. lia.
Defined.

Lemma threat_same_stats e e' : same_stats e e' → threat e' = threat e.
Proof. intros (_ & _ & Hd & _ & _ & Hm & _ & _ & Ha & _). unfold threat. by rewrite Hd, Hm, Ha. Qed.

Lemma totalThreat_app l1 l2 : totalThreat (l1 ++ l2) = totalThreat l1 + totalThreat l2.
Proof. induction l1 as [|e l1 IH]; simpl; [done|]. rewrite IH. lia. Qed.

Lemma same_stats_refl e : same_stats e e.
Proof. unfold same_stats. done. Qed.

(** What the turn of one enemy does to the scene. *)
Lemma turn_damage pf fuel e sc others w' :
  executeTurn pf fuel (mkWorld (resetTurn e) (setEnemies sc others) []) = Some w' →
  isAlive e = true → 0 ≤ damage e → 0 ≤ playerHP sc →
  same_stats e (this w') ∧ same_layout sc (Enemy.scene w') ∧
  enemies (Enemy.scene w') = others ∧
  playerHP sc - threat e ≤ playerHP (Enemy.scene w') ≤ playerHP sc ∧
  0 ≤ playerHP (Enemy.scene w').
Proof.
  intros Hturn Ha Hd Hhp. apply executeTurn_run in Hturn.
  destruct (run_same_layout _ _ Hturn) as (Hlay & Hen & Hset).
  destruct (actions_account _ _ Hturn Hd Hhp)
    as (acts & _ & _ & _ & _ & Hatt & Hk & Hhp' & _).
  simpl in *. pose proof (attacksIn_nonneg acts) as Hnn.
  unfold threat. rewrite Ha.
  split_and!; [|done|done| | |].
  - unfold same_setting in Hset. simpl in Hset. unfold same_stats.
    destruct_and!. split_and!; try done. congruence.
  - rewrite Hhp'. destruct Hk as [->|Hk]; [lia|]. nia.
  - rewrite Hhp'. nia.
  - rewrite Hhp'. lia.
Qed.

Lemma enemyTurns_damage pf fuel todo before0 before sc0 sc sc' :
  enemyTurns pf fuel before todo sc = Some sc' →
  Forall2 same_stats before0 before →
  (∀ e, e ∈ todo → 0 ≤ damage e) →
  (∀ e, e ∈ before0 → 0 ≤ threat e) →
  same_layout sc0 sc →
  playerHP sc0 - totalThreat before0 ≤ playerHP sc ≤ playerHP sc0 →
  0 ≤ playerHP sc →
  Forall2 same_stats (before0 ++ todo) (enemies sc') ∧
  same_layout sc0 sc' ∧
  playerHP sc0 - totalThreat (before0 ++ todo) ≤ playerHP sc' ≤ playerHP sc0 ∧
  0 ≤ playerHP sc'.
Proof.
  revert before0 before sc. induction todo as [|e rest IH];
    intros before0 before sc Hrun Hst Hd Hth Hlay Hhp Hnn; simpl in Hrun.
  { injection Hrun as <-. rewrite app_nil_r. simpl. done. }
  assert (0 ≤ threat e) as Hte.
  { unfold threat. destruct (isAlive e); [|done].
    pose proof (Hd e (list_elem_of_here _ _)). nia. }
  replace (before0 ++ e :: rest) with ((before0 ++ [e]) ++ rest) by by rewrite <- app_assoc.
  destruct (negb (isAlive e) || battleOver sc) eqn:Hskip.
  - apply (IH (before0 ++ [e]) (before ++ [e]) sc); try done.
    + apply Forall2_app; [done|]. constructor; [|done].
      unfold same_stats. done.
    + intros x Hx. apply Hd. by right.
    + intros x [Hx| ->%list_elem_of_singleton]%elem_of_app; [by apply Hth|done].
    + rewrite totalThreat_app. simpl. lia.
  - apply orb_false_iff in Hskip as [Ha%negb_false_iff Hb].
    destruct (executeTurn _ _ _) as [w'|] eqn:Hw; simpl in Hrun; [|done].
    destruct (turn_damage pf fuel e sc (before ++ rest) w' Hw Ha (Hd e (list_elem_of_here _ _)) Hnn)
      as (Hst' & Hlay' & _ & Hhp' & Hnn').
    apply (IH (before0 ++ [e]) (before ++ [this w']) (Enemy.scene w')); try done.
    + apply Forall2_app; [done|]. by constructor.
    + intros x Hx. apply Hd. by right.
    + intros x [Hx| ->%list_elem_of_singleton]%elem_of_app; [by apply Hth|done].
    + unfold same_layout in *. destruct_and!. split_and!; congruence.
    + rewrite totalThreat_app. simpl. lia.
Qed.

(** X25.  In one enemy phase the player loses at most, for every living
    enemy, its damage for each attack that [maxAttacksPerTurn] lets it make;
    the enemies keep their statistics, the dead ones everything, and the
    layout of the scene stays as it is. *)
Theorem startEnemyPhase_damage pf fuel b b' :
  startEnemyPhase pf fuel b = Some b' →
  (∀ e, e ∈ enemies (BattleScene.scene b) → 0 ≤ damage e) →
  0 ≤ playerHP (BattleScene.scene b) →
  playerHP (BattleScene.scene b) - totalThreat (enemies (BattleScene.scene b))
    ≤ playerHP (BattleScene.scene b') ≤ playerHP (BattleScene.scene b) ∧
  0 ≤ playerHP (BattleScene.scene b') ∧
  Forall2 same_stats (enemies (BattleScene.scene b)) (enemies (BattleScene.scene b')) ∧
  same_layout (BattleScene.scene b) (BattleScene.scene b').
Proof.
  intros (sc & Hturns & Hlay & Hen & Hhp & _)%startEnemyPhase_inv Hd Hnn.
  apply (enemyTurns_damage pf fuel _ [] [] (BattleScene.scene b)) in Hturns
    as (Hst & Hlay' & Hhp' & Hnn'); try done.
  - simpl in *. rewrite Hen, Hhp. split_and!; try done; try lia.
    destruct Hlay as (? & ? & ?), Hlay' as (? & ? & ?).
    unfold same_layout. split_and!; congruence.
  - intros e He. by apply elem_of_nil in He.
  - simpl. lia.
Qed.

Lemma startEnemyPhase_damage_witness :
  let b :=
    BattleScene.mk
      (mkScene (HexGrid.new 5) (mkHex 0 0) 20 false
         [mkObstacle 1 (-1) wall; mkObstacle 0 (-2) trap]
         [Enemy.new scrapper 2 0; Enemy.new turret 0 4]) 3 3 2 1 in
  let b' :=
    BattleScene.mk
      (mkScene (HexGrid.new 5) (mkHex 0 0) 15 false
         [mkObstacle 1 (-1) wall; mkObstacle 0 (-2) trap]
         [Enemy.mk (mkHex 1 0) 7 7 2 1 0 3 2 2 melee 1 true false;
          Enemy.mk (mkHex 0 3) 5 5 1 3 1 3 2 1 ranged 3 true false]) 3 3 2 1 in
  playerHP (BattleScene.scene b) - totalThreat (enemies (BattleScene.scene b))
    ≤ playerHP (BattleScene.scene b') ≤ playerHP (BattleScene.scene b) ∧
  0 ≤ playerHP (BattleScene.scene b') ∧
  Forall2 same_stats (enemies (BattleScene.scene b)) (enemies (BattleScene.scene b')) ∧
  same_layout (BattleScene.scene b) (BattleScene.scene b').
Proof.
  apply (startEnemyPhase_damage 200 10).
  - by vm_compute.
  - intros e He. simpl in He.
    repeat (apply elem_of_cons in He as [->|He]); [simpl; lia..|by apply elem_of_nil in He].
  - simpl. lia.
Defined.

Lemma run_battleOver w w' :
  rtc action w w' →
  battleOver (Enemy.scene w) = (playerHP (Enemy.scene w) <=? 0) →
  battleOver (Enemy.scene w') = (playerHP (Enemy.scene w') <=? 0).
Proof.
  induction 1 as [|w w1 w2 Hstep%action_effect _ IH]; [done|]. intros Hb. apply IH.
  destruct Hstep as (_ & _ & _ & _ & [(_ & _ & _ & _ & _ & ->)|(q & r & _ & _ & _ & ->)]);
    done.
Qed.

Lemma enemyTurns_battleOver pf fuel todo before sc sc' :
  enemyTurns pf fuel before todo sc = Some sc' →
  battleOver sc = (playerHP sc <=? 0) →
  battleOver sc' = (playerHP sc' <=? 0).
Proof.
  revert before sc. induction todo as [|e rest IH]; intros before sc Hrun Hb; simpl in Hrun.
  { by injection Hrun as <-. }
  destruct (negb (isAlive e) || battleOver sc); [by apply (IH _ _ Hrun)|].
  destruct (executeTurn _ _ _) as [w'|] eqn:Hw; simpl in Hrun; [|done].
  apply (IH _ _ Hrun). by apply (run_battleOver _ _ (executeTurn_run _ _ _ _ Hw)).
Qed.

(** X26.  After an enemy phase that began with the player alive, the
    battle is over exactly if the player has no hit point left or no enemy
    is alive; if it is not over, the player's action points are full
    again. *)
Theorem startEnemyPhase_outcome pf fuel b b' :
  startEnemyPhase pf fuel b = Some b' →
  battleOver (BattleScene.scene b) = false → 0 < playerHP (BattleScene.scene b) →
  battleOver (BattleScene.scene b')
  = (playerHP (BattleScene.scene b') <=? 0)
    || forallb (λ e, negb (isAlive e)) (enemies (BattleScene.scene b')) ∧
  actionPoints b' =
    (if battleOver (BattleScene.scene b') then actionPoints b else maxActionPoints b) ∧
  (battleOver (BattleScene.scene b') = false → 0 ≤ actionPoints b' ≤ maxActionPoints b').
Proof.
  intros (sc & Hturns & _ & Hen & Hhp & Hbo & Hmax & _ & _ & Hap & Hnn)%startEnemyPhase_inv
    Hb Hpos.
  apply enemyTurns_battleOver in Hturns.
  2:{ rewrite Hb. symmetry. apply Z.leb_gt. done. }
  split_and!.
  - by rewrite Hbo, Hturns, Hen, Hhp.
  - done.
  - intros Hfalse. specialize (Hnn Hfalse). rewrite Hap, Hmax, Hfalse. lia.
Qed.

Lemma startEnemyPhase_outcome_witness :
  let b :=
    BattleScene.mk
      (mkScene (HexGrid.new 5) (mkHex 0 0) 20 false
         [mkObstacle 1 (-1) wall; mkObstacle 0 (-2) trap]
         [Enemy.new scrapper 2 0; Enemy.new turret 0 4]) 3 3 2 1 in
  let b' :=
    BattleScene.mk
      (mkScene (HexGrid.new 5) (mkHex 0 0) 15 false
         [mkObstacle 1 (-1) wall; mkObstacle 0 (-2) trap]
         [Enemy.mk (mkHex 1 0) 7 7 2 1 0 3 2 2 melee 1 true false;
          Enemy.mk (mkHex 0 3) 5 5 1 3 1 3 2 1 ranged 3 true false]) 3 3 2 1 in
  battleOver (BattleScene.scene b')
  = (playerHP (BattleScene.scene b') <=? 0)
    || forallb (λ e, negb (isAlive e)) (enemies (BattleScene.scene b')) ∧
  actionPoints b' =
    (if battleOver (BattleScene.scene b') then actionPoints b else maxActionPoints b) ∧
  (battleOver (BattleScene.scene b') = false → 0 ≤ actionPoints b' ≤ maxActionPoints b').
Proof.
  apply (startEnemyPhase_outcome 200 10); [by vm_compute|reflexivity|simpl; lia].
Defined.

(** * The player's actions *)

Lemma updateAPDisplay_Some b :
  0 ≤ actionPoints b ≤ maxActionPoints b → updateAPDisplay b = Some b.
Proof.
  intros H. unfold updateAPDisplay.
  destruct (Z.leb_spec 0 (actionPoints b)); [|lia].
  destruct (Z.leb_spec 0 (maxActionPoints b - actionPoints b)); [done|lia].
Qed.

Lemma stepOnto_spec b c :
  1 ≤ actionPoints b ≤ maxActionPoints b + 1 →
  stepOnto b c =
    Some (BattleScene.mk
            (if trapAt (obstacles (BattleScene.scene b)) c
             then damagePlayer 1 (setPlayerPos (BattleScene.scene b) c)
             else setPlayerPos (BattleScene.scene b) c)
            (actionPoints b - 1) (maxActionPoints b) (playerDamage b) (playerAttackCost b)).
Proof.
  intros H. unfold stepOnto. rewrite updateAPDisplay_Some by (simpl; lia). simpl.
  unfold trapAt. destruct (find _ _) as [o|]; [|done]. by destruct (bool_decide _).
Qed.

Lemma moveAlongPath_app p1 p2 b :
  moveAlongPath (p1 ++ p2) b = moveAlongPath p1 b ≫= moveAlongPath p2.
Proof.
  revert b. induction p1 as [|c p1 IH]; intros b; simpl; [done|].
  destruct (stepOnto b c) as [b1|]; simpl; [apply IH|done].
Qed.

(** A walk that meets no trap. *)
Lemma moveAlongPath_clear path b :
  Forall (λ c, trapAt (obstacles (BattleScene.scene b)) c = false) path →
  Z.of_nat (length path) ≤ actionPoints b ≤ maxActionPoints b →
  moveAlongPath path b =
    Some (BattleScene.mk
            (setPlayerPos (BattleScene.scene b)
               (List.last path (playerPos (BattleScene.scene b))))
            (actionPoints b - Z.of_nat (length path)) (maxActionPoints b)
            (playerDamage b) (playerAttackCost b)).
Proof.
  revert b. induction path as [|c path IH]; intros b Hclear Hap.
  { simpl. rewrite Z.sub_0_r. by destruct b as [[] ? ? ? ?]. }
  apply Forall_cons in Hclear as [Hc Hclear].
  rewrite last_cons_default.
  change (moveAlongPath (c :: path) b) with (stepOnto b c ≫= moveAlongPath path).
  rewrite stepOnto_spec by (simpl in Hap; lia). rewrite Hc. simpl.
  rewrite IH; simpl; [|done|simpl in Hap; lia].
  f_equal. f_equal. simpl length. lia.
Qed.

Lemma clearWalk_Forall g obs a p :
  clearWalk g obs a p →
  Forall (λ c, isValidHex g (hex_q c) (hex_r c) = true ∧ c ∉ obs) p.
Proof.
  revert a. induction p as [|c p IH]; intros a; [constructor|].
  intros (Hn & Hb & Hw). constructor; [|by apply (IH c)].
  apply elem_of_getNeighbors in Hn as [Hv _]. split; [done|].
  apply isBlocked_false in Hb. by destruct c.
Qed.

Lemma elem_of_playerPathObstacles obs es hex c :
  c ∈ map obstacle_hex (playerPathObstacles obs es hex) ↔
  (∃ o, o ∈ obs ∧ obstacle_hex o = c ∧
        (obs_type o = wall ∨ (obs_type o = trap ∧ c ≠ hex))) ∨
  (∃ e, e ∈ es ∧ isAlive e = true ∧ pos e = c).
Proof.
  unfold playerPathObstacles. rewrite map_app, elem_of_app.
  rewrite !list_elem_of_In, !in_map_iff. split.
  - intros [(o & <- & Ho)|(o & <- & Ho)].
    + apply filter_In in Ho as [Ho Ht]. left. exists o.
      split_and!; [by apply list_elem_of_In|done|].
      destruct (obs_type o); [by left| |done|done].
      right. split; [done|]. intros <-. simpl in Ht. by rewrite !Z.eqb_refl in Ht.
    + apply in_map_iff in Ho as (e & <- & He). apply filter_In in He as [He Ha].
      right. exists e. split_and!; [by apply list_elem_of_In|done|].
      simpl. by destruct (pos e).
  - intros [(o & Ho & <- & Ht)|(e & He & Ha & <-)].
    + left. exists o. split; [done|]. apply filter_In.
      split; [by apply list_elem_of_In|].
      destruct Ht as [->|[-> Hne]]; [done|].
      apply negb_true_iff, not_true_iff_false. intros [Hq%Z.eqb_eq Hr%Z.eqb_eq]%andb_true_iff.
      apply Hne. unfold obstacle_hex. destruct hex. simpl in *. by subst.
    + right. exists (mkObstacle (hex_q (pos e)) (hex_r (pos e)) enemy).
      split; [by destruct (pos e)|]. apply in_map_iff. exists e. split; [done|].
      apply filter_In. split; [by apply list_elem_of_In|done].
Qed.

Lemma trapAt_true obs c :
  trapAt obs c = true → ∃ o, o ∈ obs ∧ obstacle_hex o = c ∧ obs_type o = trap.
Proof.
  unfold trapAt. destruct (find _ _) as [o|] eqn:Hf; [|done].
  intros Ht%bool_decide_eq_true. apply find_some in Hf as [Ho Hat].
  apply andb_true_iff in Hat as [Hq%Z.eqb_eq Hr%Z.eqb_eq].
  exists o. split_and!; [by apply list_elem_of_In| |done].
  unfold obstacle_hex. destruct c. simpl in *. by subst.
Qed.

Lemma setPlayerPos_twice sc p q : setPlayerPos (setPlayerPos sc p) q = setPlayerPos sc q.
Proof. done. Qed.

(** X28.  Walking a path that [findPath] found for the player, with
    action points for every step, ends on the goal, a grid coordinate that
    is no wall, and keeps the living enemies well placed; it costs one
    action point for each step, and one hit point if and only if the goal is
    a trap. *)
Theorem moveAlongPath_found_path pf b hex p :
  findPath pf (hexGrid (BattleScene.scene b))
    (hex_q (playerPos (BattleScene.scene b))) (hex_r (playerPos (BattleScene.scene b)))
    (hex_q hex) (hex_r hex)
    (map obstacle_hex
       (playerPathObstacles (obstacles (BattleScene.scene b))
          (enemies (BattleScene.scene b)) hex))
  = Some (Some p) →
  p ≠ [] →
  Z.of_nat (length p) ≤ actionPoints b ≤ maxActionPoints b →
  ∃ b',
    moveAlongPath p b = Some b' ∧
    playerPos (BattleScene.scene b') = hex ∧
    actionPoints b' = actionPoints b - Z.of_nat (length p) ∧
    playerHP (BattleScene.scene b') =
      (if trapAt (obstacles (BattleScene.scene b)) hex
       then Z.max 0 (playerHP (BattleScene.scene b) - 1)
       else playerHP (BattleScene.scene b)) ∧
    enemies (BattleScene.scene b') = enemies (BattleScene.scene b) ∧
    obstacles (BattleScene.scene b') = obstacles (BattleScene.scene b) ∧
    hexGrid (BattleScene.scene b') = hexGrid (BattleScene.scene b) ∧
    isValidHex (hexGrid (BattleScene.scene b)) (hex_q hex) (hex_r hex) = true ∧
    (∀ o, o ∈ obstacles (BattleScene.scene b) → obs_type o = wall → obstacle_hex o ≠ hex) ∧
    (wellPlaced (BattleScene.scene b) → wellPlaced (BattleScene.scene b')).
Proof.
  intros Hfind Hne Hap.
  apply findPath_spec in Hfind as (Hwalk & Hlast & Hnd & _).
  set (sc := BattleScene.scene b) in *.
  assert (mkHex (hex_q (playerPos sc)) (hex_r (playerPos sc)) = playerPos sc) as Hpp
    by by destruct (playerPos sc).
  assert (mkHex (hex_q hex) (hex_r hex) = hex) as Hhex by by destruct hex.
  rewrite Hpp, Hhex in *.
  destruct (exists_last Hne) as (init & x & ->).
  rewrite last_last in Hlast. subst x.
  pose proof (clearWalk_Forall _ _ _ _ Hwalk) as Hall.
  apply Forall_app in Hall as [Hinit Hend].
  apply Forall_singleton in Hend as [Hvalid Hfree].
  assert (Forall (λ c, trapAt (obstacles sc) c = false) init) as Hclear.
  { rewrite Forall_forall in Hinit |- *. intros c Hc.
    destruct (Hinit c Hc) as [_ Hnb].
    apply not_true_iff_false. intros (o & Ho & Hoc & Ht)%trapAt_true.
    apply Hnb, elem_of_playerPathObstacles. left. exists o.
    split_and!; [done|done|]. right. split; [done|].
    intros ->. apply NoDup_cons in Hnd as [_ Hnd].
    apply NoDup_app in Hnd as (_ & Hdisj & _). apply (Hdisj hex Hc). by left. }
  rewrite length_app in Hap. simpl in Hap.
  rewrite moveAlongPath_app, moveAlongPath_clear; [|done|lia]. simpl.
  rewrite stepOnto_spec by (simpl; lia). simpl.
  rewrite setPlayerPos_twice. fold sc.
  eexists. split; [done|]. simpl.
  assert (∀ e, e ∈ enemies sc → isAlive e = true → pos e ≠ hex) as Henemy.
  { intros e He Ha Heq. apply Hfree, elem_of_playerPathObstacles. right. by exists e. }
  assert (∀ sc', hexGrid sc' = hexGrid sc → playerPos sc' = hex →
                 obstacles sc' = obstacles sc → enemies sc' = enemies sc →
                 wellPlaced sc → wellPlaced sc') as Hwp.
  { intros sc' Hg Hp Ho He [Hnd' Hall]. split; [by rewrite He|].
    rewrite He, Hg, Hp, Ho. intros e Hin Ha. destruct (Hall e Hin Ha) as (? & _ & ?).
    split_and!; [done|by apply Henemy|done]. }
  assert (∀ o, o ∈ obstacles sc → obs_type o = wall → obstacle_hex o ≠ hex) as Hwall.
  { intros o Ho Ht Heq. apply Hfree, elem_of_playerPathObstacles. left. exists o.
    split_and!; [done|done|by left]. }
  rewrite length_app. simpl.
  destruct (trapAt (obstacles sc) hex); simpl.
  - destruct (damagePlayer_fields 1 (setPlayerPos sc hex)) as (Hg & Hp & Hhp & Ho & He & _).
    simpl in *. split_and!; try done; [lia|]. by apply Hwp.
  - split_and!; try done; [lia|]. by apply Hwp.
Qed.

Lemma moveAlongPath_found_path_witness :
  let b :=
    BattleScene.mk
      (mkScene (HexGrid.new 5) (mkHex 0 0) 20 false
         [mkObstacle 1 (-1) wall; mkObstacle 0 (-2) trap]
         [Enemy.new scrapper 2 0; Enemy.new turret 0 4]) 3 3 2 1 in
  let p := [mkHex 0 (-1); mkHex 0 (-2)] in
  ∃ b',
    moveAlongPath p b = Some b' ∧
    playerPos (BattleScene.scene b') = mkHex 0 (-2) ∧
    actionPoints b' = actionPoints b - Z.of_nat (length p) ∧
    playerHP (BattleScene.scene b') =
      (if trapAt (obstacles (BattleScene.scene b)) (mkHex 0 (-2))
       then Z.max 0 (playerHP (BattleScene.scene b) - 1)
       else playerHP (BattleScene.scene b)) ∧
    enemies (BattleScene.scene b') = enemies (BattleScene.scene b) ∧
    obstacles (BattleScene.scene b') = obstacles (BattleScene.scene b) ∧
    hexGrid (BattleScene.scene b') = hexGrid (BattleScene.scene b) ∧
    isValidHex (hexGrid (BattleScene.scene b)) (hex_q (mkHex 0 (-2))) (hex_r (mkHex 0 (-2)))
    = true ∧
    (∀ o, o ∈ obstacles (BattleScene.scene b) → obs_type o = wall →
          obstacle_hex o ≠ mkHex 0 (-2)) ∧
    (wellPlaced (BattleScene.scene b) → wellPlaced (BattleScene.scene b')).
Proof.
  apply (moveAlongPath_found_path 200); [by vm_compute|done|simpl; lia].
Defined.

Lemma moveAlongPath_total path b :
  Z.of_nat (length path) ≤ actionPoints b ≤ maxActionPoints b →
  ∃ b',
    moveAlongPath path b = Some b' ∧
    actionPoints b' = actionPoints b - Z.of_nat (length path) ∧
    maxActionPoints b' = maxActionPoints b ∧ playerDamage b' = playerDamage b ∧
    playerAttackCost b' = playerAttackCost b ∧
    hexGrid (BattleScene.scene b') = hexGrid (BattleScene.scene b) ∧
    obstacles (BattleScene.scene b') = obstacles (BattleScene.scene b) ∧
    enemies (BattleScene.scene b') = enemies (BattleScene.scene b) ∧
    playerPos (BattleScene.scene b') = List.last path (playerPos (BattleScene.scene b)).
Proof.
  revert b. induction path as [|c path IH]; intros b Hap.
  { exists b. simpl. split_and!; try done. lia. }
  change (moveAlongPath (c :: path) b) with (stepOnto b c ≫= moveAlongPath path).
  rewrite last_cons_default.
  rewrite stepOnto_spec by (simpl in Hap; lia). simpl.
  match goal with |- context [moveAlongPath path ?x] => set (b1 := x) end.
  destruct (IH b1) as (b' & -> & Hap' & Hmax & Hd & Hc & Hg & Ho & He & Hp).
  { unfold b1. simpl in *. lia. }
  exists b'. unfold b1 in *. simpl in *.
  assert (∀ sc, hexGrid (if trapAt (obstacles (BattleScene.scene b)) c
                         then damagePlayer 1 sc else sc) = hexGrid sc ∧
                obstacles (if trapAt (obstacles (BattleScene.scene b)) c
                           then damagePlayer 1 sc else sc) = obstacles sc ∧
                enemies (if trapAt (obstacles (BattleScene.scene b)) c
                         then damagePlayer 1 sc else sc) = enemies sc ∧
                playerPos (if trapAt (obstacles (BattleScene.scene b)) c
                           then damagePlayer 1 sc else sc) = playerPos sc) as Hf.
  { intros sc. destruct (trapAt _ _); [|done].
    destruct (damagePlayer_fields 1 sc) as (-> & -> & _ & -> & -> & _). done. }
  destruct (Hf (setPlayerPos (BattleScene.scene b) c)) as (Hg1 & Ho1 & He1 & Hp1).
  rewrite Hg1 in Hg. rewrite Ho1 in Ho. rewrite He1 in He. rewrite Hp1 in Hp.
  split_and!; try done. lia.
Qed.

Lemma attackEnemy_cases i b :
  0 ≤ actionPoints b ≤ maxActionPoints b → 0 ≤ playerAttackCost b →
  attackEnemy i b = Some b ∨
  ∃ enemy,
    enemies (BattleScene.scene b) !! i = Some enemy ∧
    getDistance (hex_q (playerPos (BattleScene.scene b)))
      (hex_r (playerPos (BattleScene.scene b)))
      (hex_q (pos enemy)) (hex_r (pos enemy)) ≤ 1 ∧
    playerAttackCost b ≤ actionPoints b ∧
    attackEnemy i b =
      Some (BattleScene.mk
              (checkWinCondition
                 (setEnemies (BattleScene.scene b)
                    (<[i := takeDamage (playerDamage b) enemy]>
                       (enemies (BattleScene.scene b)))))
              (actionPoints b - playerAttackCost b) (maxActionPoints b)
              (playerDamage b) (playerAttackCost b)).
Proof.
  intros Hap Hcost. unfold attackEnemy.
  destruct (enemies (BattleScene.scene b) !! i) as [enemy|] eqn:Hi; [|by left].
  destruct (Z.ltb_spec 1 (getDistance (hex_q (playerPos (BattleScene.scene b)))
                            (hex_r (playerPos (BattleScene.scene b)))
                            (hex_q (pos enemy)) (hex_r (pos enemy)))); [by left|].
  destruct (Z.ltb_spec (actionPoints b) (playerAttackCost b)); [by left|].
  right. exists enemy. rewrite updateAPDisplay_Some by (simpl; lia). simpl.
  split_and!; done.
Qed.

(** X27.  A click never throws and never takes the player's action
    points below zero or above where they were; a click after the battle,
    or outside the grid, changes nothing. *)
Theorem onPointerDown_safe hex path b :
  0 ≤ actionPoints b ≤ maxActionPoints b → 0 ≤ playerAttackCost b →
  ∃ b',
    onPointerDown hex path b = Some b' ∧
    0 ≤ actionPoints b' ≤ actionPoints b ∧
    maxActionPoints b' = maxActionPoints b ∧ playerDamage b' = playerDamage b ∧
    playerAttackCost b' = playerAttackCost b ∧
    hexGrid (BattleScene.scene b') = hexGrid (BattleScene.scene b) ∧
    obstacles (BattleScene.scene b') = obstacles (BattleScene.scene b) ∧
    length (enemies (BattleScene.scene b')) = length (enemies (BattleScene.scene b)) ∧
    (battleOver (BattleScene.scene b) = true ∨
     isValidHex (hexGrid (BattleScene.scene b)) (hex_q hex) (hex_r hex) = false →
     b' = b).
Proof.
  intros Hap Hcost. unfold onPointerDown.
  destruct (battleOver (BattleScene.scene b)) eqn:Hb.
  { exists b. split_and!; try done. lia. }
  destruct (isValidHex _ _ _) eqn:Hv; simpl.
  2:{ exists b. split_and!; try done. lia. }
  assert (∀ b', b' = b ∨
            (0 ≤ actionPoints b' ≤ actionPoints b ∧
             maxActionPoints b' = maxActionPoints b ∧ playerDamage b' = playerDamage b ∧
             playerAttackCost b' = playerAttackCost b ∧
             hexGrid (BattleScene.scene b') = hexGrid (BattleScene.scene b) ∧
             obstacles (BattleScene.scene b') = obstacles (BattleScene.scene b) ∧
             length (enemies (BattleScene.scene b'))
             = length (enemies (BattleScene.scene b))) →
          0 ≤ actionPoints b' ≤ actionPoints b ∧
          maxActionPoints b' = maxActionPoints b ∧ playerDamage b' = playerDamage b ∧
          playerAttackCost b' = playerAttackCost b ∧
          hexGrid (BattleScene.scene b') = hexGrid (BattleScene.scene b) ∧
          obstacles (BattleScene.scene b') = obstacles (BattleScene.scene b) ∧
          length (enemies (BattleScene.scene b')) = length (enemies (BattleScene.scene b)) ∧
          (false = true ∨ true = false → b' = b)) as Hok.
  { intros b' [->|H]; [split_and!; try done; try lia; by intros [|]|].
    destruct_and!. split_and!; try done. by intros [|]. }
  destruct (match find _ _ with Some o => bool_decide (obs_type o = wall) | None => false end).
  { exists b. split; [done|]. apply Hok. by left. }
  destruct (list_find _ _) as [[i e]|].
  - destruct (attackEnemy_cases i b Hap Hcost) as [->|(enemy & Hi & _ & Hc & ->)].
    + exists b. split; [done|]. apply Hok. by left.
    + eexists. split; [done|]. apply Hok. right. simpl.
      destruct (checkWinCondition_fields
                  (setEnemies (BattleScene.scene b)
                     (<[i:=takeDamage (playerDamage b) enemy]>
                        (enemies (BattleScene.scene b)))))
        as ((Hg & _ & Ho) & He & _).
      rewrite Hg, Ho, He. simpl. rewrite length_insert. split_and!; try done; lia.
  - destruct path as [[|c p]|].
    + exists b. split; [done|]. apply Hok. by left.
    + destruct (Z.ltb_spec (actionPoints b) (Z.of_nat (length (c :: p)))).
      * exists b. split; [done|]. apply Hok. by left.
      * destruct (moveAlongPath_total (c :: p) b ltac:(lia))
          as (b' & -> & Hap' & ? & ? & ? & ? & ? & He & _).
        exists b'. split; [done|]. apply Hok. right. rewrite He.
        split_and!; try done; lia.
    + exists b. split; [done|]. apply Hok. by left.
Qed.

Lemma onPointerDown_safe_witness :
  let b :=
    BattleScene.mk
      (mkScene (HexGrid.new 5) (mkHex 0 0) 20 false
         [mkObstacle 1 (-1) wall; mkObstacle 0 (-2) trap]
         [Enemy.new scrapper 2 0; Enemy.new turret 0 4]) 3 3 2 1 in
  ∃ b',
    onPointerDown (mkHex 0 (-2)) (Some [mkHex 0 (-1); mkHex 0 (-2)]) b = Some b' ∧
    0 ≤ actionPoints b' ≤ actionPoints b ∧
    maxActionPoints b' = maxActionPoints b ∧ playerDamage b' = playerDamage b ∧
    playerAttackCost b' = playerAttackCost b ∧
    hexGrid (BattleScene.scene b') = hexGrid (BattleScene.scene b) ∧
    obstacles (BattleScene.scene b') = obstacles (BattleScene.scene b) ∧
    length (enemies (BattleScene.scene b')) = length (enemies (BattleScene.scene b)) ∧
    (battleOver (BattleScene.scene b) = true ∨
     isValidHex (hexGrid (BattleScene.scene b)) (hex_q (mkHex 0 (-2))) (hex_r (mkHex 0 (-2)))
     = false →
     b' = b).
Proof. apply onPointerDown_safe; simpl; lia. Defined.

Lemma filter_isAlive_insert (l : list Enemy.t) i e amount :
  l !! i = Some e →
  Enemy.pos <$> List.filter isAlive (<[i := takeDamage amount e]> l)
    `sublist_of` Enemy.pos <$> List.filter isAlive l.
Proof.
  intros Hi. rewrite insert_take_drop by by eapply lookup_lt_Some.
  rewrite <- (take_drop_middle l i e Hi) at 3.
  rewrite !filter_isAlive_middle.
  apply sublist_app; [done|]. apply sublist_app; [|done].
  unfold takeDamage. simpl.
  destruct (Z.max 0 (hp e - amount) <=? 0); simpl.
  - apply sublist_nil_l.
  - by destruct (isAlive e).
Qed.

(** X29.  An attack of the player on an adjacent enemy, with the action
    points to pay for it, costs [playerAttackCost], takes [playerDamage]
    from the enemy's hit points, down to zero, which kills it, leaves the
    other enemies and the player as they are, and ends the battle if no
    enemy is left alive. *)
Theorem attackEnemy_effect i b enemy :
  enemies (BattleScene.scene b) !! i = Some enemy →
  getDistance (hex_q (playerPos (BattleScene.scene b)))
    (hex_r (playerPos (BattleScene.scene b)))
    (hex_q (pos enemy)) (hex_r (pos enemy)) ≤ 1 →
  0 ≤ playerAttackCost b ≤ actionPoints b → actionPoints b ≤ maxActionPoints b →
  ∃ b' enemy',
    attackEnemy i b = Some b' ∧
    actionPoints b' = actionPoints b - playerAttackCost b ∧
    enemies (BattleScene.scene b') = <[i := enemy']> (enemies (BattleScene.scene b)) ∧
    hp enemy' = Z.max 0 (hp enemy - playerDamage b) ∧
    isAlive enemy' = isAlive enemy && (0 <? hp enemy') ∧
    pos enemy' = pos enemy ∧
    playerHP (BattleScene.scene b') = playerHP (BattleScene.scene b) ∧
    playerPos (BattleScene.scene b') = playerPos (BattleScene.scene b) ∧
    battleOver (BattleScene.scene b')
    = battleOver (BattleScene.scene b)
      || forallb (λ e, negb (isAlive e)) (enemies (BattleScene.scene b')) ∧
    (wellPlaced (BattleScene.scene b) → wellPlaced (BattleScene.scene b')).
Proof.
  intros Hi Hd Hc Hmax.
  assert (attackEnemy i b =
            Some (BattleScene.mk
                    (checkWinCondition
                       (setEnemies (BattleScene.scene b)
                          (<[i := takeDamage (playerDamage b) enemy]>
                             (enemies (BattleScene.scene b)))))
                    (actionPoints b - playerAttackCost b) (maxActionPoints b)
                    (playerDamage b) (playerAttackCost b))) as Hatt.
  { unfold attackEnemy. rewrite Hi.
    destruct (Z.ltb_spec 1 (getDistance (hex_q (playerPos (BattleScene.scene b)))
                              (hex_r (playerPos (BattleScene.scene b)))
                              (hex_q (pos enemy)) (hex_r (pos enemy)))); [lia|].
    destruct (Z.ltb_spec (actionPoints b) (playerAttackCost b)); [lia|].
    by rewrite updateAPDisplay_Some by (simpl; lia). }
  rewrite Hatt. eexists _, (takeDamage (playerDamage b) enemy). split; [done|]. simpl.
  destruct (checkWinCondition_fields
              (setEnemies (BattleScene.scene b)
                 (<[i:=takeDamage (playerDamage b) enemy]> (enemies (BattleScene.scene b)))))
    as ((Hg & Hp & Ho) & He & Hhp & Hbo).
  rewrite He, Hhp, Hp, Hbo. simpl.
  split_and!; try done.
  - unfold takeDamage. simpl.
    by destruct (Z.max 0 (hp enemy - playerDamage b) <=? 0).
  - unfold takeDamage. simpl.
    destruct (Z.leb_spec (Z.max 0 (hp enemy - playerDamage b)) 0); simpl.
    + destruct (Z.ltb_spec 0 (Z.max 0 (hp enemy - playerDamage b))); [lia|].
      by destruct (isAlive enemy).
    + destruct (Z.ltb_spec 0 (Z.max 0 (hp enemy - playerDamage b))); [|lia].
      by destruct (isAlive enemy).
  - unfold takeDamage. simpl.
    by destruct (Z.max 0 (hp enemy - playerDamage b) <=? 0).
  - intros [Hnd Hall]. split.
    + rewrite He. simpl.
      apply (sublist_NoDup _ (pos <$> List.filter isAlive (enemies (BattleScene.scene b))));
        [done|by apply filter_isAlive_insert].
    + rewrite He, Hg, Hp, Ho. simpl. intros e Hin Ha.
      apply list_elem_of_lookup in Hin as [j Hj].
      apply list_lookup_insert_Some in Hj as [(-> & <- & _)|[Hne Hj]].
      * assert (isAlive enemy = true ∧ pos (takeDamage (playerDamage b) enemy) = pos enemy)
          as [Ha' ->].
        { unfold takeDamage in *. simpl in *. destruct (_ <=? 0); simpl in *; done. }
        apply Hall; [|done]. by eapply list_elem_of_lookup_2.
      * apply Hall; [|done]. by eapply list_elem_of_lookup_2.
Qed.

Lemma attackEnemy_effect_witness :
  let b :=
    BattleScene.mk
      (mkScene (HexGrid.new 5) (mkHex 0 0) 20 false [] [Enemy.new scrapper 1 0]) 3 3 2 1 in
  let enemy := Enemy.new scrapper 1 0 in
  ∃ b' enemy',
    attackEnemy 0 b = Some b' ∧
    actionPoints b' = actionPoints b - playerAttackCost b ∧
    enemies (BattleScene.scene b') = <[0%nat := enemy']> (enemies (BattleScene.scene b)) ∧
    hp enemy' = Z.max 0 (hp enemy - playerDamage b) ∧
    isAlive enemy' = isAlive enemy && (0 <? hp enemy') ∧
    pos enemy' = pos enemy ∧
    playerHP (BattleScene.scene b') = playerHP (BattleScene.scene b) ∧
    playerPos (BattleScene.scene b') = playerPos (BattleScene.scene b) ∧
    battleOver (BattleScene.scene b')
    = battleOver (BattleScene.scene b)
      || forallb (λ e, negb (isAlive e)) (enemies (BattleScene.scene b')) ∧
    (wellPlaced (BattleScene.scene b) → wellPlaced (BattleScene.scene b')).
Proof.
  apply attackEnemy_effect; [reflexivity|by vm_compute|simpl; lia|simpl; lia].
Defined.
